(** * NexaDB native vector indexes: brute-force scan and HNSW graph

    A shallow embedding of [vector_ops.cpp] and [hnsw_index.cpp].

    - [size_t] values are [nat]; the one product that can wrap,
      [M * 2] in the HNSW constructor, is reduced modulo [2^64].
    - [std::vector<T>] is [list T]; an access outside the vector is undefined
      behaviour in C++ and is [None] / [Undefined] here.
    - [float] and the parts of the C++ standard library whose result the
      standard leaves open (the order of equivalent elements after
      [std::sort] and [std::partial_sort], the layout of a heap, the values
      drawn from [std::mt19937]) are fields of a [Platform]; what the
      standard does promise about them is [StdContracts]. *)

From Stdlib Require Import ZArith NArith String.
From stdpp Require Import base option list sets gmap sorting.

Local Open Scope nat_scope.

(** ** The platform *)

(** The three compile-time variants of the kernels ([__simd__] in
    [bindings.cpp]). *)
Inductive SimdPath := ARM_NEON | AVX2 | SCALAR.

Class Platform := {
  (** [float] with the operations the kernels use *)
  float : Type;
  float_zero : float;
  float_add : float → float → float;
  float_sub : float → float → float;
  float_mul : float → float → float;
  float_lt : float → float → bool;
  simd_path : SimdPath;
  (** [std::partial_sort(first, first + k, last, comp)] *)
  std_partial_sort : ∀ A : Type, (A → A → bool) → nat → list A → list A;
  (** [std::sort(first, last)] with [operator<] given as [comp] *)
  std_sort : ∀ A : Type, (A → A → bool) → list A → list A;
  (** [std::push_heap] and [std::pop_heap] on the whole container *)
  std_push_heap : ∀ A : Type, (A → A → bool) → list A → list A;
  std_pop_heap : ∀ A : Type, (A → A → bool) → list A → list A;
  (** [level_sequence M n]: the value of
      [static_cast<int>(-std::log(level_dist_(rng_)) * ml_)] at the [n]-th
      draw (counted from 0) from a [std::mt19937] seeded with 42, where
      [ml_ = 1.0 / std::log(2.0 * M)]. *)
  level_sequence : nat → nat → nat;
}.

Arguments std_partial_sort {_ _} _ _ _.
Arguments std_sort {_ _} _ _.
Arguments std_push_heap {_ _} _ _.
Arguments std_pop_heap {_ _} _ _.

(** What a call into the library can do: return normally, leave by a C++
    exception, or have undefined behaviour.  [Return] and [Raise] carry the
    object as the call leaves it. *)
Inductive exception := invalid_argument (what : string).

Inductive outcome (S A : Type) :=
  | Return (s : S) (a : A)
  | Raise (s : S) (e : exception)
  | Undefined.
Arguments Return {_ _} _ _.
Arguments Raise {_ _} _ _.
Arguments Undefined {_ _}.

Definition final_state {S A} (o : outcome S A) : option S :=
  match o with
  | Return s _ | Raise s _ => Some s
  | Undefined => None
  end.

Definition raises {S A} (o : outcome S A) (e : exception) : Prop :=
  ∃ s, o = Raise s e.

Definition vector_dimension_mismatch : exception :=
  invalid_argument "Vector dimension mismatch".
Definition query_dimension_mismatch : exception :=
  invalid_argument "Query dimension mismatch".

(** The postconditions the C++ standard gives for the algorithms. *)

(** [alg.sorting]: no later element is less than an earlier one. *)
Definition ascending {A} (comp : A → A → bool) (l : list A) : Prop :=
  ∀ i j x y, i < j → l !! i = Some x → l !! j = Some y → comp y x = false.

Definition sort_post {A} (comp : A → A → bool) (l out : list A) : Prop :=
  out ≡ₚ l ∧ ascending comp out.

(** [partial.sort]: the first [k] positions hold the [k] least elements in
    order; the order of the rest is unspecified. *)
Definition partial_sort_post {A} (comp : A → A → bool) (k : nat)
    (l out : list A) : Prop :=
  out ≡ₚ l ∧
  ∀ i j x y, i < k → i < j → out !! i = Some x → out !! j = Some y →
             comp y x = false.

Section kernels.
Context `{Platform}.

Definition f32_mla (acc a b : float) : float :=
  float_add acc (float_mul a b).

(** [a[i]] through a [const float*]: the callers pass pointers to at
    least [dimensions] floats. *)
Definition at_ptr (a : list float) (i : nat) : float :=
  default float_zero (a !! i).

(** [for (i = from; i < dimensions; ++i) { diff = a[i] - b[i];
    result += diff * diff; }] *)
Definition scalar_loop (a b : list float) (from dimensions : nat)
    (result : float) : float :=
  foldl (λ result i,
           let diff := float_sub (at_ptr a i) (at_ptr b i) in
           float_add result (float_mul diff diff))
        result (seq from (dimensions - from)).

(** One vector step on [lanes] lanes: [sum += diff * diff] lane by lane. *)
Definition lane_step (lanes : nat) (a b : list float) (i : nat)
    (sum : list float) : list float :=
  imap (λ j s,
          let diff := float_sub (at_ptr a (i + j)) (at_ptr b (i + j)) in
          f32_mla s diff diff)
       sum.

(** [for (i = 0; i < simd_size; i += lanes)] *)
Definition lane_loop (lanes : nat) (a b : list float) (simd_size : nat)
    : list float :=
  foldl (λ sum blk, lane_step lanes a b (blk * lanes) sum)
        (replicate lanes float_zero) (seq 0 (simd_size `div` lanes)).

(** [temp[0] + temp[1] + ... ], left to right *)
Definition horizontal_sum (temp : list float) : float :=
  match temp with
  | [] => float_zero
  | t0 :: rest => foldl float_add t0 rest
  end.

Definition l2_distance_lanes (lanes : nat) (a b : list float)
    (dimensions : nat) : float :=
  let simd_size := dimensions - dimensions `mod` lanes in
  let result := horizontal_sum (lane_loop lanes a b simd_size) in
  scalar_loop a b simd_size dimensions result.

Definition l2_distance_simd (a b : list float) (dimensions : nat) : float :=
  match simd_path with
  | ARM_NEON => l2_distance_lanes 4 a b dimensions
  | AVX2 => l2_distance_lanes 8 a b dimensions
  | SCALAR => scalar_loop a b 0 dimensions float_zero
  end.

(** [&data_[id * dimensions]]: [operator[]] needs an index below
    [data_.size()], also when no [float] is read through the pointer
    ([dimensions] 0), and the kernel reads [dimensions] floats from
    there. *)
Definition row_ptr (data : list float) (dimensions id : nat)
    : option (list float) :=
  if decide (id * dimensions < length data ∧
             id * dimensions + dimensions ≤ length data)
  then Some (drop (id * dimensions) data)
  else None.
End kernels.

(** A comparator that compares two elements by [<] or by [>] on a [float]
    taken from each: the lambda in [VectorBatchInserter::search] and
    [SearchCandidate]'s [operator<] and [operator>]. *)
Definition float_order `{Platform} {A} (comp : A → A → bool) : Prop :=
  ∃ key : A → float,
    (∀ a b, comp a b = float_lt (key a) (key b)) ∨
    (∀ a b, comp a b = float_lt (key b) (key a)).

(** [comp] induces a strict weak ordering on the elements of [l], as
    [alg.sorting] requires of a comparison: it is irreflexive and
    transitive, and so is being incomparable.  [<] on [float]s is one
    on values that are not NaN; a NaN among other values breaks the last
    part. *)
Definition strict_weak_order {A} (comp : A → A → bool) (l : list A)
    : Prop :=
  (∀ x, x ∈ l → comp x x = false) ∧
  (∀ x y z, x ∈ l → y ∈ l → z ∈ l →
     comp x y = true → comp y z = true → comp x z = true) ∧
  (∀ x y z, x ∈ l → y ∈ l → z ∈ l →
     comp x y = false → comp y z = false → comp x z = false).

(** [<] is a strict weak order on the floats [ds]: none of them is NaN,
    or they are all incomparable. *)
Definition ordered_floats `{Platform} (ds : list float) : Prop :=
  ∀ x y z, x ∈ ds → y ∈ ds → z ∈ ds →
           float_lt x y = false → float_lt y z = false →
           float_lt x z = false.

(** What IEEE 754 and the library give for such comparators.  [<] on
    [float] is irreflexive and transitive, NaN or not.  The algorithms of
    libstdc++ only move the elements of their range, so what they leave
    is a permutation of it whatever the comparison answers; the order
    they leave is the postcondition of the standard, promised where the
    comparison is a strict weak ordering on the elements. *)
Class StdContracts `{Platform} := {
  float_lt_irrefl : ∀ x : float, float_lt x x = false;
  float_lt_trans : ∀ x y z : float,
    float_lt x y = true → float_lt y z = true → float_lt x z = true;
  partial_sort_perm : ∀ A (comp : A → A → bool) k l,
    float_order comp → k ≤ length l → std_partial_sort comp k l ≡ₚ l;
  partial_sort_spec : ∀ A (comp : A → A → bool) k l,
    float_order comp → k ≤ length l → strict_weak_order comp l →
    partial_sort_post comp k l (std_partial_sort comp k l);
  sort_perm : ∀ A (comp : A → A → bool) l,
    float_order comp → std_sort comp l ≡ₚ l;
  sort_spec : ∀ A (comp : A → A → bool) l,
    float_order comp → strict_weak_order comp l →
    sort_post comp l (std_sort comp l);
  (** [std::is_heap] *)
  is_heap : ∀ A : Type, (A → A → bool) → list A → Prop;
  is_heap_nil : ∀ A (comp : A → A → bool), is_heap A comp [];
  (** the first element of a heap is not less than any other *)
  is_heap_front : ∀ A (comp : A → A → bool) x l y,
    float_order comp → strict_weak_order comp (x :: l) →
    is_heap A comp (x :: l) → y ∈ l → comp x y = false;
  (** [push_heap]: the last element is moved up *)
  push_heap_perm : ∀ A (comp : A → A → bool) l x,
    float_order comp → std_push_heap comp (l ++ [x]) ≡ₚ x :: l;
  (** [[first, last - 1)] is a heap; afterwards the whole range is *)
  push_heap_spec : ∀ A (comp : A → A → bool) l x,
    float_order comp → strict_weak_order comp (x :: l) →
    is_heap A comp l → is_heap A comp (std_push_heap comp (l ++ [x]));
  (** [pop_heap]: the first element goes to [last - 1] *)
  pop_heap_perm : ∀ A (comp : A → A → bool) x l,
    float_order comp →
    ∃ l', std_pop_heap comp (x :: l) = l' ++ [x] ∧ l' ≡ₚ l;
  (** the rest is made a heap *)
  pop_heap_spec : ∀ A (comp : A → A → bool) x l l',
    float_order comp → strict_weak_order comp (x :: l) →
    is_heap A comp (x :: l) → std_pop_heap comp (x :: l) = l' ++ [x] →
    is_heap A comp l';
}.
Arguments is_heap {_ _ _} _ _.

(** ** [vector_ops.cpp]: the brute-force index *)

Module VectorBatchInserter.
Section defs.
Context `{Platform}.

Record t := mk {
  dimensions_ : nat;
  num_vectors_ : nat;
  data_ : list float;   (* flat array of all vectors, row-major *)
}.

Definition new (dimensions : nat) : t :=
  {| dimensions_ := dimensions; num_vectors_ := 0; data_ := [] |}.

Definition add (self : t) (vector : list float) : outcome t () :=
  if decide (length vector ≠ dimensions_ self)
  then Raise self vector_dimension_mismatch
  else
    Return {| dimensions_ := dimensions_ self;
              num_vectors_ := S (num_vectors_ self);
              data_ := data_ self ++ vector |} ().

Definition add_batch (self : t) (vectors : list (list float))
    : outcome t () :=
  (* for (vec : vectors) if (vec.size() != dimensions_) throw *)
  if decide (Exists (λ vec, length vec ≠ dimensions_ self) vectors)
  then Raise self vector_dimension_mismatch
  else
    (* for (vec : vectors) data_.insert(data_.end(), ...) *)
    let data := foldl (λ data vec, data ++ vec) (data_ self) vectors in
    Return {| dimensions_ := dimensions_ self;
              num_vectors_ := num_vectors_ self + length vectors;
              data_ := data |} ().

(** the lambda [a.second < b.second] *)
Definition by_second (a b : nat * float) : bool := float_lt a.2 b.2.

(** [distances]: one [(i, dist)] per stored vector, in id order *)
Definition all_distances (self : t) (query : list float)
    : option (list (nat * float)) :=
  mapM (λ i, vector_ptr ← row_ptr (data_ self) (dimensions_ self) i;
             Some (i, l2_distance_simd query vector_ptr (dimensions_ self)))
       (seq 0 (num_vectors_ self)).

Definition search (self : t) (query : list float) (k : nat)
    : outcome t (list (nat * float)) :=
  if decide (length query ≠ dimensions_ self)
  then Raise self query_dimension_mismatch
  else if decide (num_vectors_ self = 0) then Return self []
  else
    let k := k `min` num_vectors_ self in
    match all_distances self query with
    | None => Undefined
    | Some distances =>
        let distances := std_partial_sort by_second k distances in
        (* distances.resize(k) *)
        Return self (take k distances)
    end.

Definition size (self : t) : nat := num_vectors_ self.
Definition dimensions (self : t) : nat := dimensions_ self.

Definition clear (self : t) : outcome t () :=
  Return {| dimensions_ := dimensions_ self;
            num_vectors_ := 0;
            data_ := [] |} ().

(** The methods bound in [bindings.cpp]. *)
Inductive call :=
  | call_add (vector : list float)
  | call_add_batch (vectors : list (list float))
  | call_search (query : list float) (k : nat)
  | call_clear.

Definition run (self : t) (c : call) : option t :=
  match c with
  | call_add vector => final_state (add self vector)
  | call_add_batch vectors => final_state (add_batch self vectors)
  | call_search query k => final_state (search self query k)
  | call_clear => final_state (clear self)
  end.

(** The states an index can be in: constructed, then any calls. *)
Inductive reachable : t → Prop :=
  | reachable_new dimensions : reachable (new dimensions)
  | reachable_run self c self' :
      reachable self → run self c = Some self' → reachable self'.

(** *** Specification vocabulary *)

(** The vectors held after a call, given those held before it: a
    vector of the wrong length is not stored, and [add_batch] stores all
    of its vectors or none. *)
Definition stored_after (dimensions : nat) (vs : list (list float))
    (c : call) : list (list float) :=
  match c with
  | call_add vector =>
      if decide (length vector = dimensions) then vs ++ [vector] else vs
  | call_add_batch vectors =>
      if decide (Forall (λ vec, length vec = dimensions) vectors)
      then vs ++ vectors else vs
  | call_search _ _ => vs
  | call_clear => []
  end.

(** [stores self vs]: [self] is reachable, and [vs] are the vectors it
    holds, by id. *)
Inductive stores : t → list (list float) → Prop :=
  | stores_new dimensions : stores (new dimensions) []
  | stores_run self vs c self' :
      stores self vs → run self c = Some self' →
      stores self' (stored_after (dimensions_ self) vs c).

Definition arena (self : t) (vs : list (list float)) : Prop :=
  num_vectors_ self = length vs ∧
  data_ self = concat vs ∧
  Forall (λ v, length v = dimensions_ self) vs.

(** [l2_distance_simd(query_ptr, &data_[i * dimensions_], dimensions_)] *)
Definition query_distance (self : t) (query : list float) (i : nat)
    : float :=
  l2_distance_simd query (drop (i * dimensions_ self) (data_ self))
    (dimensions_ self).

(** the distances from [query] to the stored vectors, by id *)
Definition query_distances (self : t) (query : list float) : list float :=
  query_distance self query <$> seq 0 (num_vectors_ self).

(** [res] holds the [min k n] ids in [0, n) nearest by [dist], each once
    and with its distance, nearest first. *)
Definition top_k (dist : nat → float) (n k : nat)
    (res : list (nat * float)) : Prop :=
  length res = k `min` n ∧
  (∀ p, p ∈ res → p.1 < n ∧ p.2 = dist p.1) ∧
  NoDup res.*1 ∧
  ascending by_second res ∧
  (∀ p i, p ∈ res → i < n → i ∉ res.*1 → float_lt (dist i) p.2 = false).

(** Of two results at the same distance the one with the smaller id
    comes first. *)
Definition ties_by_id (res : list (nat * float)) : Prop :=
  ∀ i j p q, i < j → res !! i = Some p → res !! j = Some q →
             float_lt p.2 q.2 = false → p.1 < q.1.
End defs.
End VectorBatchInserter.

(** ** [hnsw_index.cpp]: the HNSW graph index *)

Module HNSWNode.
Record t := mk {
  id : nat;
  neighbors : list (list nat);   (* neighbors[layer] = list of neighbor IDs *)
}.

(** [HNSWNode(node_id, max_layer) : id(node_id), neighbors(max_layer + 1)] *)
Definition new (node_id max_layer : nat) : t :=
  {| id := node_id; neighbors := replicate (max_layer + 1) [] |}.
End HNSWNode.

Module SearchCandidate.
Section defs.
Context `{Platform}.

Record t := mk {
  id : nat;
  distance : float;
}.

(** [operator<] and [operator>] *)
Definition lt (self other : t) : bool :=
  float_lt (distance self) (distance other).
Definition gt (self other : t) : bool :=
  float_lt (distance other) (distance self).
End defs.
End SearchCandidate.

(** [std::priority_queue<T, std::vector<T>, Compare>]: the container [c]
    kept as a heap; [top] is [c.front()]. *)
Module priority_queue.
Section defs.
Context `{Platform} {A : Type}.

Definition push (comp : A → A → bool) (c : list A) (x : A) : list A :=
  std_push_heap comp (c ++ [x]).
Definition pop (comp : A → A → bool) (c : list A) : list A :=
  let c := std_pop_heap comp c in
  take (length c - 1) c.
Definition top (c : list A) : option A := head c.
End defs.
End priority_queue.

Module HNSWIndex.
Section defs.
Context `{Platform}.

Record t := mk {
  dimensions_ : nat;
  max_elements_ : nat;
  num_vectors_ : nat;
  M_ : nat;                (* connections per layer *)
  M_max_ : nat;            (* max connections at layer 0 *)
  ef_construction_ : nat;
  ef_search_ : nat;
  data_ : list float;      (* flat array of all vectors *)
  nodes_ : list HNSWNode.t;
  entry_point_ : nat;
  max_layer_ : nat;
  (** [rng_]: how many values have been drawn since it was seeded with
      42.  [ml_] is a function of [M_] and [level_dist_] has no state;
      both are part of [level_sequence]. *)
  rng_ : nat;
}.

Definition new (dimensions max_elements M ef_construction : nat) : t :=
  {| dimensions_ := dimensions;
     max_elements_ := max_elements;
     num_vectors_ := 0;
     M_ := M;
     M_max_ := N.to_nat ((N.of_nat M * 2) `mod` 2 ^ 64);
     ef_construction_ := ef_construction;
     ef_search_ := 100;
     data_ := [];
     nodes_ := [];
     entry_point_ := 0;
     max_layer_ := 0;
     rng_ := 0 |}.

(** the defaults of the constructor for [M] and [ef_construction] *)
Definition default_M : nat := 16.
Definition default_ef_construction : nat := 200.

Definition get_random_level (self : t) : nat :=
  level_sequence (M_ self) (rng_ self).

Section graph.
(** The members the [const] helpers read. *)
Variables (dimensions : nat) (data : list float).

Definition distance (id1 id2 : nat) : option float :=
  v1 ← row_ptr data dimensions id1;
  v2 ← row_ptr data dimensions id2;
  Some (l2_distance_simd v1 v2 dimensions).

Definition distance_to_query (query : list float) (id : nat)
    : option float :=
  v ← row_ptr data dimensions id;
  Some (l2_distance_simd query v dimensions).

(** [nodes_[id].neighbors[layer]] *)
Definition neighbors_at (nodes : list HNSWNode.t) (id layer : nat)
    : option (list nat) :=
  node ← nodes !! id;
  HNSWNode.neighbors node !! layer.

(** The locals of [search_layer]. *)
Record search_state := mk_search {
  visited : gset nat;
  candidates : list SearchCandidate.t;   (* min-heap *)
  W : list SearchCandidate.t;            (* max-heap (result set) *)
}.

(** the body of [for (size_t neighbor_id : neighbors)] *)
Definition visit_neighbor (query : list float) (ef : nat)
    (s : search_state) (neighbor_id : nat) : option search_state :=
  if decide (neighbor_id ∈ visited s) then Some s
  else
    let visited := {[neighbor_id]} ∪ visited s in
    d_neighbor ← distance_to_query query neighbor_id;
    W_top ← priority_queue.top (W s);
    if float_lt d_neighbor (SearchCandidate.distance W_top)
       || bool_decide (length (W s) < ef)
    then
      let c := SearchCandidate.mk neighbor_id d_neighbor in
      let candidates :=
        priority_queue.push SearchCandidate.gt (candidates s) c in
      let W := priority_queue.push SearchCandidate.lt (W s) c in
      let W := if decide (ef < length W)
               then priority_queue.pop SearchCandidate.lt W
               else W in
      Some (mk_search visited candidates W)
    else Some (mk_search visited (candidates s) (W s)).

Fixpoint visit_neighbors (query : list float) (ef : nat)
    (s : search_state) (neighbors : list nat) : option search_state :=
  match neighbors with
  | [] => Some s
  | neighbor_id :: rest =>
      s ← visit_neighbor query ef s neighbor_id;
      visit_neighbors query ef s rest
  end.

(** [while (!candidates.empty())]; [fuel] bounds the iterations. *)
Fixpoint search_loop (nodes : list HNSWNode.t) (query : list float)
    (ef layer : nat) (fuel : nat) (s : search_state)
    : option search_state :=
  match fuel with
  | 0 => None
  | S fuel =>
      match priority_queue.top (candidates s) with
      | None => Some s
      | Some c =>
          let candidates :=
            priority_queue.pop SearchCandidate.gt (candidates s) in
          W_top ← priority_queue.top (W s);
          if float_lt (SearchCandidate.distance W_top)
                      (SearchCandidate.distance c)
          then Some (mk_search (visited s) candidates (W s))   (* break *)
          else
            neighbors ← neighbors_at nodes (SearchCandidate.id c) layer;
            s ← visit_neighbors query ef
                  (mk_search (visited s) candidates (W s)) neighbors;
            search_loop nodes query ef layer fuel s
      end
  end.

(** [while (!W.empty()) { results.push_back(W.top()); W.pop(); }] *)
Fixpoint drain (fuel : nat) (W : list SearchCandidate.t)
    : list SearchCandidate.t :=
  match fuel with
  | 0 => []
  | S fuel =>
      match priority_queue.top W with
      | None => []
      | Some x => x :: drain fuel (priority_queue.pop SearchCandidate.lt W)
      end
  end.

(** Every pass of the loop pops a candidate, and a candidate is pushed
    only for an id not visited before, so one more pass than there are
    nodes always suffices ([search_layer_returns]). *)
Definition search_layer (nodes : list HNSWNode.t) (query : list float)
    (entry_id ef layer : nat) : option (list SearchCandidate.t) :=
  d ← distance_to_query query entry_id;
  let c := SearchCandidate.mk entry_id d in
  let s := mk_search {[entry_id]}
             (priority_queue.push SearchCandidate.gt [] c)
             (priority_queue.push SearchCandidate.lt [] c) in
  s ← search_loop nodes query ef layer (S (length nodes)) s;
  let results := drain (length (W s)) (W s) in
  Some (reverse results).

(** [nodes_[id].neighbors[layer].push_back(x)] *)
Definition push_back_neighbor (nodes : list HNSWNode.t)
    (id layer x : nat) : option (list HNSWNode.t) :=
  node ← nodes !! id;
  l ← HNSWNode.neighbors node !! layer;
  Some (<[id := HNSWNode.mk (HNSWNode.id node)
                  (<[layer := l ++ [x]]> (HNSWNode.neighbors node))]>
          nodes).

Definition prune_connections (nodes : list HNSWNode.t)
    (node_id layer M : nat) : option (list HNSWNode.t) :=
  node ← nodes !! node_id;
  neighbors ← HNSWNode.neighbors node !! layer;
  if decide (length neighbors ≤ M) then Some nodes
  else
    candidates ← mapM (λ neighbor_id,
                         d ← distance node_id neighbor_id;
                         Some (SearchCandidate.mk neighbor_id d))
                      neighbors;
    let candidates := std_sort SearchCandidate.lt candidates in
    (* keep M nearest *)
    let kept := SearchCandidate.id <$> take M candidates in
    Some (<[node_id := HNSWNode.mk (HNSWNode.id node)
                         (<[layer := kept]> (HNSWNode.neighbors node))]>
            nodes).

(** the body of [for (const auto& neighbor : neighbors)] in [add] *)
Definition link (new_id lc M : nat) (nodes : list HNSWNode.t)
    (neighbor : SearchCandidate.t) : option (list HNSWNode.t) :=
  let n := SearchCandidate.id neighbor in
  nodes ← push_back_neighbor nodes new_id lc n;
  nodes ← push_back_neighbor nodes n lc new_id;
  l ← neighbors_at nodes n lc;
  if decide (M < length l) then prune_connections nodes n lc M
  else Some nodes.

Fixpoint link_all (new_id lc M : nat) (nodes : list HNSWNode.t)
    (neighbors : list SearchCandidate.t) : option (list HNSWNode.t) :=
  match neighbors with
  | [] => Some nodes
  | neighbor :: rest =>
      nodes ← link new_id lc M nodes neighbor;
      link_all new_id lc M nodes rest
  end.

(** [if (!nearest.empty()) curr_nearest = nearest[0].id] *)
Definition first_id (l : list SearchCandidate.t) (curr_nearest : nat)
    : nat :=
  match l with
  | [] => curr_nearest
  | c :: _ => SearchCandidate.id c
  end.

(** the layers [lc] of [for (lc = from; lc > stop; --lc)], given as a
    list, with [search_layer(query, curr_nearest, 1, lc)] in each *)
Fixpoint greedy_descent (nodes : list HNSWNode.t) (query : list float)
    (curr_nearest : nat) (layers : list nat) : option nat :=
  match layers with
  | [] => Some curr_nearest
  | lc :: rest =>
      nearest ← search_layer nodes query curr_nearest 1 lc;
      greedy_descent nodes query (first_id nearest curr_nearest) rest
  end.

(** the second loop of [add]: [for (lc = min(new_level, max_layer_);
    lc >= 0; --lc)] *)
Fixpoint insert_layers (m m_max ef_construction : nat)
    (query : list float) (new_id : nat) (nodes : list HNSWNode.t)
    (curr_nearest : nat) (layers : list nat)
    : option (list HNSWNode.t) :=
  match layers with
  | [] => Some nodes
  | lc :: rest =>
      candidates ← search_layer nodes query curr_nearest
                     ef_construction lc;
      let M := if decide (lc = 0) then m_max else m in
      (* get M nearest neighbors *)
      let neighbors := take M candidates in
      nodes ← link_all new_id lc M nodes neighbors;
      insert_layers m m_max ef_construction query new_id nodes
        (first_id neighbors curr_nearest) rest
  end.
End graph.

(** [for (int lc = from; lc > stop; --lc)] *)
Definition layers_down (from stop : nat) : list nat :=
  reverse (seq (S stop) (from - stop)).
(** [for (int lc = from; lc >= 0; --lc)] *)
Definition layers_down_to_0 (from : nat) : list nat :=
  reverse (seq 0 (S from)).

Definition add (self : t) (vector : list float) : outcome t () :=
  if decide (length vector ≠ dimensions_ self)
  then Raise self vector_dimension_mismatch
  else
    let new_id := num_vectors_ self in
    let new_level := get_random_level self in
    let rng := S (rng_ self) in
    (* store vector data *)
    let data := data_ self ++ vector in
    (* create node *)
    let nodes :=
      nodes_ self ++ [HNSWNode.new new_id (new_level `max` max_layer_ self)] in
    if decide (num_vectors_ self = 0) then
      (* first node - set as entry point *)
      Return {| dimensions_ := dimensions_ self;
                max_elements_ := max_elements_ self;
                num_vectors_ := S (num_vectors_ self);
                M_ := M_ self;
                M_max_ := M_max_ self;
                ef_construction_ := ef_construction_ self;
                ef_search_ := ef_search_ self;
                data_ := data;
                nodes_ := nodes;
                entry_point_ := new_id;
                max_layer_ := new_level;
                rng_ := rng |} ()
    else
      let built :=
        (* find nearest at each layer above new_level *)
        curr_nearest ← greedy_descent (dimensions_ self) data nodes vector
                         (entry_point_ self)
                         (layers_down (max_layer_ self) new_level);
        (* insert at each layer up to new_level *)
        insert_layers (dimensions_ self) data (M_ self) (M_max_ self)
          (ef_construction_ self) vector new_id nodes curr_nearest
          (layers_down_to_0 (new_level `min` max_layer_ self)) in
      match built with
      | None => Undefined
      | Some nodes =>
          (* update max layer if needed *)
          let promote := bool_decide (max_layer_ self < new_level) in
          Return {| dimensions_ := dimensions_ self;
                    max_elements_ := max_elements_ self;
                    num_vectors_ := S (num_vectors_ self);
                    M_ := M_ self;
                    M_max_ := M_max_ self;
                    ef_construction_ := ef_construction_ self;
                    ef_search_ := ef_search_ self;
                    data_ := data;
                    nodes_ := nodes;
                    entry_point_ :=
                      if promote then new_id else entry_point_ self;
                    max_layer_ :=
                      if promote then new_level else max_layer_ self;
                    rng_ := rng |} ()
      end.

(** [for (vec : vectors) add(vec);] an exception leaves the loop *)
Fixpoint add_batch (self : t) (vectors : list (list float))
    : outcome t () :=
  match vectors with
  | [] => Return self ()
  | vec :: rest =>
      match add self vec with
      | Return self _ => add_batch self rest
      | Raise self e => Raise self e
      | Undefined => Undefined
      end
  end.

Definition search (self : t) (query : list float) (k : nat)
    : outcome t (list (nat * float)) :=
  if decide (length query ≠ dimensions_ self)
  then Raise self query_dimension_mismatch
  else if decide (num_vectors_ self = 0) then Return self []
  else
    let k := k `min` num_vectors_ self in
    let found :=
      (* find nearest at top layers *)
      curr_nearest ← greedy_descent (dimensions_ self) (data_ self)
                       (nodes_ self) query (entry_point_ self)
                       (layers_down (max_layer_ self) 0);
      (* search at layer 0 with ef_search *)
      search_layer (dimensions_ self) (data_ self) (nodes_ self) query
        curr_nearest (ef_search_ self `max` k) 0 in
    match found with
    | None => Undefined
    | Some candidates =>
        (* extract top k results *)
        Return self
          ((λ c, (SearchCandidate.id c, SearchCandidate.distance c))
             <$> take k candidates)
    end.

Definition size (self : t) : nat := num_vectors_ self.
Definition dimensions (self : t) : nat := dimensions_ self.

Definition clear (self : t) : outcome t () :=
  Return {| dimensions_ := dimensions_ self;
            max_elements_ := max_elements_ self;
            num_vectors_ := 0;
            M_ := M_ self;
            M_max_ := M_max_ self;
            ef_construction_ := ef_construction_ self;
            ef_search_ := ef_search_ self;
            data_ := [];
            nodes_ := [];
            entry_point_ := 0;
            max_layer_ := 0;
            rng_ := rng_ self |} ().

Definition set_ef (self : t) (ef : nat) : outcome t () :=
  Return {| dimensions_ := dimensions_ self;
            max_elements_ := max_elements_ self;
            num_vectors_ := num_vectors_ self;
            M_ := M_ self;
            M_max_ := M_max_ self;
            ef_construction_ := ef_construction_ self;
            ef_search_ := ef;
            data_ := data_ self;
            nodes_ := nodes_ self;
            entry_point_ := entry_point_ self;
            max_layer_ := max_layer_ self;
            rng_ := rng_ self |} ().

(** The methods bound in [bindings.cpp]. *)
Inductive call :=
  | call_add (vector : list float)
  | call_add_batch (vectors : list (list float))
  | call_search (query : list float) (k : nat)
  | call_set_ef (ef : nat)
  | call_clear.

Definition run (self : t) (c : call) : option t :=
  match c with
  | call_add vector => final_state (add self vector)
  | call_add_batch vectors => final_state (add_batch self vectors)
  | call_search query k => final_state (search self query k)
  | call_set_ef ef => final_state (set_ef self ef)
  | call_clear => final_state (clear self)
  end.

(** The states an index can be in: constructed, then any calls. *)
Inductive reachable : t → Prop :=
  | reachable_new dimensions max_elements M ef_construction :
      reachable (new dimensions max_elements M ef_construction)
  | reachable_run self c self' :
      reachable self → run self c = Some self' → reachable self'.

(** [self.add(v1); self.add(v2); ...] *)
Definition add_all (self : t) (vectors : list (list float)) : option t :=
  foldl (λ self vector, self ← self; final_state (add self vector))
        (Some self) vectors.

(** *** Specification vocabulary *)

(** node [u] has a neighbour list on [layer] *)
Definition on_layer (nodes : list HNSWNode.t) (layer u : nat) : Prop :=
  is_Some (neighbors_at nodes u layer).

(** every id listed on [layer] is a node with a list on [layer] *)
Definition layer_closed (nodes : list HNSWNode.t) (layer : nat) : Prop :=
  ∀ v l u, neighbors_at nodes v layer = Some l → u ∈ l →
           on_layer nodes layer u.

Definition graph_closed (nodes : list HNSWNode.t) : Prop :=
  ∀ layer, layer_closed nodes layer.

(** [c] carries the distance from the query to vector [id c] *)
Definition true_distance (dimensions : nat) (data : list float)
    (query : list float) (c : SearchCandidate.t) : Prop :=
  distance_to_query dimensions data query (SearchCandidate.id c)
  = Some (SearchCandidate.distance c).

(** The loop invariant of [search_layer]; [P] holds of the ids the
    search may come across. *)
Record search_inv (dimensions : nat) (data : list float)
    (query : list float) (ef : nat) (P : nat → Prop)
    (s : search_state) : Prop := {
  inv_visited : ∀ u, u ∈ visited s → P u;
  inv_candidates : ∀ c, c ∈ candidates s →
    SearchCandidate.id c ∈ visited s ∧ true_distance dimensions data query c;
  inv_W : ∀ c, c ∈ W s →
    SearchCandidate.id c ∈ visited s ∧ true_distance dimensions data query c;
  inv_NoDup : NoDup (SearchCandidate.id <$> W s);
  inv_W_nonempty : W s ≠ [];
  inv_W_length : length (W s) ≤ ef `max` 1;
}.

(** [candidates] is a min-heap and [W] a max-heap; they are where the
    distances met are ordered by [<]. *)
Definition heaps `{!StdContracts} (s : search_state) : Prop :=
  is_heap SearchCandidate.gt (candidates s) ∧
  is_heap SearchCandidate.lt (W s).

(** the distances from [query] to the stored vectors *)
Definition distances_to (dimensions : nat) (data : list float)
    (query : list float) (n : nat) : list float :=
  omap (distance_to_query dimensions data query) (seq 0 n).

(** what bounds the remaining passes of the loop *)
Definition search_measure (nodes : list HNSWNode.t) (s : search_state)
    : nat :=
  length (candidates s) + (length nodes - base.size (visited s)).

(** What [search_layer] returns. *)
Record search_result (dimensions : nat) (data : list float)
    (query : list float) (ef : nat) (P : nat → Prop)
    (res : list SearchCandidate.t) : Prop := {
  res_ids : ∀ c, c ∈ res → P (SearchCandidate.id c);
  res_distance : ∀ c, c ∈ res → true_distance dimensions data query c;
  res_NoDup : NoDup (SearchCandidate.id <$> res);
  res_nonempty : res ≠ [];
  res_length : length res ≤ ef `max` 1;
}.

(** how many layers each node has *)
Definition shape (nodes : list HNSWNode.t) : list nat :=
  (λ node, length (HNSWNode.neighbors node)) <$> nodes.

(** [nodes_[id].neighbors[layer] = l] *)
Definition set_neighbors (nodes : list HNSWNode.t) (id layer : nat)
    (l : list nat) : list HNSWNode.t :=
  match nodes !! id with
  | Some node =>
      <[id := HNSWNode.mk (HNSWNode.id node)
                (<[layer := l]> (HNSWNode.neighbors node))]> nodes
  | None => nodes
  end.

Definition max_degree (m m_max layer : nat) : nat :=
  if decide (layer = 0) then m_max else m.

Definition degree_bounded (m m_max : nat) (nodes : list HNSWNode.t)
    : Prop :=
  ∀ v layer l, neighbors_at nodes v layer = Some l →
               length l ≤ max_degree m m_max layer.

(** every id listed on [layer] is below [bound] *)
Definition layer_below (nodes : list HNSWNode.t) (bound layer : nat)
    : Prop :=
  ∀ v l u, neighbors_at nodes v layer = Some l → u ∈ l → u < bound.

(** the ids a search on [layer] may come across: nodes with a list on
    [layer], below [bound] *)
Definition old (nodes : list HNSWNode.t) (bound layer : nat) (u : nat)
    : Prop :=
  on_layer nodes layer u ∧ u < bound.

(** The state of the graph while [add] links node [new_id]: the layers
    still to be linked do not mention [new_id] yet. *)
Record linking (m m_max new_id : nat) (layers : list nat)
    (nodes : list HNSWNode.t) : Prop := {
  linking_length : length nodes = S new_id;
  linking_closed : graph_closed nodes;
  linking_degree : degree_bounded m m_max nodes;
  linking_fresh : ∀ layer, layer ∈ layers →
    layer_below nodes new_id layer ∧
    neighbors_at nodes new_id layer = Some [];
}.

(** What linking [new_id] on layer [lc] does to the other nodes: only
    lists on [lc] change; a changed list gains at most [new_id] and is
    no longer than before unless it fits in [M]. *)
Record relinked (new_id lc M : nat) (nodes nodes' : list HNSWNode.t)
    : Prop := {
  relinked_shape : shape nodes' = shape nodes;
  relinked_other_layer : ∀ v layer,
    layer ≠ lc → neighbors_at nodes' v layer = neighbors_at nodes v layer;
  relinked_layer : ∀ v l',
    v ≠ new_id → neighbors_at nodes' v lc = Some l' →
    ∃ l, neighbors_at nodes v lc = Some l ∧
         (∀ u, u ∈ l' → u ∈ l ∨ u = new_id) ∧
         length l' ≤ length l `max` M;
}.

(** The invariant of the index. *)
Record wf (self : t) : Prop := {
  wf_data : length (data_ self) = num_vectors_ self * dimensions_ self;
  wf_nodes : length (nodes_ self) = num_vectors_ self;
  wf_closed : graph_closed (nodes_ self);
  wf_degree : degree_bounded (M_ self) (M_max_ self) (nodes_ self);
  wf_entry : num_vectors_ self ≠ 0 →
    on_layer (nodes_ self) (max_layer_ self) (entry_point_ self);
  wf_M_max : M_max_ self = N.to_nat ((N.of_nat (M_ self) * 2) `mod` 2 ^ 64);
}.

(** the members no method after the constructor assigns *)
Definition same_config (self self' : t) : Prop :=
  dimensions_ self' = dimensions_ self ∧
  max_elements_ self' = max_elements_ self ∧
  M_ self' = M_ self ∧
  M_max_ self' = M_max_ self ∧
  ef_construction_ self' = ef_construction_ self.

(** the vectors of a batch that [add_batch] stores: those before the
    first one of the wrong length *)
Fixpoint accepted (dimensions : nat) (vectors : list (list float))
    : list (list float) :=
  match vectors with
  | [] => []
  | vec :: rest =>
      if decide (length vec = dimensions)
      then vec :: accepted dimensions rest else []
  end.

(** The vectors held after a call, given those held before it. *)
Definition stored_after (dimensions : nat) (vs : list (list float))
    (c : call) : list (list float) :=
  match c with
  | call_add vector =>
      if decide (length vector = dimensions) then vs ++ [vector] else vs
  | call_add_batch vectors => vs ++ accepted dimensions vectors
  | call_search _ _ | call_set_ef _ => vs
  | call_clear => []
  end.

(** [stores self vs]: [self] is reachable, and [vs] are the vectors it
    holds, by id. *)
Inductive stores : t → list (list float) → Prop :=
  | stores_new dimensions max_elements M ef_construction :
      stores (new dimensions max_elements M ef_construction) []
  | stores_run self vs c self' :
      stores self vs → run self c = Some self' →
      stores self' (stored_after (dimensions_ self) vs c).

Definition arena (self : t) (vs : list (list float)) : Prop :=
  num_vectors_ self = length vs ∧
  data_ self = concat vs ∧
  Forall (λ v, length v = dimensions_ self) vs.
End defs.
End HNSWIndex.


(** ** A reference platform

    [float] restricted to integer values, on which the kernels are exact
    as long as the sums stay below [2^24], and the algorithms of libstdc++:
    [std::sort] as it runs on fewer than 16 elements (insertion sort), the
    heap routines of [bits/stl_heap.h], and [std::partial_sort] built from
    them.  The models move positions of the input instead of its elements,
    and their result is checked against the postcondition before it is
    used. *)

Module libstdcxx.
Section heap.
(** [comp i j]: the comparator on the elements that were at positions
    [i] and [j] of the input *)
Variable comp : nat → nat → bool.

Definition nth_pos (a : list nat) (i : nat) : nat := default 0 (a !! i).

(** [while (holeIndex > topIndex && comp(first + parent, value))] *)
Fixpoint push_heap_loop (fuel : nat) (a : list nat)
    (holeIndex topIndex value : nat) : list nat :=
  let parent := (holeIndex - 1) `div` 2 in
  match fuel with
  | 0 => <[holeIndex := value]> a
  | S fuel =>
      if bool_decide (topIndex < holeIndex) && comp (nth_pos a parent) value
      then push_heap_loop fuel (<[holeIndex := nth_pos a parent]> a)
             parent topIndex value
      else <[holeIndex := value]> a
  end.

Definition __push_heap (a : list nat) (holeIndex topIndex value : nat)
    : list nat :=
  push_heap_loop holeIndex a holeIndex topIndex value.

(** [while (secondChild < (len - 1) / 2)] *)
Fixpoint adjust_heap_loop (fuel : nat) (a : list nat)
    (holeIndex secondChild len : nat) : list nat * nat * nat :=
  match fuel with
  | 0 => (a, holeIndex, secondChild)
  | S fuel =>
      if bool_decide (secondChild < (len - 1) `div` 2) then
        let secondChild := 2 * (secondChild + 1) in
        let secondChild :=
          if comp (nth_pos a secondChild) (nth_pos a (secondChild - 1))
          then secondChild - 1 else secondChild in
        adjust_heap_loop fuel (<[holeIndex := nth_pos a secondChild]> a)
          secondChild secondChild len
      else (a, holeIndex, secondChild)
  end.

Definition __adjust_heap (a : list nat) (holeIndex len value : nat)
    : list nat :=
  let topIndex := holeIndex in
  let '(a, holeIndex, secondChild) :=
    adjust_heap_loop len a holeIndex holeIndex len in
  let '(a, holeIndex) :=
    (* the distances are signed: [(len - 2) / 2] is [-1] for [len = 0] *)
    if bool_decide (len `mod` 2 = 0)
       && bool_decide (Z.of_nat secondChild = ((Z.of_nat len - 2) `quot` 2)%Z)
    then
      let secondChild := 2 * (secondChild + 1) in
      (<[holeIndex := nth_pos a (secondChild - 1)]> a, secondChild - 1)
    else (a, holeIndex) in
  __push_heap a holeIndex topIndex value.

(** [__pop_heap(first, first + len, first + result)] *)
Definition __pop_heap (a : list nat) (len result : nat) : list nat :=
  let value := nth_pos a result in
  let a := <[result := nth_pos a 0]> a in
  __adjust_heap a 0 len value.

(** [while (true) { ...; if (parent == 0) return; parent--; }] *)
Fixpoint make_heap_loop (parent : nat) (a : list nat) (len : nat)
    : list nat :=
  let a := __adjust_heap a parent len (nth_pos a parent) in
  match parent with
  | 0 => a
  | S parent => make_heap_loop parent a len
  end.

Definition __make_heap (a : list nat) (len : nat) : list nat :=
  if bool_decide (len < 2) then a
  else make_heap_loop ((len - 2) `div` 2) a len.

(** [while (last - first > 1) { --last; __pop_heap(first, last, last); }] *)
Fixpoint __sort_heap (a : list nat) (len : nat) : list nat :=
  match len with
  | S (S _ as last) => __sort_heap (__pop_heap a last last) last
  | _ => a
  end.

Definition __heap_select (a : list nat) (middle last : nat) : list nat :=
  let a := __make_heap a middle in
  foldl (λ a i, if comp (nth_pos a i) (nth_pos a 0)
                then __pop_heap a middle i else a)
        a (seq middle (last - middle)).

Definition partial_sort (a : list nat) (middle : nat) : list nat :=
  __sort_heap (__heap_select a middle (length a)) middle.

Definition push_heap (a : list nat) : list nat :=
  let last := length a in
  __push_heap a (last - 1) 0 (nth_pos a (last - 1)).

Definition pop_heap (a : list nat) : list nat :=
  let last := length a in
  if bool_decide (1 < last) then __pop_heap a (last - 1) (last - 1) else a.
End heap.
End libstdcxx.

Module reference.
(** [__unguarded_linear_insert] into a sorted range: [x] goes after the
    elements that are not greater. *)
Fixpoint linear_insert {A} (comp : A → A → bool) (x : A) (l : list A)
    : list A :=
  match l with
  | [] => [x]
  | y :: l' => if comp x y then x :: l else y :: linear_insert comp x l'
  end.

Definition insertion_sort {A} (comp : A → A → bool) (l : list A) : list A :=
  foldl (λ sorted x, linear_insert comp x sorted) [] l.

(** the comparator at two positions of [l] *)
Definition at_positions {A} (comp : A → A → bool) (l : list A)
    (i j : nat) : bool :=
  match l !! i, l !! j with
  | Some x, Some y => comp x y
  | _, _ => false
  end.

(** the elements of [l] in the order [perm] *)
Definition permute {A} (l : list A) (perm : list nat) : list A :=
  omap (λ i, l !! i) perm.

Definition is_permutation (n : nat) (perm : list nat) : bool :=
  bool_decide (insertion_sort Nat.ltb perm = seq 0 n).

(** the postcondition of [partial_sort], as a check *)
Definition ordered_until {A} (comp : A → A → bool) (k : nat) (l : list A)
    : bool :=
  forallb (λ i, forallb (λ j, negb (at_positions comp l j i))
                  (seq (S i) (length l - S i)))
          (seq 0 k).

(** [std::is_heap] *)
Definition is_heap_bool {A} (comp : A → A → bool) (l : list A) : bool :=
  forallb (λ i, negb (at_positions comp l ((i - 1) `div` 2) i))
          (seq 1 (length l - 1)).

Definition swapped {A} (comp : A → A → bool) (a b : A) : bool := comp b a.

Definition partial_sort {A} (comp : A → A → bool) (k : nat) (l : list A)
    : list A :=
  let perm := libstdcxx.partial_sort (at_positions comp l)
                (seq 0 (length l)) k in
  let out := permute l perm in
  if is_permutation (length l) perm && ordered_until comp k out
  then out else insertion_sort comp l.

Definition push_heap {A} (comp : A → A → bool) (l : list A) : list A :=
  let perm := libstdcxx.push_heap (at_positions comp l)
                (seq 0 (length l)) in
  let out := permute l perm in
  if is_permutation (length l) perm && is_heap_bool comp out
  then out else insertion_sort (swapped comp) l.

Definition pop_heap {A} (comp : A → A → bool) (l : list A) : list A :=
  let perm := libstdcxx.pop_heap (at_positions comp l)
                (seq 0 (length l)) in
  let out := permute l perm in
  if is_permutation (length l) perm
     && bool_decide (last perm = Some 0)
     && is_heap_bool comp (take (length l - 1) out)
  then out
  else match l with
       | [] => []
       | x :: l' => insertion_sort (swapped comp) l' ++ [x]
       end.

(** The levels [HNSWIndex::get_random_level] returns with libstdc++ on
    x86-64, for [M] = 1, 2 and 16 (the default), first 32 draws. *)
Definition levels_M1 : list nat :=
  [0;2;0;0;1;3;1;1;2;0;4;0;0;10;0;0;0;7;5;0;1;4;0;2;3;0;1;0;1;0;0;1].
Definition levels_M2 : list nat :=
  [0;1;0;0;0;1;0;0;1;0;2;0;0;5;0;0;0;3;2;0;0;2;0;1;1;0;0;0;0;0;0;0].
Definition levels_M16 : list nat :=
  [0;0;0;0;0;0;0;0;0;0;0;0;0;2;0;0;0;1;1;0;0;0;0;0;0;0;0;0;0;0;0;0].

Definition levels (M n : nat) : nat :=
  match M with
  | 1 => default 0 (levels_M1 !! n)
  | 2 => default 0 (levels_M2 !! n)
  | 16 => default 0 (levels_M16 !! n)
  | _ => 0
  end.

Definition platform (simd : SimdPath) : Platform :=
  {| float := Z;
     float_zero := 0%Z;
     float_add := Z.add;
     float_sub := Z.sub;
     float_mul := Z.mul;
     float_lt := Z.ltb;
     simd_path := simd;
     std_partial_sort := @partial_sort;
     std_sort := @insertion_sort;
     std_push_heap := @push_heap;
     std_pop_heap := @pop_heap;
     level_sequence := levels |}.
End reference.

(** ** A platform with NaN

    [float] as the integers and one NaN: an operation on NaN gives NaN
    and every comparison with NaN is false.  The algorithms are those of
    libstdc++ again, with [std::sort] as [__insertion_sort] runs it on
    fewer than 16 elements.  Their result is used as it is where the
    standard promises nothing about its order, that is, where the
    comparison is not a strict weak ordering on the elements or the range
    given to a heap routine is not a heap; elsewhere it is checked against
    the postcondition first. *)

Module nan.
Import reference.

Inductive fl := NaN | num (z : Z).

(** [+], [-] and [*] *)
Definition lift (f : Z → Z → Z) (a b : fl) : fl :=
  match a, b with
  | num x, num y => num (f x y)
  | _, _ => NaN
  end.

(** [<] *)
Definition lt (a b : fl) : bool :=
  match a, b with
  | num x, num y => (x <? y)%Z
  | _, _ => false
  end.

(** [strict_weak_order], as a check *)
Definition swo_bool {A} (comp : A → A → bool) (l : list A) : bool :=
  forallb (λ x, negb (comp x x)) l &&
  forallb (λ x, forallb (λ y, forallb (λ z,
    implb (comp x y && comp y z) (comp x z) &&
    implb (negb (comp x y) && negb (comp y z)) (negb (comp x z))) l) l) l.

(** [__unguarded_linear_insert(last)]: [val] moves towards the front past
    the elements it is less than; [before] is the range in front of it,
    nearest element first. *)
Fixpoint unguarded_linear_insert {A} (comp : A → A → bool) (val : A)
    (before : list A) : list A :=
  match before with
  | [] => [val]
  | next :: rest =>
      if comp val next then next :: unguarded_linear_insert comp val rest
      else val :: before
  end.

(** the body of the loop of [__insertion_sort]:
    [if (comp(i, first)) { move_backward(first, i, i + 1); *first = val; }
     else __unguarded_linear_insert(i)] *)
Definition insertion_step {A} (comp : A → A → bool) (sorted : list A)
    (val : A) : list A :=
  match sorted with
  | [] => [val]
  | first :: _ =>
      if comp val first then val :: sorted
      else reverse (unguarded_linear_insert comp val (reverse sorted))
  end.

Definition __insertion_sort {A} (comp : A → A → bool) (l : list A)
    : list A :=
  foldl (insertion_step comp) [] l.

Definition sort {A} (comp : A → A → bool) (l : list A) : list A :=
  let out := __insertion_sort comp l in
  if ordered_until comp (length out) out || negb (swo_bool comp l)
  then out else insertion_sort comp l.

Definition partial_sort {A} (comp : A → A → bool) (k : nat) (l : list A)
    : list A :=
  let perm := libstdcxx.partial_sort (at_positions comp l)
                (seq 0 (length l)) k in
  let out := permute l perm in
  if is_permutation (length l) perm
     && (ordered_until comp k out || negb (swo_bool comp l))
  then out else insertion_sort comp l.

Definition push_heap {A} (comp : A → A → bool) (l : list A) : list A :=
  let perm := libstdcxx.push_heap (at_positions comp l)
                (seq 0 (length l)) in
  let out := permute l perm in
  if is_permutation (length l) perm
     && (is_heap_bool comp out
         || negb (swo_bool comp l)
         || negb (is_heap_bool comp (take (length l - 1) l)))
  then out else insertion_sort (swapped comp) l.

Definition pop_heap {A} (comp : A → A → bool) (l : list A) : list A :=
  let perm := libstdcxx.pop_heap (at_positions comp l)
                (seq 0 (length l)) in
  let out := permute l perm in
  if is_permutation (length l) perm
     && bool_decide (last perm = Some 0)
     && (is_heap_bool comp (take (length l - 1) out)
         || negb (swo_bool comp l)
         || negb (is_heap_bool comp l))
  then out
  else match l with
       | [] => []
       | x :: l' => insertion_sort (swapped comp) l' ++ [x]
       end.

Definition platform (simd : SimdPath) : Platform :=
  {| float := fl;
     float_zero := num 0;
     float_add := lift Z.add;
     float_sub := lift Z.sub;
     float_mul := lift Z.mul;
     float_lt := lt;
     simd_path := simd;
     std_partial_sort := @partial_sort;
     std_sort := @sort;
     std_push_heap := @push_heap;
     std_pop_heap := @pop_heap;
     level_sequence := levels |}.
End nan.


(** ** Example indexes, on the reference platform without SIMD *)

Module examples.
#[local] Instance P : Platform := reference.platform SCALAR.

(** Three one-dimensional vectors at distances 1, 0, 0 from the query
    [[0]]. *)
Definition three_vectors : list (list float) := [[1]; [0]; [0]]%Z.

Definition brute_force : VectorBatchInserter.t :=
  {| VectorBatchInserter.dimensions_ := 1;
     VectorBatchInserter.num_vectors_ := 3;
     VectorBatchInserter.data_ := [1; 0; 0]%Z |}.

(** [HNSWIndex(1, 10, 1, 200)]: one dimension, [M = 1] *)
Definition hnsw_empty : HNSWIndex.t := HNSWIndex.new 1 10 1 200.

(** Four vectors on a line; the levels drawn for them are 0, 2, 0, 0. *)
Definition four_vectors : list (list float) := [[0]; [1]; [3]; [10]]%Z.

(** The index after [add_batch(four_vectors)]: node 3 lists nodes 2 and
    1 on layer 0, and no node lists node 3. *)
Definition hnsw_four : HNSWIndex.t :=
  {| HNSWIndex.dimensions_ := 1;
     HNSWIndex.max_elements_ := 10;
     HNSWIndex.num_vectors_ := 4;
     HNSWIndex.M_ := 1;
     HNSWIndex.M_max_ := 2;
     HNSWIndex.ef_construction_ := 200;
     HNSWIndex.ef_search_ := 100;
     HNSWIndex.data_ := [0; 1; 3; 10]%Z;
     HNSWIndex.nodes_ :=
       [HNSWNode.mk 0 [[1; 2]];
        HNSWNode.mk 1 [[0; 2]; []; []];
        HNSWNode.mk 2 [[1; 0]; []; []];
        HNSWNode.mk 3 [[2; 1]; []; []]];
     HNSWIndex.entry_point_ := 1;
     HNSWIndex.max_layer_ := 2;
     HNSWIndex.rng_ := 4 |}.

(** The index after one more [add([7])], at level 1. *)
Definition hnsw_five : HNSWIndex.t :=
  {| HNSWIndex.dimensions_ := 1;
     HNSWIndex.max_elements_ := 10;
     HNSWIndex.num_vectors_ := 5;
     HNSWIndex.M_ := 1;
     HNSWIndex.M_max_ := 2;
     HNSWIndex.ef_construction_ := 200;
     HNSWIndex.ef_search_ := 100;
     HNSWIndex.data_ := [0; 1; 3; 10; 7]%Z;
     HNSWIndex.nodes_ :=
       [HNSWNode.mk 0 [[1; 2]];
        HNSWNode.mk 1 [[0; 2]; [4]; []];
        HNSWNode.mk 2 [[1; 0]; []; []];
        HNSWNode.mk 3 [[2; 1]; []; []];
        HNSWNode.mk 4 [[2; 1]; [1]; []]];
     HNSWIndex.entry_point_ := 1;
     HNSWIndex.max_layer_ := 2;
     HNSWIndex.rng_ := 5 |}.

(** Two vectors; the first two levels drawn are 0 and 2, the next two 0
    and 0. *)
Definition two_vectors : list (list float) := [[0]; [1]]%Z.

(** [add_batch(two_vectors)] on the new index *)
Definition hnsw_two_fresh : HNSWIndex.t :=
  {| HNSWIndex.dimensions_ := 1;
     HNSWIndex.max_elements_ := 10;
     HNSWIndex.num_vectors_ := 2;
     HNSWIndex.M_ := 1;
     HNSWIndex.M_max_ := 2;
     HNSWIndex.ef_construction_ := 200;
     HNSWIndex.ef_search_ := 100;
     HNSWIndex.data_ := [0; 1]%Z;
     HNSWIndex.nodes_ :=
       [HNSWNode.mk 0 [[1]]; HNSWNode.mk 1 [[0]; []; []]];
     HNSWIndex.entry_point_ := 1;
     HNSWIndex.max_layer_ := 2;
     HNSWIndex.rng_ := 2 |}.

(** [clear()] on it *)
Definition hnsw_two_cleared : HNSWIndex.t :=
  {| HNSWIndex.dimensions_ := 1;
     HNSWIndex.max_elements_ := 10;
     HNSWIndex.num_vectors_ := 0;
     HNSWIndex.M_ := 1;
     HNSWIndex.M_max_ := 2;
     HNSWIndex.ef_construction_ := 200;
     HNSWIndex.ef_search_ := 100;
     HNSWIndex.data_ := [];
     HNSWIndex.nodes_ := [];
     HNSWIndex.entry_point_ := 0;
     HNSWIndex.max_layer_ := 0;
     HNSWIndex.rng_ := 2 |}.

(** [add_batch(two_vectors)] again *)
Definition hnsw_two_rebuilt : HNSWIndex.t :=
  {| HNSWIndex.dimensions_ := 1;
     HNSWIndex.max_elements_ := 10;
     HNSWIndex.num_vectors_ := 2;
     HNSWIndex.M_ := 1;
     HNSWIndex.M_max_ := 2;
     HNSWIndex.ef_construction_ := 200;
     HNSWIndex.ef_search_ := 100;
     HNSWIndex.data_ := [0; 1]%Z;
     HNSWIndex.nodes_ := [HNSWNode.mk 0 [[1]]; HNSWNode.mk 1 [[0]]];
     HNSWIndex.entry_point_ := 0;
     HNSWIndex.max_layer_ := 0;
     HNSWIndex.rng_ := 4 |}.

(** [VectorBatchInserter(0)] after [add([])]: one vector of no elements,
    in an arena that is still empty. *)
Definition brute_force_dim0 : VectorBatchInserter.t :=
  {| VectorBatchInserter.dimensions_ := 0;
     VectorBatchInserter.num_vectors_ := 1;
     VectorBatchInserter.data_ := [] |}.

(** [HNSWIndex(0, 10, 1, 200)] *)
Definition hnsw_dim0_empty : HNSWIndex.t := HNSWIndex.new 0 10 1 200.

(** The index after [add([])]: one node, and an arena that is still
    empty. *)
Definition hnsw_dim0 : HNSWIndex.t :=
  {| HNSWIndex.dimensions_ := 0;
     HNSWIndex.max_elements_ := 10;
     HNSWIndex.num_vectors_ := 1;
     HNSWIndex.M_ := 1;
     HNSWIndex.M_max_ := 2;
     HNSWIndex.ef_construction_ := 200;
     HNSWIndex.ef_search_ := 100;
     HNSWIndex.data_ := [];
     HNSWIndex.nodes_ := [HNSWNode.mk 0 [[]]];
     HNSWIndex.entry_point_ := 0;
     HNSWIndex.max_layer_ := 0;
     HNSWIndex.rng_ := 1 |}.
End examples.

(** ** Sums in exact arithmetic

    What the kernels add up, for the properties that hold when [float]
    addition is associative and commutative. *)
Section sums.
Context `{Platform}.

Definition total (l : list float) : float := foldr float_add float_zero l.

(** [(a[i] - b[i])^2] *)
Definition l2_term (a b : list float) (i : nat) : float :=
  let diff := float_sub (at_ptr a i) (at_ptr b i) in float_mul diff diff.

(** [a[i] * b[i]] *)
Definition dot_term (a b : list float) (i : nat) : float :=
  float_mul (at_ptr a i) (at_ptr b i).

(** the lane accumulators after [n] vector steps that add [t i] for the
    element at index [i] *)
Definition lane_blocks (t : nat → float) (lanes n : nat) : list float :=
  foldl (λ sum blk, imap (λ j s, float_add s (t (blk * lanes + j))) sum)
        (replicate lanes float_zero) (seq 0 n).

(** [(dot_product, norm_a, norm_b)] with the two norms exchanged *)
Definition swap_norms {A} (s : A * A * A) : A * A * A :=
  let '(dot, na, nb) := s in (dot, nb, na).
End sums.

(** ** The cosine kernel

    [cosine_similarity_simd] of [vector_ops.cpp].  No index calls it; it
    needs [std::sqrt] and a division, which are kept apart from
    [Platform]. *)
Class PlatformMath `{Platform} := {
  float_sqrt : float → float;
  float_div : float → float → float;
}.

Section cosine.
Context `{PlatformMath}.

(** [dot_product += a[i] * b[i]; norm_a += a[i] * a[i];
    norm_b += b[i] * b[i];] for [i] from [from] up to [dimensions];
    the accumulators are [(dot_product, norm_a, norm_b)]. *)
Definition cosine_scalar_loop (a b : list float) (from dimensions : nat)
    (acc : float * float * float) : float * float * float :=
  foldl (λ '(dot_product, norm_a, norm_b) i,
           (float_add dot_product (float_mul (at_ptr a i) (at_ptr b i)),
            float_add norm_a (float_mul (at_ptr a i) (at_ptr a i)),
            float_add norm_b (float_mul (at_ptr b i) (at_ptr b i))))
        acc (seq from (dimensions - from)).

(** One vector step: [dot_sum += va * vb; norm_a_sum += va * va;
    norm_b_sum += vb * vb], lane by lane. *)
Definition cosine_lane_step (a b : list float) (i : nat)
    (sums : list float * list float * list float)
    : list float * list float * list float :=
  let '(dot_sum, norm_a_sum, norm_b_sum) := sums in
  (imap (λ j s, f32_mla s (at_ptr a (i + j)) (at_ptr b (i + j))) dot_sum,
   imap (λ j s, f32_mla s (at_ptr a (i + j)) (at_ptr a (i + j))) norm_a_sum,
   imap (λ j s, f32_mla s (at_ptr b (i + j)) (at_ptr b (i + j))) norm_b_sum).

Definition cosine_lane_loop (lanes : nat) (a b : list float)
    (simd_size : nat) : list float * list float * list float :=
  foldl (λ sums blk, cosine_lane_step a b (blk * lanes) sums)
        (replicate lanes float_zero, replicate lanes float_zero,
         replicate lanes float_zero)
        (seq 0 (simd_size `div` lanes)).

(** [for (i = 0; i < lanes; ++i) { dot_product += temp_dot[i]; ... }],
    from [0.0f]. *)
Definition cosine_horizontal_sum
    (temp : list float * list float * list float) : float * float * float :=
  let '(temp_dot, temp_a, temp_b) := temp in
  (foldl float_add float_zero temp_dot, foldl float_add float_zero temp_a,
   foldl float_add float_zero temp_b).

Definition cosine_sums_lanes (lanes : nat) (a b : list float)
    (dimensions : nat) : float * float * float :=
  let simd_size := dimensions - dimensions `mod` lanes in
  cosine_scalar_loop a b simd_size dimensions
    (cosine_horizontal_sum (cosine_lane_loop lanes a b simd_size)).

Definition cosine_sums (a b : list float) (dimensions : nat)
    : float * float * float :=
  match simd_path with
  | ARM_NEON => cosine_sums_lanes 4 a b dimensions
  | AVX2 => cosine_sums_lanes 8 a b dimensions
  | SCALAR =>
      cosine_scalar_loop a b 0 dimensions (float_zero, float_zero, float_zero)
  end.

(** [return dot_product / (std::sqrt(norm_a) * std::sqrt(norm_b));] *)
Definition cosine_similarity_simd (a b : list float) (dimensions : nat)
    : float :=
  let '(dot_product, norm_a, norm_b) := cosine_sums a b dimensions in
  float_div dot_product (float_mul (float_sqrt norm_a) (float_sqrt norm_b)).
End cosine.

(** ** Callers

    What a caller of the bound methods writes. *)
Module Callers.
Section defs.
Context `{Platform}.

(** [for vec in vectors: inserter.add(vec)]; an exception leaves the
    loop. *)
Fixpoint add_each (self : VectorBatchInserter.t)
    (vectors : list (list float)) : outcome VectorBatchInserter.t () :=
  match vectors with
  | [] => Return self ()
  | vec :: rest =>
      match VectorBatchInserter.add self vec with
      | Return self _ => add_each self rest
      | Raise self e => Raise self e
      | Undefined => Undefined
      end
  end.
End defs.
End Callers.

(** ** The wiring of the graph

    Vocabulary for what [HNSWIndex::add] does to the neighbour lists and
    for what [search_layer] finds along them. *)
Module Wiring.
Import HNSWIndex.

(** every node's [id] is its position in [nodes_] *)
Definition ids_in_order (nodes : list HNSWNode.t) : Prop :=
  ∀ i node, nodes !! i = Some node → HNSWNode.id node = i.

(** [v] lists [u] on [layer] *)
Definition edge (nodes : list HNSWNode.t) (layer v u : nat) : Prop :=
  ∃ l, neighbors_at nodes v layer = Some l ∧ u ∈ l.

(** [v] lists [u] on some layer *)
Definition linked (nodes : list HNSWNode.t) (v u : nat) : Prop :=
  ∃ layer, edge nodes layer v u.

(** [W] holds a candidate that is not farther than [x] *)
Definition keeps_best `{Platform} (x : float)
    (W : list SearchCandidate.t) : Prop :=
  ∃ c, c ∈ W ∧ float_lt x (SearchCandidate.distance c) = false.

(** no neighbour list holds an id twice or the id of its own node *)
Definition simple_lists (nodes : list HNSWNode.t) : Prop :=
  ∀ v layer l, neighbors_at nodes v layer = Some l → NoDup l ∧ v ∉ l.

(** An empty index has [max_layer_] and [entry_point_] 0; every node has
    at least one layer and at most [max_layer_ + 1]; the entry point has
    [max_layer_ + 1]. *)
Definition levels_ok `{Platform} (self : t) : Prop :=
  (num_vectors_ self = 0 → max_layer_ self = 0 ∧ entry_point_ self = 0) ∧
  (∀ i k, shape (nodes_ self) !! i = Some k → 1 ≤ k ≤ max_layer_ self + 1) ∧
  (num_vectors_ self ≠ 0 →
   shape (nodes_ self) !! entry_point_ self = Some (max_layer_ self + 1)).

(** What linking node [new_id] on [layers] has made of the graph
    [nodes]; [M layer] is the bound used on [layer].  Ids and layer
    counts stay; only lists on [layers] change; the list of [new_id]
    holds distinct older ids; and the list [l] of an older node [v] is
    kept unless [new_id] lists [v], when [new_id] is appended and the list
    is cut to [M layer] entries if it was full. *)
Record rewired (new_id : nat) (M : nat → nat) (layers : list nat)
    (nodes nodes' : list HNSWNode.t) : Prop := {
  rewired_ids : HNSWNode.id <$> nodes' = HNSWNode.id <$> nodes;
  rewired_shape : shape nodes' = shape nodes;
  rewired_other_layer : ∀ v layer, layer ∉ layers →
    neighbors_at nodes' v layer = neighbors_at nodes v layer;
  rewired_new : ∀ layer l_new, layer ∈ layers →
    neighbors_at nodes' new_id layer = Some l_new →
    NoDup l_new ∧ ∀ u, u ∈ l_new → u < new_id;
  rewired_old : ∀ v layer l l_new, layer ∈ layers → v ≠ new_id →
    neighbors_at nodes v layer = Some l →
    neighbors_at nodes' new_id layer = Some l_new →
    ∃ l', neighbors_at nodes' v layer = Some l' ∧
          if decide (v ∈ l_new)
          then l' ⊆+ l ++ [new_id] ∧
               (l' = l ++ [new_id] ∨
                length l' = M layer ∧ M layer ≤ length l)
          else l' = l;
}.
End Wiring.

(** ** More examples, on the reference platform *)
Module more_examples.
#[local] Existing Instance examples.P.

(** the AVX2 path: eight lanes and a scalar tail *)
Definition avx2 : Platform := reference.platform AVX2.

(** Integer square root and quotient, to run the cosine kernel on
    integers; they agree with [std::sqrt] and [/] where those are exact. *)
Definition integer_math : @PlatformMath avx2 :=
  {| float_sqrt := Z.sqrt : @float avx2 → @float avx2;
     float_div := Z.div : @float avx2 → @float avx2 → @float avx2 |}.

(** two vectors of nine elements: one vector step and one scalar step *)
Definition nine_a : list Z := [1; 2; 3; 4; 5; 6; 7; 8; 9]%Z.
Definition nine_b : list Z := [9; 8; 7; 6; 5; 4; 3; 2; 1]%Z.

(** Node 0 lists nodes 1, 3 and 2, at distances 1, 100 and 9, on layer
    0 of a graph over the vectors 0, 1, 3, 10. *)
Definition three_neighbours : list HNSWNode.t :=
  [HNSWNode.mk 0 [[1; 3; 2]]; HNSWNode.mk 1 [[]];
   HNSWNode.mk 2 [[]]; HNSWNode.mk 3 [[]]].

(** [HNSWIndex(1, 1, 1, 200)]: room reserved for one vector *)
Definition hnsw_small : HNSWIndex.t := HNSWIndex.new 1 1 1 200.

(** [set_ef(7)] on [examples.hnsw_four] and on [examples.hnsw_five] *)
Definition hnsw_four_ef7 : HNSWIndex.t :=
  {| HNSWIndex.dimensions_ := 1;
     HNSWIndex.max_elements_ := 10;
     HNSWIndex.num_vectors_ := 4;
     HNSWIndex.M_ := 1;
     HNSWIndex.M_max_ := 2;
     HNSWIndex.ef_construction_ := 200;
     HNSWIndex.ef_search_ := 7;
     HNSWIndex.data_ := [0; 1; 3; 10]%Z;
     HNSWIndex.nodes_ := HNSWIndex.nodes_ examples.hnsw_four;
     HNSWIndex.entry_point_ := 1;
     HNSWIndex.max_layer_ := 2;
     HNSWIndex.rng_ := 4 |}.

(** [HNSWIndex(1, 10, 0, 200)] after [add_batch(examples.two_vectors)]:
    with [M = 0] the two nodes are not linked. *)
Definition hnsw_M0 : HNSWIndex.t :=
  {| HNSWIndex.dimensions_ := 1;
     HNSWIndex.max_elements_ := 10;
     HNSWIndex.num_vectors_ := 2;
     HNSWIndex.M_ := 0;
     HNSWIndex.M_max_ := 0;
     HNSWIndex.ef_construction_ := 200;
     HNSWIndex.ef_search_ := 100;
     HNSWIndex.data_ := [0; 1]%Z;
     HNSWIndex.nodes_ := [HNSWNode.mk 0 [[]]; HNSWNode.mk 1 [[]]];
     HNSWIndex.entry_point_ := 0;
     HNSWIndex.max_layer_ := 0;
     HNSWIndex.rng_ := 2 |}.
End more_examples.

(** ** Examples with NaN

    One-dimensional vectors again; the distance from a query to the
    vector [[NaN]] is NaN. *)
Module nan_examples.
Import nan.
#[local] Instance P : Platform := nan.platform SCALAR.

(** Four vectors at distances 25, NaN, 1 and 0 from the query [[0]]. *)
Definition four_vectors : list (list float) :=
  [[num 5]; [NaN]; [num 1]; [num 0]].

(** [VectorBatchInserter(1)] after [add_batch(four_vectors)] *)
Definition brute_force : VectorBatchInserter.t :=
  {| VectorBatchInserter.dimensions_ := 1;
     VectorBatchInserter.num_vectors_ := 4;
     VectorBatchInserter.data_ := [num 5; NaN; num 1; num 0] |}.

(** Five vectors at distances 1, NaN, 25, 49 and 9 from the query
    [[0]]. *)
Definition five_vectors : list (list float) :=
  [[num 1]; [NaN]; [num 5]; [num 7]; [num 3]].

(** [HNSWIndex(1, 10, 16, 200)] after [add_batch(five_vectors)]: every
    level drawn is 0, and every node lists the four others. *)
Definition hnsw_five : HNSWIndex.t :=
  {| HNSWIndex.dimensions_ := 1;
     HNSWIndex.max_elements_ := 10;
     HNSWIndex.num_vectors_ := 5;
     HNSWIndex.M_ := 16;
     HNSWIndex.M_max_ := 32;
     HNSWIndex.ef_construction_ := 200;
     HNSWIndex.ef_search_ := 100;
     HNSWIndex.data_ := [num 1; NaN; num 5; num 7; num 3];
     HNSWIndex.nodes_ :=
       [HNSWNode.mk 0 [[1; 2; 3; 4]];
        HNSWNode.mk 1 [[0; 2; 3; 4]];
        HNSWNode.mk 2 [[1; 0; 3; 4]];
        HNSWNode.mk 3 [[2; 1; 0; 4]];
        HNSWNode.mk 4 [[2; 1; 3; 0]]];
     HNSWIndex.entry_point_ := 0;
     HNSWIndex.max_layer_ := 0;
     HNSWIndex.rng_ := 5 |}.

(** Node 0 lists nodes 1 to 4 on layer 0 of a graph over the vectors 0,
    1, 5, NaN, 3: they are at distances 1, 25, NaN and 9 from it. *)
Definition nan_arena : list float := [num 0; num 1; num 5; NaN; num 3].
Definition four_neighbours : list HNSWNode.t :=
  [HNSWNode.mk 0 [[1; 2; 3; 4]]; HNSWNode.mk 1 [[]]; HNSWNode.mk 2 [[]];
   HNSWNode.mk 3 [[]]; HNSWNode.mk 4 [[]]].
End nan_examples.

(** * Properties *)


Lemma float_order_by_second `{Platform} :
  float_order VectorBatchInserter.by_second.
Proof. exists snd. by left. Qed.

Lemma float_order_lt `{Platform} : float_order SearchCandidate.lt.
Proof. exists SearchCandidate.distance. by left. Qed.

Lemma float_order_gt `{Platform} : float_order SearchCandidate.gt.
Proof. exists SearchCandidate.distance. by right. Qed.

#[global] Hint Resolve float_order_by_second float_order_lt float_order_gt
  : core.

(** A comparison by [<] or by [>] on keys is a strict weak ordering on
    elements whose keys [<] orders. *)
Lemma strict_weak_order_lt `{Platform} `{!StdContracts} {A}
    (key : A → float) (comp : A → A → bool) (l : list A) :
  (∀ a b, comp a b = float_lt (key a) (key b)) →
  ordered_floats (key <$> l) → strict_weak_order comp l.
Proof.
  intros Hcomp Hfloats. split_and!.
  - intros x _. rewrite Hcomp. apply float_lt_irrefl.
  - intros x y z _ _ _. rewrite !Hcomp. apply float_lt_trans.
  - intros x y z Hx Hy Hz. rewrite !Hcomp.
    apply Hfloats; by apply list_elem_of_fmap_2.
Qed.

Lemma strict_weak_order_gt `{Platform} `{!StdContracts} {A}
    (key : A → float) (comp : A → A → bool) (l : list A) :
  (∀ a b, comp a b = float_lt (key b) (key a)) →
  ordered_floats (key <$> l) → strict_weak_order comp l.
Proof.
  intros Hcomp Hfloats. split_and!.
  - intros x _. rewrite Hcomp. apply float_lt_irrefl.
  - intros x y z _ _ _. rewrite !Hcomp. intros Hxy Hyz.
    by apply (float_lt_trans _ (key y)).
  - intros x y z Hx Hy Hz. rewrite !Hcomp. intros Hxy Hyz.
    apply (Hfloats (key z) (key y) (key x));
      by try apply list_elem_of_fmap_2.
Qed.

Lemma ordered_floats_subseteq `{Platform} (ds ds' : list float) :
  (∀ x, x ∈ ds → x ∈ ds') → ordered_floats ds' → ordered_floats ds.
Proof. intros Hsub Hds' x y z Hx Hy Hz. apply Hds'; by apply Hsub. Qed.

Lemma foldl_app_concat {A} (vs : list (list A)) (d : list A) :
  foldl (λ data vec, data ++ vec) d vs = d ++ concat vs.
Proof.
  revert d. induction vs as [|v vs IH]; intros d; simpl.
  - by rewrite app_nil_r.
  - by rewrite IH, app_assoc.
Qed.

Lemma length_concat_uniform {A} (vs : list (list A)) (n : nat) :
  Forall (λ v, length v = n) vs → length (concat vs) = length vs * n.
Proof.
  induction 1 as [|v vs Hv _ IH]; simpl; [done|].
  rewrite length_app. lia.
Qed.

(** Row [i] of the concatenation of vectors of length [n] is the [i]-th
    vector. *)
Lemma row_concat_uniform {A} (vs : list (list A)) (n i : nat) (v : list A) :
  Forall (λ v, length v = n) vs → vs !! i = Some v →
  take n (drop (i * n) (concat vs)) = v.
Proof.
  intros Hall. revert i. induction Hall as [|w vs Hw _ IH]; intros i Hi.
  - done.
  - destruct i as [|i]; simpl in *.
    + simplify_eq. by apply take_app_length'.
    + rewrite drop_app_add'; [|done]. by apply IH.
Qed.

Module BruteForce.
Import VectorBatchInserter.
Section proofs.
Context `{Platform}.

Lemma stores_arena_bf self vs : stores self vs → arena self vs.
Proof.
  induction 1 as [d|self vs c self' _ (Hn & Hd & Hall) Hrun].
  - by split_and!.
  - destruct c as [v|vecs|q k|]; simpl in *.
    + unfold add in Hrun. repeat case_decide; simplify_eq/=; [done|..]; try done.
      split_and!; simpl.
      * rewrite length_app. simpl. lia.
      * by rewrite concat_app, Hd; simpl; rewrite app_nil_r.
      * apply Forall_app; split; [done|]. by constructor.
    + unfold add_batch in Hrun.
      destruct (decide (Exists _ _)) as [Hex|Hex]; simplify_eq/=.
      * rewrite decide_False; [done|].
        intros Hf. apply Exists_exists in Hex as (x & Hx & Hne).
        rewrite Forall_forall in Hf. by apply Hne, Hf.
      * apply not_Exists_Forall in Hex; [|solve_decision].
        assert (Forall (λ vec, length vec = dimensions_ self) vecs) as Hf.
        { eapply Forall_impl; [done|]. simpl. intros x Hx.
          by destruct (decide (length x = dimensions_ self)). }
        rewrite decide_True by done. split_and!; simpl.
        -- rewrite length_app. lia.
        -- by rewrite foldl_app_concat, concat_app, Hd.
        -- by apply Forall_app.
    + unfold search in Hrun. repeat case_decide; simplify_eq/=; try done.
      destruct (all_distances _ _); by simplify_eq/=.
    + simplify_eq/=. by split_and!.
Qed.

Lemma reachable_stores_bf self : reachable self → ∃ vs, stores self vs.
Proof.
  induction 1 as [d|self c self' _ [vs IH] Hrun].
  - eexists. constructor.
  - eexists. by econstructor.
Qed.

Lemma stores_reachable_bf self vs : stores self vs → reachable self.
Proof. induction 1; by econstructor. Qed.


Lemma mapM_total {A B} (f : A → option B) (g : A → B) (l : list A) :
  (∀ x, x ∈ l → f x = Some (g x)) → mapM f l = Some (g <$> l).
Proof.
  intros Hf. apply mapM_Some_2, Forall2_fmap_r, Forall_Forall2_diag.
  by apply Forall_forall.
Qed.

Lemma all_distances_arena self vs query :
  arena self vs → dimensions_ self ≠ 0 →
  all_distances self query =
    Some ((λ i, (i, query_distance self query i)) <$> seq 0 (num_vectors_ self)).
Proof.
  intros (Hn & Hd & Hall) Hdim. apply mapM_total. intros i Hi.
  apply elem_of_seq in Hi. unfold row_ptr.
  rewrite decide_True; [done|].
  rewrite Hd, (length_concat_uniform _ (dimensions_ self)) by done.
  rewrite <-Hn. nia.
Qed.

(** With [dimensions_] 0 the first row is not an element of the empty
    [data_]. *)
Lemma all_distances_dimensions self vs query ds :
  arena self vs → num_vectors_ self ≠ 0 →
  all_distances self query = Some ds → dimensions_ self ≠ 0.
Proof.
  intros (Hn & Hd & Hall) Hnz Hds Hdim. unfold all_distances in Hds.
  destruct (num_vectors_ self) as [|n] eqn:Hnum; [done|].
  apply mapM_Some in Hds. cbn [seq] in Hds.
  apply Forall2_cons_inv_l in Hds as (p & ds' & Hp & _ & _).
  unfold row_ptr in Hp. case_decide as Hrow; [|done].
  rewrite Hd, (length_concat_uniform _ (dimensions_ self)) in Hrow by done.
  rewrite Hdim in Hrow. lia.
Qed.

Lemma partial_sort_members `{!StdContracts} (dist : nat → float)
    (n k : nat) :
  k ≤ n →
  let res :=
    take k (std_partial_sort by_second k ((λ i, (i, dist i)) <$> seq 0 n)) in
  length res = k ∧
  (∀ p, p ∈ res → p.1 < n ∧ p.2 = dist p.1) ∧
  NoDup res.*1.
Proof.
  intros Hk. set (ds := (λ i, (i, dist i)) <$> seq 0 n).
  assert (length ds = n) as Hlen by (unfold ds; by rewrite length_fmap, length_seq).
  pose proof (partial_sort_perm _ by_second k ds float_order_by_second)
    as Hperm.
  set (out := std_partial_sort by_second k ds) in *.
  specialize (Hperm ltac:(lia)).
  assert (length out = n) as Hlen' by by rewrite Hperm.
  assert (∀ p, p ∈ out → p.1 < n ∧ p.2 = dist p.1) as Hmem.
  { intros p Hp. rewrite Hperm in Hp. unfold ds in Hp.
    apply list_elem_of_fmap in Hp as (i & -> & Hi).
    apply elem_of_seq in Hi. simpl. split; [lia|done]. }
  assert (NoDup out.*1) as Hnd.
  { rewrite Hperm. unfold ds. rewrite <-list_fmap_compose.
    rewrite (list_fmap_ext _ id (seq 0 n)) by done.
    rewrite list_fmap_id. apply NoDup_seq. }
  cbv zeta. split_and!.
  - rewrite length_take. lia.
  - intros p Hp. apply Hmem. apply elem_of_take in Hp as (i & Hi & _).
    by eapply list_elem_of_lookup_2.
  - rewrite fmap_take. eapply sublist_NoDup; [done|apply sublist_take].
Qed.

Lemma partial_sort_top_k `{!StdContracts} (dist : nat → float) (n k : nat) :
  k ≤ n → ordered_floats (dist <$> seq 0 n) →
  top_k dist n k
    (take k (std_partial_sort by_second k ((λ i, (i, dist i)) <$> seq 0 n))).
Proof.
  intros Hk Hfloats.
  destruct (partial_sort_members dist n k Hk) as (Hlen0 & Hmem0 & Hnd0).
  set (ds := (λ i, (i, dist i)) <$> seq 0 n) in *.
  assert (length ds = n) as Hlen by (unfold ds; by rewrite length_fmap, length_seq).
  destruct (partial_sort_spec _ by_second k ds) as [Hperm Hord];
    [done|lia| |].
  { apply (strict_weak_order_lt snd); [done|].
    unfold ds. rewrite <-list_fmap_compose. done. }
  set (out := std_partial_sort by_second k ds) in *.
  split_and!.
  - lia.
  - done.
  - done.
  - intros i j x y Hij Hx Hy.
    apply lookup_take_Some in Hx as [Hx ?], Hy as [Hy ?].
    by eapply (Hord i j).
  - intros p i Hp Hi Hni.
    assert ((i, dist i) ∈ out) as Hin.
    { rewrite Hperm. unfold ds. apply list_elem_of_fmap.
      exists i. split; [done|]. apply elem_of_seq. lia. }
    apply list_elem_of_lookup in Hin as [j Hj].
    apply list_elem_of_lookup in Hp as [i0 Hp].
    apply lookup_take_Some in Hp as [Hp Hi0].
    destruct (decide (j < k)) as [Hjk|Hjk].
    + exfalso. apply Hni. rewrite fmap_take.
      apply list_elem_of_lookup. exists j.
      rewrite lookup_take_lt by done. by rewrite list_lookup_fmap, Hj.
    + apply (Hord i0 j p (i, dist i)); [done|lia|done..].
Qed.

(** What [search] returns when it returns: on an index that is not empty
    it has taken the address of every row. *)
Lemma search_members `{!StdContracts} self vs query k res :
  arena self vs → search self query k = Return self res →
  length query = dimensions_ self ∧
  (num_vectors_ self ≠ 0 → dimensions_ self ≠ 0) ∧
  length res = k `min` num_vectors_ self ∧
  (∀ p, p ∈ res →
     p.1 < num_vectors_ self ∧ p.2 = query_distance self query p.1) ∧
  NoDup res.*1.
Proof.
  intros Harena Hsearch. unfold search in Hsearch.
  destruct (decide (length query ≠ dimensions_ self)) as [|Hq]; [done|].
  apply dec_stable in Hq. split; [done|].
  destruct (decide (num_vectors_ self = 0)) as [Hz|Hz].
  { simplify_eq. rewrite Hz.
    split_and!; [done|simpl; lia|by intros ? ?%elem_of_nil|constructor]. }
  destruct (all_distances self query) as [ds|] eqn:Hds; [|done].
  pose proof (all_distances_dimensions self vs query ds Harena Hz Hds)
    as Hdim.
  rewrite (all_distances_arena self vs) in Hds by done. simplify_eq.
  split; [done|].
  assert (k `min` num_vectors_ self ≤ num_vectors_ self) as Hle by lia.
  destruct (partial_sort_members (query_distance self query) _ _ Hle)
    as (H1 & H2 & H3).
  split_and!; [lia|done|done].
Qed.

Lemma search_total self vs query k :
  arena self vs → length query = dimensions_ self →
  dimensions_ self ≠ 0 ∨ num_vectors_ self = 0 →
  ∃ res, search self query k = Return self res.
Proof.
  intros Harena Hq Hdim. unfold search.
  rewrite decide_False by (by intros ?).
  destruct (decide (num_vectors_ self = 0)) as [Hz|Hz]; [by eauto|].
  destruct Hdim as [Hdim|?]; [|done].
  rewrite (all_distances_arena _ vs) by done. by eauto.
Qed.

Lemma search_arena `{!StdContracts} self vs query k :
  arena self vs → length query = dimensions_ self →
  dimensions_ self ≠ 0 →
  ordered_floats (query_distances self query) →
  ∃ res, search self query k = Return self res ∧
         top_k (query_distance self query) (num_vectors_ self) k res.
Proof.
  intros Harena Hq Hdim Hfloats. unfold search.
  rewrite decide_False by (by intros ?).
  destruct (decide (num_vectors_ self = 0)) as [Hz|Hz].
  - exists []. split; [done|]. rewrite Hz.
    split_and!; simpl; [lia|set_solver|constructor| |set_solver].
    by intros ?????.
  - rewrite (all_distances_arena _ vs) by done.
    eexists. split; [done|].
    assert (k `min` num_vectors_ self ≤ num_vectors_ self) as Hle by lia.
    pose proof (partial_sort_top_k (query_distance self query) _ _ Hle
                  Hfloats)
      as (H1 & H2 & H3 & H4 & H5).
    split_and!; try done. lia.
Qed.
End proofs.
End BruteForce.
Lemma submseteq_NoDup {A} (l k : list A) : l ⊆+ k → NoDup k → NoDup l.
Proof.
  intros (l2 & Hsub & Hperm)%submseteq_sublist_l Hk.
  rewrite <-Hperm in Hk. by eapply sublist_NoDup.
Qed.

Module PQ.
Section proofs.
Context `{Platform} `{!StdContracts} {A : Type} (comp : A → A → bool).
Hypothesis Hcomp : float_order comp.

Lemma push_perm c x : priority_queue.push comp c x ≡ₚ x :: c.
Proof. by apply push_heap_perm. Qed.

Lemma pop_perm c x :
  priority_queue.top c = Some x → x :: priority_queue.pop comp c ≡ₚ c.
Proof.
  intros Htop. destruct c as [|x' c]; simplify_eq/=.
  destruct (pop_heap_perm _ comp x c Hcomp) as (l' & Heq & Hperm).
  unfold priority_queue.pop. rewrite Heq, length_app. simpl.
  replace (length l' + 1 - 1) with (length l') by lia.
  rewrite take_app_length. by rewrite Hperm.
Qed.

Lemma push_length c x :
  length (priority_queue.push comp c x) = S (length c).
Proof. by rewrite push_perm. Qed.

Lemma pop_length c x :
  priority_queue.top c = Some x →
  S (length (priority_queue.pop comp c)) = length c.
Proof. intros Ht. by apply pop_perm, Permutation_length in Ht. Qed.

Lemma push_heap c x :
  strict_weak_order comp (x :: c) → is_heap comp c →
  is_heap comp (priority_queue.push comp c x).
Proof. intros Hswo Hc. by apply push_heap_spec. Qed.

Lemma pop_heap c x :
  strict_weak_order comp c → is_heap comp c →
  priority_queue.top c = Some x →
  is_heap comp (priority_queue.pop comp c) ∧
  ∀ y, y ∈ priority_queue.pop comp c → comp x y = false.
Proof.
  intros Hswo Hc Htop. destruct c as [|x' c]; simplify_eq/=.
  destruct (pop_heap_perm _ comp x c Hcomp) as (l' & Heq & Hperm).
  unfold priority_queue.pop. rewrite Heq, length_app. simpl.
  replace (length l' + 1 - 1) with (length l') by lia.
  rewrite take_app_length. split.
  - by apply (pop_heap_spec _ comp x c l').
  - intros y Hy. rewrite Hperm in Hy. by eapply is_heap_front.
Qed.
End proofs.
End PQ.

Lemma strict_weak_order_subseteq {A} (comp : A → A → bool) (l l' : list A) :
  (∀ x, x ∈ l → x ∈ l') → strict_weak_order comp l' →
  strict_weak_order comp l.
Proof.
  intros Hsub (Hirr & Htrans & Hneg). split_and!.
  - intros x Hx. by apply Hirr, Hsub.
  - intros x y z Hx Hy Hz. apply Htrans; by apply Hsub.
  - intros x y z Hx Hy Hz. apply Hneg; by apply Hsub.
Qed.

Module SearchLayer.
Import HNSWIndex.
Section basics.
Context `{Platform} `{!StdContracts}.

Lemma on_layer_valid nodes layer u :
  on_layer nodes layer u → u < length nodes.
Proof.
  intros [l Hl]. unfold neighbors_at in Hl.
  destruct (nodes !! u) eqn:Hu; simplify_eq/=.
  by eapply lookup_lt_Some.
Qed.

Lemma top_Some {A} (c : list A) : c ≠ [] → is_Some (priority_queue.top c).
Proof. destruct c; [done|]. by eexists. Qed.

Lemma top_elem_of {A} (c : list A) x : priority_queue.top c = Some x → x ∈ c.
Proof. destruct c; intros; simplify_eq/=. by left. Qed.

(** Candidates whose distances [<] orders are ordered by [operator<] and
    by [operator>]. *)
Lemma candidates_ordered (ds : list float) (l : list SearchCandidate.t) :
  ordered_floats ds →
  (∀ c, c ∈ l → SearchCandidate.distance c ∈ ds) →
  strict_weak_order SearchCandidate.lt l ∧
  strict_weak_order SearchCandidate.gt l.
Proof.
  intros Hds Hl.
  assert (ordered_floats (SearchCandidate.distance <$> l)) as Hfloats.
  { apply (ordered_floats_subseteq _ ds); [|done].
    intros x (c & -> & Hc)%list_elem_of_fmap. by apply Hl. }
  split.
  - by apply (strict_weak_order_lt SearchCandidate.distance).
  - by apply (strict_weak_order_gt SearchCandidate.distance).
Qed.

Lemma drain_perm fuel (W0 : list SearchCandidate.t) :
  length W0 ≤ fuel → drain fuel W0 ≡ₚ W0.
Proof.
  revert W0. induction fuel as [|fuel IH]; intros W0 Hlen.
  - by destruct W0; simpl in *; [|lia].
  - simpl. destruct (priority_queue.top W0) as [x|] eqn:Hx.
    + pose proof (PQ.pop_perm SearchCandidate.lt float_order_lt W0 x Hx)
        as Hp.
      pose proof (PQ.pop_length SearchCandidate.lt float_order_lt W0 x Hx)
        as Hl.
      rewrite IH by lia. done.
    + by destruct W0; simplify_eq/=.
Qed.

(** [W] is drained farthest first. *)
Lemma drain_sorted fuel (W0 : list SearchCandidate.t) :
  strict_weak_order SearchCandidate.lt W0 →
  is_heap SearchCandidate.lt W0 → length W0 ≤ fuel →
  ∀ i j x y, i < j → drain fuel W0 !! i = Some x →
             drain fuel W0 !! j = Some y → SearchCandidate.lt x y = false.
Proof.
  revert W0. induction fuel as [|fuel IH]; intros W0 Hswo Hheap Hlen.
  - by intros [|?] ?.
  - simpl. destruct (priority_queue.top W0) as [x|] eqn:Hx.
    + destruct (PQ.pop_heap SearchCandidate.lt float_order_lt W0 x
                  Hswo Hheap Hx) as (Hh & Hmax).
      pose proof (PQ.pop_perm SearchCandidate.lt float_order_lt W0 x Hx)
        as Hp.
      pose proof (PQ.pop_length SearchCandidate.lt float_order_lt W0 x Hx)
        as Hl.
      assert (strict_weak_order SearchCandidate.lt
                (priority_queue.pop SearchCandidate.lt W0)) as Hswo'.
      { apply (strict_weak_order_subseteq _ _ W0); [|done].
        intros c Hc. rewrite <-Hp. by right. }
      intros [|i] [|j] a b Hij Ha Hb; simplify_eq/=; [lia| |lia|].
      * apply Hmax. rewrite <-(drain_perm fuel) by lia.
        by eapply list_elem_of_lookup_2.
      * apply (IH _ Hswo' Hh ltac:(lia) i j); [lia|done..].
    + by intros [|?] ?.
Qed.

Lemma ascending_reverse {A} (comp : A → A → bool) (l : list A) :
  (∀ i j x y, i < j → l !! i = Some x → l !! j = Some y →
              comp x y = false) →
  ascending comp (reverse l).
Proof.
  intros Hl i j x y Hij [Hx Hi]%reverse_lookup_Some [Hy Hj]%reverse_lookup_Some.
  apply (Hl (length l - S j) (length l - S i)); [lia|done..].
Qed.

(** [search_layer] returns only after it has taken the address of the
    entry's row. *)
Lemma search_layer_dimensions dimensions data nodes query entry_id ef layer
    res n :
  length data ≤ n * dimensions →
  search_layer dimensions data nodes query entry_id ef layer = Some res →
  dimensions ≠ 0.
Proof.
  unfold search_layer, distance_to_query, row_ptr.
  case_decide as Hrow; [|done]. intros Hlen _ ->. lia.
Qed.
End basics.

Section proofs.
Context `{Platform} `{!StdContracts}.
Context (dimensions : nat) (data : list float) (nodes : list HNSWNode.t).
Context (query : list float) (ef layer : nat) (P : nat → Prop).
Hypothesis Hrows : length nodes * dimensions ≤ length data.
Hypothesis Hdim : dimensions ≠ 0.
Hypothesis HP_layer : ∀ u, P u → on_layer nodes layer u.
Hypothesis HP_step : ∀ v l u,
  P v → neighbors_at nodes v layer = Some l → u ∈ l → P u.

Local Abbreviation inv := (search_inv dimensions data query ef P).
Local Abbreviation measure := (search_measure nodes).

Lemma distance_to_query_Some u :
  u < length nodes → is_Some (distance_to_query dimensions data query u).
Proof.
  intros Hu. unfold distance_to_query, row_ptr.
  rewrite decide_True by nia. by eexists.
Qed.

Lemma visited_size s : inv s → base.size (visited s) ≤ length nodes.
Proof.
  intros Hs. rewrite <-(size_set_seq (C:=gset nat) 0 (length nodes)).
  apply subseteq_size. intros u Hu. apply elem_of_set_seq.
  apply (inv_visited _ _ _ _ _ _ Hs), HP_layer, on_layer_valid in Hu. lia.
Qed.

Lemma visit_neighbor_eq s u d w :
  u ∉ visited s →
  distance_to_query dimensions data query u = Some d →
  priority_queue.top (W s) = Some w →
  visit_neighbor dimensions data query ef s u =
    let c := SearchCandidate.mk u d in
    if float_lt d (SearchCandidate.distance w)
       || bool_decide (length (W s) < ef)
    then
      let W1 := priority_queue.push SearchCandidate.lt (W s) c in
      Some (mk_search ({[u]} ∪ visited s)
              (priority_queue.push SearchCandidate.gt (candidates s) c)
              (if decide (ef < length W1)
               then priority_queue.pop SearchCandidate.lt W1 else W1))
    else Some (mk_search ({[u]} ∪ visited s) (candidates s) (W s)).
Proof.
  intros Hnin Hd Htop. unfold visit_neighbor.
  rewrite decide_False by done. rewrite Hd. simpl. by rewrite Htop.
Qed.

(** [W.push(c); if (W.size() > ef) W.pop();] *)
Lemma push_bounded (W0 : list SearchCandidate.t) c :
  W0 ≠ [] →
  let W1 := priority_queue.push SearchCandidate.lt W0 c in
  let W2 := if decide (ef < length W1)
            then priority_queue.pop SearchCandidate.lt W1 else W1 in
  W2 ⊆+ c :: W0 ∧ W2 ≠ [] ∧
  (length W0 ≤ ef `max` 1 → length W2 ≤ ef `max` 1).
Proof.
  intros Hne W1 W2.
  pose proof (PQ.push_perm SearchCandidate.lt float_order_lt W0 c) as Hp1.
  fold W1 in Hp1.
  assert (length W1 = S (length W0)) as Hlen1 by by rewrite Hp1.
  assert (1 ≤ length W0) as Hpos by (destruct W0; simpl; [done|lia]).
  unfold W2. destruct (decide (ef < length W1)) as [Hgt|Hle].
  - destruct (top_Some W1) as [x Hx]; [by intros Hnil; rewrite Hnil in Hlen1|].
    pose proof (PQ.pop_perm SearchCandidate.lt float_order_lt W1 x Hx)
      as Hp2.
    pose proof (PQ.pop_length SearchCandidate.lt float_order_lt W1 x Hx).
    split_and!; [| |lia].
    + trans (x :: priority_queue.pop SearchCandidate.lt W1);
        [by apply submseteq_cons|].
      by rewrite Hp2, Hp1.
    + intros Hnil. rewrite Hnil in *. simpl in *. lia.
  - split_and!; [by rewrite Hp1| |lia].
    intros Hnil. by rewrite Hnil in Hlen1.
Qed.

Lemma visit_neighbor_inv s u :
  inv s → P u →
  ∃ s', visit_neighbor dimensions data query ef s u = Some s' ∧
        inv s' ∧ measure s' ≤ measure s.
Proof.
  intros Hs Hu.
  destruct (decide (u ∈ visited s)) as [Hin|Hnin].
  { exists s. unfold visit_neighbor. by rewrite decide_True. }
  destruct (distance_to_query_Some u) as [d Hd];
    [by apply (on_layer_valid nodes layer), HP_layer|].
  destruct Hs as [Hvis Hcand HW Hnd Hne Hlen].
  destruct (top_Some (W s)) as [w Hw]; [done|].
  rewrite (visit_neighbor_eq s u d w) by done. cbv zeta.
  assert (base.size ({[u]} ∪ visited s) = S (base.size (visited s))) as Hsize.
  { rewrite size_union, size_singleton; [done|].
    by apply disjoint_singleton_l. }
  assert (∀ v, v ∈ {[u]} ∪ visited s → P v) as HvisP.
  { intros v [->%elem_of_singleton|Hv]%elem_of_union; by auto. }
  assert (base.size ({[u]} ∪ visited s) ≤ length nodes) as Hle.
  { rewrite <-(size_set_seq (C:=gset nat) 0 (length nodes)).
    apply subseteq_size. intros v Hv. apply elem_of_set_seq.
    apply HvisP, HP_layer, on_layer_valid in Hv. lia. }
  set (c := SearchCandidate.mk u d).
  assert (∀ c', c' ∈ c :: W s →
            SearchCandidate.id c' ∈ {[u]} ∪ visited s ∧
            true_distance dimensions data query c') as HcW.
  { intros c' [->|Hc']%elem_of_cons.
    - split; [by apply elem_of_union_l, elem_of_singleton|done].
    - destruct (HW c' Hc'). split; [by apply elem_of_union_r|done]. }
  destruct (float_lt d (SearchCandidate.distance w)
            || bool_decide (length (W s) < ef)).
  - pose proof (PQ.push_perm SearchCandidate.gt float_order_gt
                  (candidates s) c) as Hpc.
    destruct (push_bounded (W s) c Hne) as (Hsub & Hne' & Hlen').
    eexists. split; [done|]. split; [split; simpl|]; try done.
    + intros c' Hc'. rewrite Hpc in Hc'.
      apply elem_of_cons in Hc' as [->|Hc'].
      * split; [by apply elem_of_union_l, elem_of_singleton|done].
      * destruct (Hcand c' Hc'). split; [by apply elem_of_union_r|done].
    + intros c' Hc'. apply HcW. by eapply elem_of_submseteq.
    + apply (submseteq_NoDup _ (SearchCandidate.id <$> c :: W s));
        [by apply fmap_submseteq|].
      simpl. constructor; [|done].
      intros (c' & Hid & Hc')%list_elem_of_fmap.
      apply Hnin. rewrite Hid. by apply HW.
    + by apply Hlen'.
    + unfold search_measure. simpl. rewrite Hpc. simpl. lia.
  - eexists. split; [done|]. split; [split; simpl|]; try done.
    + intros c' Hc'. destruct (Hcand c' Hc').
      split; [by apply elem_of_union_r|done].
    + intros c' Hc'. apply HcW. by right.
    + unfold search_measure. simpl. lia.
Qed.

Lemma visit_neighbors_inv l s :
  inv s → (∀ u, u ∈ l → P u) →
  ∃ s', visit_neighbors dimensions data query ef s l = Some s' ∧
        inv s' ∧ measure s' ≤ measure s.
Proof.
  revert s. induction l as [|u l IH]; intros s Hs Hl; simpl.
  - by eauto.
  - destruct (visit_neighbor_inv s u) as (s1 & -> & Hs1 & Hm1);
      [done|apply Hl; by left|].
    simpl. destruct (IH s1) as (s2 & -> & Hs2 & Hm2);
      [done|intros; apply Hl; by right|].
    exists s2. split_and!; [done..|lia].
Qed.

(** the state after [candidates.pop()] *)
Lemma pop_candidate_inv s c :
  inv s → priority_queue.top (candidates s) = Some c →
  let s1 := mk_search (visited s)
              (priority_queue.pop SearchCandidate.gt (candidates s)) (W s) in
  inv s1 ∧ S (measure s1) = measure s ∧ P (SearchCandidate.id c).
Proof.
  intros Hs Hc s1. pose proof Hs as [Hvis Hcand HW Hnd Hne Hlen].
  pose proof (PQ.pop_perm SearchCandidate.gt float_order_gt _ c Hc) as Hpc.
  pose proof (PQ.pop_length SearchCandidate.gt float_order_gt _ c Hc) as Hlc.
  split_and!.
  - split; simpl; try done. intros c' Hc'. apply Hcand.
    rewrite <-Hpc. by right.
  - unfold search_measure, s1. simpl. lia.
  - apply Hvis, Hcand. by apply top_elem_of.
Qed.

Lemma search_loop_inv fuel s :
  inv s → measure s < fuel →
  ∃ s', search_loop dimensions data nodes query ef layer fuel s = Some s' ∧
        inv s'.
Proof.
  revert s. induction fuel as [|fuel IH]; intros s Hs Hfuel; [lia|].
  simpl. destruct (priority_queue.top (candidates s)) as [c|] eqn:Hc;
    [|by eauto].
  destruct (top_Some (W s)) as [w Hw]; [apply Hs|]. rewrite Hw. simpl.
  destruct (pop_candidate_inv s c Hs Hc) as (Hs1 & Hm1 & HPc).
  set (s1 := mk_search (visited s)
               (priority_queue.pop SearchCandidate.gt (candidates s)) (W s))
    in *.
  destruct (float_lt _ _); [by eauto|].
  destruct (HP_layer _ HPc) as [l Hl]. rewrite Hl. simpl.
  destruct (visit_neighbors_inv l s1) as (s2 & -> & Hs2 & Hm2);
    [done|by eauto|].
  simpl. apply IH; [done|lia].
Qed.

(** the state [search_layer] starts its loop in *)
Lemma entry_inv entry_id d :
  P entry_id →
  distance_to_query dimensions data query entry_id = Some d →
  let c := SearchCandidate.mk entry_id d in
  let s0 := mk_search {[entry_id]}
              (priority_queue.push SearchCandidate.gt [] c)
              (priority_queue.push SearchCandidate.lt [] c) in
  inv s0 ∧ measure s0 < S (length nodes).
Proof.
  intros Hentry Hd c s0.
  assert (entry_id < length nodes) as Hlt
    by by apply (on_layer_valid nodes layer), HP_layer.
  pose proof (PQ.push_perm SearchCandidate.gt float_order_gt [] c) as Hpc.
  pose proof (PQ.push_perm SearchCandidate.lt float_order_lt [] c) as HpW.
  assert (∀ c', c' ∈ [c] → SearchCandidate.id c' ∈ visited s0 ∧
                           true_distance dimensions data query c') as Hc.
  { intros c' ->%list_elem_of_singleton. split; [|done].
    by apply elem_of_singleton. }
  split.
  - split; unfold s0; cbn [visited candidates W].
    + by intros u ->%elem_of_singleton.
    + intros c' Hc'. apply Hc. by rewrite <-Hpc.
    + intros c' Hc'. apply Hc. by rewrite <-HpW.
    + rewrite HpW. simpl. apply NoDup_singleton.
    + intros Hnil. apply Permutation_length in HpW. by rewrite Hnil in HpW.
    + apply Permutation_length in HpW. rewrite HpW. simpl. lia.
  - unfold search_measure, s0. cbn [visited candidates W].
    rewrite size_singleton.
    apply Permutation_length in Hpc. rewrite Hpc. simpl. lia.
Qed.

Theorem search_layer_spec entry_id :
  P entry_id →
  ∃ res, search_layer dimensions data nodes query entry_id ef layer
           = Some res ∧
         search_result dimensions data query ef P res.
Proof.
  intros Hentry. unfold search_layer.
  assert (entry_id < length nodes) as Hlt
    by by apply (on_layer_valid nodes layer), HP_layer.
  destruct (distance_to_query_Some entry_id Hlt) as [d Hd].
  rewrite Hd. cbn [mbind option_bind].
  destruct (entry_inv entry_id d Hentry Hd) as [Hs0 Hm0].
  destruct (search_loop_inv (S (length nodes)) _ Hs0 Hm0) as (s & -> & Hs).
  cbn [mbind option_bind]. eexists. split; [done|].
  destruct Hs as [Hvis _ HW Hnd Hne Hlen].
  pose proof (drain_perm (length (W s)) (W s) ltac:(done)) as Hperm.
  split.
  - intros c' Hc'. rewrite reverse_Permutation, Hperm in Hc'.
    by apply Hvis, HW.
  - intros c' Hc'. rewrite reverse_Permutation, Hperm in Hc'. by apply HW.
  - by rewrite reverse_Permutation, Hperm.
  - intros Hnil. apply Hne, Permutation_nil_r.
    rewrite <-Hperm, <-(reverse_Permutation (drain _ _)). by rewrite Hnil.
  - by rewrite length_reverse, Hperm.
Qed.

(** The loop is left as soon as the nearest candidate is farther than
    the farthest result kept. *)
Lemma search_loop_break fuel s c w :
  priority_queue.top (candidates s) = Some c →
  priority_queue.top (W s) = Some w →
  float_lt (SearchCandidate.distance w) (SearchCandidate.distance c) = true →
  search_loop dimensions data nodes query ef layer (S fuel) s =
    Some (mk_search (visited s)
            (priority_queue.pop SearchCandidate.gt (candidates s)) (W s)).
Proof. intros Hc Hw Hlt. simpl. rewrite Hc, Hw. simpl. by rewrite Hlt. Qed.

(** *** Where [<] orders the distances met *)
Section ordered.
Context (ds : list float).
Hypothesis Hds : ordered_floats ds.
Hypothesis HP_ds : ∀ u d,
  P u → distance_to_query dimensions data query u = Some d → d ∈ ds.

Lemma inv_ordered s (l : list SearchCandidate.t) :
  inv s → (∀ c, c ∈ l → c ∈ candidates s ∨ c ∈ W s) →
  strict_weak_order SearchCandidate.lt l ∧
  strict_weak_order SearchCandidate.gt l.
Proof.
  intros [Hvis Hcand HW _ _ _] Hl. apply (candidates_ordered ds); [done|].
  intros c Hc.
  destruct (Hl c Hc) as [[Hv Hd]%Hcand|[Hv Hd]%HW];
    by apply (HP_ds (SearchCandidate.id c)); [apply Hvis|].
Qed.

Lemma visit_neighbor_heaps s u s' :
  inv s → heaps s → P u →
  visit_neighbor dimensions data query ef s u = Some s' → heaps s'.
Proof.
  intros Hs [Hhc HhW] Hu Hvisit.
  destruct (visit_neighbor_inv s u Hs Hu) as (s1 & Hs1eq & Hs1 & _).
  rewrite Hvisit in Hs1eq. injection Hs1eq as <-.
  destruct (decide (u ∈ visited s)) as [Hin|Hnin].
  { unfold visit_neighbor in Hvisit. rewrite decide_True in Hvisit by done.
    by simplify_eq. }
  destruct (distance_to_query_Some u) as [d Hd];
    [by apply (on_layer_valid nodes layer), HP_layer|].
  destruct (top_Some (W s)) as [w Hw]; [apply Hs|].
  rewrite (visit_neighbor_eq s u d w) in Hvisit by done.
  cbv zeta in Hvisit.
  set (c := SearchCandidate.mk u d) in *.
  assert (SearchCandidate.distance c ∈ ds) as Hc by by apply (HP_ds u).
  assert (∀ l : list SearchCandidate.t,
            (∀ c', c' ∈ l → c' = c ∨ c' ∈ candidates s ∨ c' ∈ W s) →
            strict_weak_order SearchCandidate.lt l ∧
            strict_weak_order SearchCandidate.gt l) as Hord.
  { intros l Hl. apply (candidates_ordered ds); [done|].
    intros c' [->|[Hc'|Hc']]%Hl; [done|..].
    - destruct (inv_candidates _ _ _ _ _ _ Hs c' Hc') as [Hv Hd'].
      apply (HP_ds (SearchCandidate.id c')); [|done].
      by apply (inv_visited _ _ _ _ _ _ Hs).
    - destruct (inv_W _ _ _ _ _ _ Hs c' Hc') as [Hv Hd'].
      apply (HP_ds (SearchCandidate.id c')); [|done].
      by apply (inv_visited _ _ _ _ _ _ Hs). }
  destruct (float_lt d (SearchCandidate.distance w)
            || bool_decide (length (W s) < ef)); simplify_eq; [|done].
  pose proof (PQ.push_perm SearchCandidate.lt float_order_lt (W s) c) as Hp1.
  split; cbn [candidates W].
  - apply PQ.push_heap; [done| |done]. apply Hord.
    intros c' [->|Hc']%elem_of_cons; by auto.
  - assert (is_heap SearchCandidate.lt
              (priority_queue.push SearchCandidate.lt (W s) c)) as Hh1.
    { apply PQ.push_heap; [done| |done]. apply Hord.
      intros c' [->|Hc']%elem_of_cons; by auto. }
    case_decide; [|done].
    destruct (top_Some (priority_queue.push SearchCandidate.lt (W s) c))
      as [x Hx].
    { intros Hnil. apply Permutation_length in Hp1.
      by rewrite Hnil in Hp1. }
    apply (PQ.pop_heap SearchCandidate.lt float_order_lt _ x); [|done..].
    apply Hord. intros c' Hc'. rewrite Hp1 in Hc'.
    apply elem_of_cons in Hc' as [->|Hc']; by auto.
Qed.

Lemma visit_neighbors_heaps l s s' :
  inv s → heaps s → (∀ u, u ∈ l → P u) →
  visit_neighbors dimensions data query ef s l = Some s' → heaps s'.
Proof.
  revert s. induction l as [|u l IH]; intros s Hs Hh Hl Hvisit.
  { cbn in Hvisit. by simplify_eq. }
  cbn [visit_neighbors] in Hvisit.
  destruct (visit_neighbor_inv s u) as (s1 & Hs1eq & Hs1 & _);
    [done|apply Hl; by left|].
  rewrite Hs1eq in Hvisit. cbn in Hvisit.
  apply (IH s1); [done| |by intros; apply Hl; right|done].
  apply (visit_neighbor_heaps s u); [done|done|apply Hl; by left|done].
Qed.

Lemma search_loop_heaps fuel s s' :
  inv s → heaps s →
  search_loop dimensions data nodes query ef layer fuel s = Some s' →
  heaps s'.
Proof.
  revert s. induction fuel as [|fuel IH]; intros s Hs Hh Hloop; [done|].
  cbn [search_loop] in Hloop.
  destruct (priority_queue.top (candidates s)) as [c|] eqn:Hc;
    [|by simplify_eq].
  destruct (top_Some (W s)) as [w Hw]; [apply Hs|].
  rewrite Hw in Hloop. cbn [mbind option_bind] in Hloop.
  destruct (pop_candidate_inv s c Hs Hc) as (Hs1 & _ & HPc).
  set (s1 := mk_search (visited s)
               (priority_queue.pop SearchCandidate.gt (candidates s)) (W s))
    in *.
  assert (heaps s1) as Hh1.
  { destruct Hh as [Hhc HhW]. split; [|done]. cbn [candidates s1].
    apply (PQ.pop_heap SearchCandidate.gt float_order_gt _ c); [|done..].
    apply (inv_ordered s); [done|by auto]. }
  destruct (float_lt _ _); [by simplify_eq|].
  destruct (HP_layer _ HPc) as [l Hl]. rewrite Hl in Hloop.
  cbn [mbind option_bind] in Hloop.
  destruct (visit_neighbors_inv l s1) as (s2 & Hs2eq & Hs2 & _);
    [done|by eauto|].
  rewrite Hs2eq in Hloop. cbn [mbind option_bind] in Hloop.
  apply (IH s2); [done| |done].
  apply (visit_neighbors_heaps l s1); [done|done|by eauto|done].
Qed.

(** the state the loop of [search_layer] ends in *)
Lemma search_layer_final entry_id res :
  P entry_id →
  search_layer dimensions data nodes query entry_id ef layer = Some res →
  ∃ s, inv s ∧ heaps s ∧ res = reverse (drain (length (W s)) (W s)) ∧
       ∃ d, distance_to_query dimensions data query entry_id = Some d ∧
            search_loop dimensions data nodes query ef layer
              (S (length nodes))
              (mk_search {[entry_id]}
                 (priority_queue.push SearchCandidate.gt []
                    (SearchCandidate.mk entry_id d))
                 (priority_queue.push SearchCandidate.lt []
                    (SearchCandidate.mk entry_id d)))
            = Some s.
Proof.
  intros Hentry Hsearch. unfold search_layer in Hsearch.
  destruct (distance_to_query dimensions data query entry_id) as [d|] eqn:Hd;
    [|done].
  cbn [mbind option_bind] in Hsearch.
  destruct (entry_inv entry_id d Hentry Hd) as [Hs0 Hm0].
  destruct (search_loop_inv (S (length nodes)) _ Hs0 Hm0) as (s & Hloop & Hs).
  rewrite Hloop in Hsearch. cbn [mbind option_bind] in Hsearch.
  injection Hsearch as <-.
  exists s. split_and!; [done| |done|by exists d].
  apply (search_loop_heaps (S (length nodes)) _ s Hs0); [|done].
  set (c := SearchCandidate.mk entry_id d).
  assert (SearchCandidate.distance c ∈ ds) as Hc by by apply (HP_ds entry_id).
  destruct (candidates_ordered ds [c] Hds) as [Hlt Hgt].
  { by intros c' ->%list_elem_of_singleton. }
  split; cbn [candidates W];
    (apply PQ.push_heap; [done|done|apply is_heap_nil]).
Qed.

Theorem search_layer_sorted entry_id res :
  P entry_id →
  search_layer dimensions data nodes query entry_id ef layer = Some res →
  ascending SearchCandidate.lt res.
Proof.
  intros Hentry Hsearch.
  destruct (search_layer_final entry_id res Hentry Hsearch)
    as (s & Hs & [_ HhW] & -> & _).
  apply ascending_reverse, drain_sorted; [|done..].
  apply (inv_ordered s); [done|by auto].
Qed.
End ordered.
End proofs.
End SearchLayer.
Module Graph.
Import HNSWIndex.
Section proofs.
Context `{Platform} `{!StdContracts}.

Lemma on_layer_shape nodes layer u :
  on_layer nodes layer u ↔ ∃ k, shape nodes !! u = Some k ∧ layer < k.
Proof.
  unfold on_layer, neighbors_at, shape. rewrite list_lookup_fmap.
  destruct (nodes !! u) as [node|]; simpl.
  - rewrite lookup_lt_is_Some. split; [by eauto|]. by intros (k & [= <-] & ?).
  - split; [by intros [??]|]. by intros (k & ? & ?).
Qed.

Lemma on_layer_same_shape nodes nodes' layer u :
  shape nodes' = shape nodes →
  on_layer nodes layer u → on_layer nodes' layer u.
Proof. intros Hs. rewrite !on_layer_shape. by rewrite Hs. Qed.

Lemma on_layer_le nodes layer layer' u :
  on_layer nodes layer u → layer' ≤ layer → on_layer nodes layer' u.
Proof.
  rewrite !on_layer_shape. intros (k & ? & ?) ?. exists k. split; [done|lia].
Qed.

Lemma on_layer_lt nodes layer u : on_layer nodes layer u → u < length nodes.
Proof.
  intros (k & Hk & _)%on_layer_shape. apply lookup_lt_Some in Hk.
  unfold shape in Hk. by rewrite length_fmap in Hk.
Qed.

Lemma set_neighbors_shape nodes u layer l :
  shape (set_neighbors nodes u layer l) = shape nodes.
Proof.
  unfold set_neighbors, shape.
  destruct (nodes !! u) as [node|] eqn:Hu; [|done].
  rewrite list_fmap_insert. simpl. rewrite length_insert.
  apply list_insert_id. by rewrite list_lookup_fmap, Hu.
Qed.

Lemma neighbors_at_set nodes u layer l v layer' :
  on_layer nodes layer u →
  neighbors_at (set_neighbors nodes u layer l) v layer' =
    if decide (v = u ∧ layer' = layer) then Some l
    else neighbors_at nodes v layer'.
Proof.
  intros [l0 Hl0]. unfold neighbors_at, set_neighbors in *.
  destruct (nodes !! u) as [node|] eqn:Hu; simplify_eq/=.
  destruct (decide (v = u)) as [->|Hvu].
  - rewrite list_lookup_insert_eq by by eapply lookup_lt_Some.
    simpl. destruct (decide (layer' = layer)) as [->|Hl].
    + rewrite decide_True by done.
      apply list_lookup_insert_eq. by eapply lookup_lt_Some.
    + rewrite decide_False by (by intros [_ ?]).
      rewrite Hu. simpl. by apply list_lookup_insert_ne.
  - rewrite decide_False by (by intros [? _]).
    by rewrite list_lookup_insert_ne.
Qed.

Lemma set_neighbors_id nodes u layer l :
  neighbors_at nodes u layer = Some l → set_neighbors nodes u layer l = nodes.
Proof.
  unfold set_neighbors, neighbors_at.
  destruct (nodes !! u) as [node|] eqn:Hnode; simpl; [|done]. intros Hl.
  rewrite (list_insert_id (HNSWNode.neighbors node)) by done.
  apply list_insert_id. by destruct node.
Qed.

Lemma push_back_neighbor_eq nodes u layer x l :
  neighbors_at nodes u layer = Some l →
  push_back_neighbor nodes u layer x
  = Some (set_neighbors nodes u layer (l ++ [x])).
Proof.
  unfold neighbors_at, push_back_neighbor, set_neighbors.
  destruct (nodes !! u) as [node|]; simpl; [|done]. by intros ->.
Qed.

Lemma elem_of_distances_to dimensions data query n u d :
  u < n → distance_to_query dimensions data query u = Some d →
  d ∈ distances_to dimensions data query n.
Proof.
  intros Hu Hd. apply list_elem_of_omap. exists u.
  split; [|done]. apply elem_of_seq. lia.
Qed.

Section arena.
Context (dimensions : nat) (data : list float) (rows : nat).
Hypothesis Hrows : rows * dimensions ≤ length data.
Hypothesis Hdim : dimensions ≠ 0.

Lemma row_ptr_Some u : u < rows → is_Some (row_ptr data dimensions u).
Proof. intros Hu. unfold row_ptr. rewrite decide_True by nia. by eexists. Qed.

Lemma distance_Some u v :
  u < rows → v < rows → is_Some (distance dimensions data u v).
Proof.
  intros [? Hu]%row_ptr_Some [? Hv]%row_ptr_Some.
  unfold distance. rewrite Hu, Hv. by eexists.
Qed.

Lemma prune_connections_spec nodes n layer M l :
  neighbors_at nodes n layer = Some l →
  n < rows → (∀ u, u ∈ l → u < rows) →
  ∃ kept, prune_connections dimensions data nodes n layer M
          = Some (set_neighbors nodes n layer kept) ∧
          (∀ u, u ∈ kept → u ∈ l) ∧
          length kept ≤ length l `min` (length l `max` M) ∧
          (M < length l → length kept ≤ M).
Proof.
  intros Hl Hn Hlrows. unfold prune_connections.
  pose proof (set_neighbors_id _ _ _ _ Hl) as Hid.
  unfold neighbors_at in Hl.
  destruct (nodes !! n) as [node|] eqn:Hnode; simplify_eq/=.
  rewrite Hl. simpl. destruct (decide (length l ≤ M)) as [Hle|Hgt].
  { exists l. rewrite Hid. split_and!; [done|by auto|lia|lia]. }
  set (f := λ neighbor_id : nat,
         d ← distance dimensions data n neighbor_id;
         Some (SearchCandidate.mk neighbor_id d)).
  destruct (mapM f l) as [cands|] eqn:Hmap; last first.
  { apply mapM_None_1, Exists_exists in Hmap as (u & Hu & Hnone).
    destruct (distance_Some n u) as [d Hd]; [done|by auto|].
    unfold f in Hnone. by rewrite Hd in Hnone. }
  simpl. assert (SearchCandidate.id <$> cands = l) as Hids.
  { eapply mapM_fmap_Some_inv; [done|]. intros u c Hc. unfold f in Hc.
    destruct (distance _ _ _ _); by simplify_eq/=. }
  pose proof (sort_perm _ SearchCandidate.lt cands float_order_lt) as Hperm.
  eexists. split; [unfold set_neighbors; by rewrite Hnode|].
  split_and!.
  - intros u (c & -> & Hc)%list_elem_of_fmap.
    apply elem_of_take in Hc as (i & Hc%list_elem_of_lookup_2 & _).
    rewrite Hperm in Hc. rewrite <-Hids. by apply list_elem_of_fmap_2.
  - rewrite length_fmap, length_take, Hperm, <-Hids, length_fmap. lia.
  - intros _. rewrite length_fmap, length_take. lia.
Qed.

Lemma relinked_refl new_id lc M nodes : relinked new_id lc M nodes nodes.
Proof.
  split; [done..|]. intros v l' _ Hl'. exists l'.
  split_and!; [done|by auto|lia].
Qed.

Lemma relinked_trans new_id lc M nodes1 nodes2 nodes3 :
  relinked new_id lc M nodes1 nodes2 → relinked new_id lc M nodes2 nodes3 →
  relinked new_id lc M nodes1 nodes3.
Proof.
  intros [Hs1 Ho1 Hl1] [Hs2 Ho2 Hl2]. split.
  - congruence.
  - intros v layer Hne. rewrite Ho2, Ho1; done.
  - intros v l3 Hv H3.
    destruct (Hl2 v l3 Hv H3) as (l2 & H2 & Hsub2 & Hlen2).
    destruct (Hl1 v l2 Hv H2) as (l1 & H1 & Hsub1 & Hlen1).
    exists l1. split_and!; [done| |lia].
    intros u Hu. destruct (Hsub2 u Hu) as [?|?]; by auto.
Qed.

(** one pass of [for (const auto& neighbor : neighbors)] *)
Lemma link_spec nodes new_id lc M (neighbor : SearchCandidate.t) l_new :
  let n := SearchCandidate.id neighbor in
  length nodes ≤ rows →
  neighbors_at nodes new_id lc = Some l_new →
  on_layer nodes lc n → n ≠ new_id →
  layer_below nodes rows lc →
  ∃ nodes', link dimensions data new_id lc M nodes neighbor = Some nodes' ∧
            relinked new_id lc M nodes nodes' ∧
            neighbors_at nodes' new_id lc = Some (l_new ++ [n]).
Proof.
  intros n Hlen Hnew [l_n Hn] Hne Hbelow. unfold link. fold n.
  assert (on_layer nodes lc new_id) as Hon_new by by eexists.
  assert (on_layer nodes lc n) as Hon_n by by eexists.
  rewrite (push_back_neighbor_eq _ _ _ _ l_new) by done.
  cbn [mbind option_bind].
  set (nodes1 := set_neighbors nodes new_id lc (l_new ++ [n])).
  assert (on_layer nodes1 lc n) as Hon_n1.
  { eapply on_layer_same_shape; [apply set_neighbors_shape|done]. }
  assert (neighbors_at nodes1 n lc = Some l_n) as Hn1.
  { unfold nodes1. rewrite neighbors_at_set by done.
    by rewrite decide_False by (by intros [? _]). }
  rewrite (push_back_neighbor_eq _ _ _ _ l_n) by done.
  cbn [mbind option_bind].
  set (nodes2 := set_neighbors nodes1 n lc (l_n ++ [new_id])).
  assert (neighbors_at nodes2 n lc = Some (l_n ++ [new_id])) as Hn2.
  { unfold nodes2. rewrite neighbors_at_set by done.
    by rewrite decide_True. }
  assert (on_layer nodes2 lc n) as Hon_n2 by by eexists.
  rewrite Hn2. cbn [mbind option_bind].
  assert (new_id < rows) as Hnew_lt.
  { apply on_layer_lt in Hon_new. lia. }
  assert (n < rows) as Hn_lt.
  { apply on_layer_lt in Hon_n. lia. }
  destruct (prune_connections_spec nodes2 n lc M (l_n ++ [new_id]))
    as (kept & Hprune & Hkept & _ & Hklen); [done|done|..].
  { intros u [Hu| ->%list_elem_of_singleton]%elem_of_app; [|done].
    by eapply Hbelow. }
  set (final := λ lf, set_neighbors nodes2 n lc lf).
  assert (∀ lf v layer,
            neighbors_at (final lf) v layer =
            if decide (v = n ∧ layer = lc) then Some lf
            else if decide (v = new_id ∧ layer = lc)
                 then Some (l_new ++ [n])
                 else neighbors_at nodes v layer) as Hfinal.
  { intros lf v layer. unfold final.
    rewrite neighbors_at_set by done. case_decide; [done|].
    unfold nodes2. rewrite neighbors_at_set by done.
    rewrite decide_False by done.
    unfold nodes1. by rewrite neighbors_at_set by done. }
  assert (∀ lf, shape (final lf) = shape nodes) as Hshape.
  { intros lf. unfold final, nodes2, nodes1.
    by rewrite !set_neighbors_shape. }
  assert (∀ lf, (∀ u, u ∈ lf → u ∈ l_n ∨ u = new_id) →
                length lf ≤ M →
                relinked new_id lc M nodes (final lf) ∧
                neighbors_at (final lf) new_id lc = Some (l_new ++ [n]))
    as Hrel.
  { intros lf Hsub Hlf. split; [split|].
    - apply Hshape.
    - intros v layer Hl. rewrite Hfinal.
      rewrite !decide_False by (by intros [_ ?]). done.
    - intros v l' Hv. rewrite Hfinal.
      rewrite (decide_False (P:=v = new_id ∧ _)) by (by intros [? _]).
      case_decide as Hvn.
      + destruct Hvn as [-> _]. intros [= <-]. exists l_n.
        split_and!; [done|done|lia].
      + intros Hl'. exists l'. split_and!; [done|by auto|lia].
    - rewrite Hfinal. rewrite decide_False by (by intros [? _]).
      by rewrite decide_True. }
  destruct (decide (M < length (l_n ++ [new_id]))) as [Hgt|Hle].
  - rewrite Hprune. eexists. split; [done|]. apply (Hrel kept).
    + intros u Hu. apply Hkept, elem_of_app in Hu as [?|Hu]; [by left|].
      right. by apply list_elem_of_singleton in Hu.
    + by apply Hklen.
  - eexists. split; [done|].
    rewrite <-(set_neighbors_id nodes2 n lc (l_n ++ [new_id])) by done.
    apply (Hrel (l_n ++ [new_id])).
    + intros u [?|Hu]%elem_of_app; [by left|].
      right. by apply list_elem_of_singleton in Hu.
    + lia.
Qed.

Lemma shape_length nodes nodes' :
  shape nodes' = shape nodes → length nodes' = length nodes.
Proof.
  intros Hs. apply (f_equal length) in Hs. unfold shape in Hs.
  by rewrite !length_fmap in Hs.
Qed.

Lemma link_all_spec nodes new_id lc M (ns : list SearchCandidate.t) l_new :
  length nodes ≤ rows →
  neighbors_at nodes new_id lc = Some l_new →
  (∀ c, c ∈ ns → on_layer nodes lc (SearchCandidate.id c) ∧
                 SearchCandidate.id c ≠ new_id) →
  layer_below nodes rows lc →
  ∃ nodes', link_all dimensions data new_id lc M nodes ns = Some nodes' ∧
            relinked new_id lc M nodes nodes' ∧
            neighbors_at nodes' new_id lc
            = Some (l_new ++ (SearchCandidate.id <$> ns)).
Proof.
  revert nodes l_new.
  induction ns as [|c ns IH]; intros nodes l_new Hlen Hnew Hns Hbelow.
  - simpl. exists nodes. rewrite app_nil_r.
    split_and!; [done|apply relinked_refl|done].
  - destruct (Hns c) as [Hc_on Hc_ne]; [by left|].
    destruct (link_spec nodes new_id lc M c l_new)
      as (nodes1 & Hlink & Hrel & Hnew1); [done..|].
    cbn [link_all]. rewrite Hlink. cbn [mbind option_bind].
    assert (new_id < rows) as Hnew_lt.
    { assert (on_layer nodes lc new_id) as Hon by by eexists.
      apply on_layer_lt in Hon. lia. }
    destruct (IH nodes1 (l_new ++ [SearchCandidate.id c]))
      as (nodes2 & Hall & Hrel2 & Hnew2).
    + rewrite (shape_length nodes nodes1); [done|apply Hrel].
    + done.
    + intros c' Hc'. destruct (Hns c') as [? ?]; [by right|].
      split; [|done]. eapply on_layer_same_shape; [apply Hrel|done].
    + intros v l u Hl Hu. destruct (decide (v = new_id)) as [->|Hv].
      * rewrite Hnew1 in Hl. simplify_eq.
        apply elem_of_app in Hu as [Hu| ->%list_elem_of_singleton].
        -- by eapply Hbelow.
        -- apply on_layer_lt in Hc_on. lia.
      * destruct (relinked_layer _ _ _ _ _ Hrel v l Hv Hl)
          as (l0 & Hl0 & Hsub & _).
        destruct (Hsub u Hu) as [?| ->]; [by eapply Hbelow|done].
    + exists nodes2. split_and!; [done|by eapply relinked_trans|].
      by rewrite Hnew2, <-app_assoc.
Qed.

Lemma search_layer_old nodes bound query entry_id ef layer :
  length nodes ≤ rows →
  layer_closed nodes layer → layer_below nodes bound layer →
  on_layer nodes layer entry_id → entry_id < bound →
  ∃ res, search_layer dimensions data nodes query entry_id ef layer
         = Some res ∧
         search_result dimensions data query ef (old nodes bound layer) res.
Proof.
  intros Hlen Hclosed Hbelow Hon Hlt.
  apply (SearchLayer.search_layer_spec dimensions data nodes query ef layer).
  - nia.
  - done.
  - by intros u [? _].
  - intros v l u _ Hl Hu. split; [by eapply Hclosed|by eapply Hbelow].
  - done.
Qed.

Lemma search_layer_old_sorted nodes bound query entry_id ef layer ds res :
  length nodes ≤ rows →
  layer_closed nodes layer → layer_below nodes bound layer →
  on_layer nodes layer entry_id → entry_id < bound →
  ordered_floats ds →
  (∀ u d, u < bound →
          distance_to_query dimensions data query u = Some d → d ∈ ds) →
  search_layer dimensions data nodes query entry_id ef layer = Some res →
  ascending SearchCandidate.lt res.
Proof.
  intros Hlen Hclosed Hbelow Hon Hlt Hds Hin.
  apply (SearchLayer.search_layer_sorted dimensions data nodes query ef layer
           (old nodes bound layer)) with (ds := ds).
  - nia.
  - done.
  - by intros u [? _].
  - intros v l u _ Hl Hu. split; [by eapply Hclosed|by eapply Hbelow].
  - done.
  - intros u d [_ Hu]. by apply Hin.
  - done.
Qed.

Lemma first_id_old nodes bound layer ef query res curr :
  search_result dimensions data query ef (old nodes bound layer) res →
  old nodes bound layer (first_id res curr).
Proof.
  intros Hres. destruct res as [|c res];
    [by destruct (res_nonempty _ _ _ _ _ _ Hres)|].
  simpl. apply (res_ids _ _ _ _ _ _ Hres). by left.
Qed.

Lemma greedy_descent_spec nodes bound query layers curr top :
  length nodes ≤ rows →
  StronglySorted (λ a b, b < a) layers →
  (∀ layer, layer ∈ layers →
     layer ≤ top ∧ layer_closed nodes layer ∧ layer_below nodes bound layer) →
  on_layer nodes top curr → curr < bound →
  ∃ curr', greedy_descent dimensions data nodes query curr layers
           = Some curr' ∧ curr' < bound ∧
           ∀ layer, layer ≤ top → (∀ lc, lc ∈ layers → layer ≤ lc) →
                    on_layer nodes layer curr'.
Proof.
  intros Hlen Hsorted. revert curr top.
  induction Hsorted as [|lc layers _ IH Hlt];
    intros curr top Hlayers Hon Hcurr; simpl.
  - exists curr. split_and!; [done..|]. intros layer Hle _.
    by eapply on_layer_le.
  - destruct (Hlayers lc) as (Hle & Hclosed & Hbelow); [by left|].
    destruct (search_layer_old nodes bound query curr 1 lc)
      as (res & -> & Hres); [done..|by eapply on_layer_le|done|].
    cbn [mbind option_bind].
    destruct (first_id_old nodes bound lc 1 query res curr Hres)
      as [Hon' Hlt'].
    destruct (IH (first_id res curr) lc) as (curr' & -> & ? & Hfin);
      [|done..|].
    { intros layer Hin. destruct (Hlayers layer) as (? & ? & ?); [by right|].
      rewrite Forall_forall in Hlt. split_and!; [|done..].
      apply Hlt in Hin. lia. }
    exists curr'. split_and!; [done..|].
    intros layer _ Hall. apply Hfin; [|by intros; apply Hall; right].
    apply Hall. by left.
Qed.

Lemma insert_layers_spec m m_max ef_construction query new_id
    nodes curr layers top :
  rows = S new_id →
  StronglySorted (λ a b, b < a) layers →
  (∀ layer, layer ∈ layers → layer ≤ top) →
  linking m m_max new_id layers nodes →
  on_layer nodes top curr → curr < new_id →
  ∃ nodes', insert_layers dimensions data m m_max ef_construction query
              new_id nodes curr layers = Some nodes' ∧
            shape nodes' = shape nodes ∧
            linking m m_max new_id [] nodes'.
Proof.
  intros Hrows' Hsorted. revert nodes curr top.
  induction Hsorted as [|lc layers _ IH Hlt];
    intros nodes curr top Htop Hlink Hon Hcurr; simpl.
  - by eauto.
  - destruct Hlink as [Hlen Hclosed Hdeg Hfresh].
    destruct (Hfresh lc) as [Hbelow Hnew]; [by left|].
    assert (lc ≤ top) as Hle by (apply Htop; by left).
    destruct (search_layer_old nodes new_id query curr ef_construction lc)
      as (res & -> & Hres); [lia|done..|by eapply on_layer_le|done|].
    cbn [mbind option_bind].
    set (M := if decide (lc = 0) then m_max else m).
    assert (∀ c, c ∈ take M res → old nodes new_id lc (SearchCandidate.id c))
      as Htake.
    { intros c (i & Hc%list_elem_of_lookup_2 & _)%elem_of_take.
      by apply (res_ids _ _ _ _ _ _ Hres). }
    destruct (link_all_spec nodes new_id lc M (take M res) [])
      as (nodes1 & -> & Hrel & Hnew1); [lia|done|..].
    { intros c [? ?]%Htake. split; [done|lia]. }
    { intros v l u Hl Hu. pose proof (Hbelow v l u Hl Hu). lia. }
    cbn [mbind option_bind].
    assert (on_layer nodes lc new_id) as Hon_new by by eexists.
    assert (old nodes new_id lc (first_id (take M res) curr)) as [Hon1 Hlt1].
    { destruct (take M res) as [|c ?] eqn:Hc; simpl.
      - split; [by eapply on_layer_le|done].
      - apply Htake. by left. }
    destruct (IH nodes1 (first_id (take M res) curr) lc)
      as (nodes2 & -> & Hshape2 & Hlink2).
    + rewrite Forall_forall in Hlt. intros layer ?%Hlt. lia.
    + split.
      * rewrite (shape_length nodes nodes1); [done|apply Hrel].
      * intros layer v l u Hl Hu.
        apply (on_layer_same_shape nodes); [apply Hrel|].
        destruct (decide (layer = lc)) as [->|Hne].
        -- destruct (decide (v = new_id)) as [->|Hv].
           ++ rewrite Hnew1 in Hl. simplify_eq/=.
              apply list_elem_of_fmap in Hu as (c & -> & Hc).
              by apply Htake.
           ++ destruct (relinked_layer _ _ _ _ _ Hrel v l Hv Hl)
                as (l0 & Hl0 & Hsub & _).
              destruct (Hsub u Hu) as [?| ->]; [by eapply Hclosed|done].
        -- rewrite (relinked_other_layer _ _ _ _ _ Hrel) in Hl by done.
           by eapply Hclosed.
      * intros v layer l Hl.
        destruct (decide (layer = lc)) as [->|Hne].
        -- unfold max_degree. fold M.
           destruct (decide (v = new_id)) as [->|Hv].
           ++ rewrite Hnew1 in Hl. simplify_eq/=.
              rewrite length_fmap, length_take. lia.
           ++ destruct (relinked_layer _ _ _ _ _ Hrel v l Hv Hl)
                as (l0 & Hl0 & _ & Hlen0).
              apply Hdeg in Hl0. unfold max_degree in Hl0. fold M in Hl0.
              lia.
        -- rewrite (relinked_other_layer _ _ _ _ _ Hrel) in Hl by done.
           by eapply Hdeg.
      * intros layer Hin.
        assert (layer ≠ lc) as Hne.
        { rewrite Forall_forall in Hlt. apply Hlt in Hin. lia. }
        destruct (Hfresh layer) as [Hb Hn]; [by right|]. split.
        -- intros v l u.
           rewrite (relinked_other_layer _ _ _ _ _ Hrel) by done.
           apply Hb.
        -- by rewrite (relinked_other_layer _ _ _ _ _ Hrel).
    + eapply on_layer_same_shape; [apply Hrel|done].
    + done.
    + exists nodes2. split_and!; [done| |done].
      rewrite Hshape2. apply Hrel.
Qed.
End arena.
End proofs.
End Graph.
Module Insert.
Import HNSWIndex Graph.
Section proofs.
Context `{Platform} `{!StdContracts}.

Lemma layers_down_sorted from stop :
  StronglySorted (λ a b, b < a) (layers_down from stop).
Proof.
  unfold layers_down. generalize (S stop). intros start.
  induction (from - stop) as [|n IH] in start |- *; simpl.
  - constructor.
  - rewrite reverse_cons.
    apply StronglySorted_app_2; [|apply IH|repeat constructor].
    intros a b Ha ->%list_elem_of_singleton.
    apply elem_of_reverse, elem_of_seq in Ha. lia.
Qed.

Lemma elem_of_layers_down from stop lc :
  lc ∈ layers_down from stop ↔ stop < lc ≤ from.
Proof. unfold layers_down. rewrite elem_of_reverse, elem_of_seq. lia. Qed.

Lemma layers_down_to_0_sorted from :
  StronglySorted (λ a b, b < a) (layers_down_to_0 from).
Proof.
  unfold layers_down_to_0. generalize 0. intros start.
  induction (S from) as [|n IH] in start |- *; simpl.
  - constructor.
  - rewrite reverse_cons.
    apply StronglySorted_app_2; [|apply IH|repeat constructor].
    intros a b Ha ->%list_elem_of_singleton.
    apply elem_of_reverse, elem_of_seq in Ha. lia.
Qed.

Lemma elem_of_layers_down_to_0 from lc :
  lc ∈ layers_down_to_0 from ↔ lc ≤ from.
Proof. unfold layers_down_to_0. rewrite elem_of_reverse, elem_of_seq. lia. Qed.

(** the graph right after [nodes_.emplace_back(new_id, max_layer)] *)
Lemma neighbors_at_emplace_back nodes new_id max_layer v layer :
  neighbors_at (nodes ++ [HNSWNode.new new_id max_layer]) v layer =
    if decide (v < length nodes) then neighbors_at nodes v layer
    else if decide (v = length nodes ∧ layer ≤ max_layer) then Some []
         else None.
Proof.
  unfold neighbors_at. destruct (decide (v < length nodes)) as [Hv|Hv].
  - by rewrite lookup_app_l.
  - rewrite lookup_app_r by lia.
    destruct (v - length nodes) as [|k] eqn:Hk; simpl.
    + case_decide as Hd.
      * apply lookup_replicate_2. lia.
      * apply lookup_replicate_None. lia.
    + rewrite decide_False by lia. done.
Qed.

Lemma emplace_back_below nodes new_id max_layer layer :
  graph_closed nodes →
  layer_below (nodes ++ [HNSWNode.new new_id max_layer]) (length nodes) layer.
Proof.
  intros Hclosed v l u. rewrite neighbors_at_emplace_back.
  repeat case_decide; intros Hl Hu; simplify_eq/=;
    [|by apply elem_of_nil in Hu].
  apply (on_layer_lt nodes layer). by eapply Hclosed.
Qed.

Lemma emplace_back_on_layer nodes new_id max_layer layer u :
  on_layer nodes layer u →
  on_layer (nodes ++ [HNSWNode.new new_id max_layer]) layer u.
Proof.
  intros Hon. pose proof (on_layer_lt _ _ _ Hon). destruct Hon as [l Hl].
  exists l. rewrite neighbors_at_emplace_back. by rewrite decide_True.
Qed.

Lemma emplace_back_linking m m_max nodes new_id max_layer layers :
  length nodes = new_id →
  graph_closed nodes → degree_bounded m m_max nodes →
  (∀ layer, layer ∈ layers → layer ≤ max_layer) →
  linking m m_max new_id layers (nodes ++ [HNSWNode.new new_id max_layer]).
Proof.
  intros Hlen Hclosed Hdeg Hlayers. split.
  - rewrite length_app. simpl. lia.
  - intros layer v l u. rewrite neighbors_at_emplace_back.
    repeat case_decide; intros Hl Hu; simplify_eq/=;
      [|by apply elem_of_nil in Hu].
    apply emplace_back_on_layer. by eapply Hclosed.
  - intros v layer l. rewrite neighbors_at_emplace_back.
    repeat case_decide; intros Hl; simplify_eq/=; [by eapply Hdeg|lia].
  - intros layer Hlayer%Hlayers. split.
    + rewrite <-Hlen. by apply emplace_back_below.
    + rewrite neighbors_at_emplace_back.
      rewrite decide_False by lia. by rewrite decide_True.
Qed.

Lemma search_layer_empty dimensions nodes query entry_id ef layer :
  search_layer dimensions [] nodes query entry_id ef layer = None.
Proof.
  unfold search_layer, distance_to_query, row_ptr.
  rewrite decide_False; [done|]. simpl. lia.
Qed.

Lemma layers_down_to_0_cons from :
  ∃ rest, layers_down_to_0 from = from :: rest.
Proof.
  unfold layers_down_to_0. rewrite seq_S, reverse_app. simpl. by eexists.
Qed.

Lemma wf_data_empty self :
  wf self → dimensions_ self = 0 → data_ self = [].
Proof.
  intros Hwf Hd. apply nil_length_inv. rewrite (wf_data _ Hwf), Hd. lia.
Qed.

(** With rows of no floats the arena stays empty, and the second [add]
    takes the address of an element of it. *)
Lemma add_undefined self vector :
  wf self → length vector = dimensions_ self →
  dimensions_ self = 0 → num_vectors_ self ≠ 0 →
  add self vector = Undefined.
Proof.
  intros Hwf Hv Hd Hn. unfold add.
  rewrite decide_False by (by intros ?). rewrite decide_False by done.
  rewrite (wf_data_empty self Hwf Hd).
  rewrite (nil_length_inv vector) by lia. cbn [app].
  destruct (greedy_descent _ _ _ _ _ _) as [curr|]; [|done].
  cbn [mbind option_bind].
  destruct (layers_down_to_0_cons
              (get_random_level self `min` max_layer_ self)) as [rest ->].
  cbn [insert_layers]. by rewrite search_layer_empty.
Qed.

Theorem add_wf self vector :
  wf self → length vector = dimensions_ self →
  dimensions_ self ≠ 0 ∨ num_vectors_ self = 0 →
  ∃ self', add self vector = Return self' () ∧ wf self' ∧
           data_ self' = data_ self ++ vector ∧
           num_vectors_ self' = S (num_vectors_ self) ∧
           same_config self self' ∧
           ef_search_ self' = ef_search_ self ∧
           rng_ self' = S (rng_ self).
Proof.
  intros [Hdata Hnodes Hclosed Hdeg Hentry HM] Hvec Hdim0. unfold add.
  rewrite decide_False by (by intros ?).
  set (n := num_vectors_ self) in *.
  set (new_level := get_random_level self).
  set (top := new_level `max` max_layer_ self).
  set (nodes0 := nodes_ self ++ [HNSWNode.new n top]).
  assert (length (data_ self ++ vector) = S n * dimensions_ self) as Hdata'.
  { rewrite length_app. lia. }
  assert (on_layer nodes0 new_level n) as Hon_new.
  { exists []. unfold nodes0. rewrite neighbors_at_emplace_back.
    rewrite decide_False by lia. rewrite decide_True; [done|lia]. }
  assert (∀ layers, (∀ layer, layer ∈ layers → layer ≤ top) →
            linking (M_ self) (M_max_ self) n layers nodes0) as Hlinking.
  { intros layers Hl. by apply emplace_back_linking. }
  destruct (decide (n = 0)) as [Hz|Hnz].
  - destruct (Hlinking []) as [Hlen0 Hclosed0 Hdeg0 _];
      [by intros ? ?%elem_of_nil|].
    eexists. split; [done|]. split; [split; simpl|by split_and!]; done.
  - specialize (Hentry Hnz).
    assert (dimensions_ self ≠ 0) as Hdim by by destruct Hdim0.
    assert (entry_point_ self < n) as Hentry_lt.
    { rewrite <-Hnodes. by eapply on_layer_lt. }
    assert (S n * dimensions_ self ≤ length (data_ self ++ vector)) as Hrows
      by lia.
    set (layers := layers_down_to_0 (new_level `min` max_layer_ self)).
    pose proof (Hlinking layers) as Hlink0.
    destruct Hlink0 as [Hlen0 Hclosed0 Hdeg0 Hfresh0].
    { intros layer ?%elem_of_layers_down_to_0. lia. }
    destruct (greedy_descent_spec (dimensions_ self) (data_ self ++ vector)
                (S n) Hrows Hdim nodes0 n vector
                (layers_down (max_layer_ self) new_level)
                (entry_point_ self) (max_layer_ self))
      as (curr & -> & Hcurr & Hcurr_on).
    + lia.
    + apply layers_down_sorted.
    + intros layer Hl%elem_of_layers_down. split_and!; [lia|done|].
      unfold nodes0. rewrite <-Hnodes. by apply emplace_back_below.
    + by apply emplace_back_on_layer.
    + done.
    + cbn [mbind option_bind].
      destruct (insert_layers_spec (dimensions_ self) (data_ self ++ vector)
                  (S n) Hrows Hdim (M_ self) (M_max_ self)
                  (ef_construction_ self) vector n nodes0 curr layers
                  (new_level `min` max_layer_ self))
        as (nodes' & -> & Hshape & Hlink).
      * done.
      * apply layers_down_to_0_sorted.
      * by intros layer ?%elem_of_layers_down_to_0.
      * done.
      * apply Hcurr_on; [lia|].
        intros lc ?%elem_of_layers_down. lia.
      * done.
      * destruct Hlink as [Hlen' Hclosed' Hdeg' _].
        eexists. split; [done|]. split; [split; simpl|by split_and!];
          try done.
        intros _. case_bool_decide.
        -- by eapply on_layer_same_shape.
        -- eapply on_layer_same_shape; [done|].
           by apply emplace_back_on_layer.
Qed.

(** What [add] does, case by case. *)
Lemma add_outcome self vector :
  wf self →
  (length vector ≠ dimensions_ self ∧
   add self vector = Raise self vector_dimension_mismatch) ∨
  (length vector = dimensions_ self ∧
   dimensions_ self = 0 ∧ num_vectors_ self ≠ 0 ∧
   add self vector = Undefined) ∨
  (length vector = dimensions_ self ∧
   (dimensions_ self ≠ 0 ∨ num_vectors_ self = 0) ∧
   ∃ self', add self vector = Return self' () ∧ wf self' ∧
            data_ self' = data_ self ++ vector ∧
            num_vectors_ self' = S (num_vectors_ self) ∧
            same_config self self' ∧
            ef_search_ self' = ef_search_ self ∧
            rng_ self' = S (rng_ self)).
Proof.
  intros Hwf.
  destruct (decide (length vector = dimensions_ self)) as [Hv|Hv]; last first.
  { left. split; [done|]. unfold add. by rewrite decide_True. }
  right.
  destruct (decide (dimensions_ self = 0)) as [Hd|Hd];
    [destruct (decide (num_vectors_ self = 0)) as [Hn|Hn]|].
  - right. split_and!; [done|by right|]. apply add_wf; by auto.
  - left. split_and!; [done..|]. by apply add_undefined.
  - right. split_and!; [done|by left|]. apply add_wf; by auto.
Qed.

Lemma add_returns self vector self' u :
  wf self → add self vector = Return self' u →
  length vector = dimensions_ self ∧
  (dimensions_ self ≠ 0 ∨ num_vectors_ self = 0) ∧
  wf self' ∧
  data_ self' = data_ self ++ vector ∧
  num_vectors_ self' = S (num_vectors_ self) ∧
  same_config self self' ∧
  ef_search_ self' = ef_search_ self ∧
  rng_ self' = S (rng_ self).
Proof.
  intros Hwf Hadd.
  destruct (add_outcome self vector Hwf)
    as [[_ Hr]|[(_ & _ & _ & Hr)|(Hv & Hd & self1 & Hr & Hrest)]];
    rewrite Hr in Hadd; [done..|].
  injection Hadd as <- _. destruct Hrest as (? & ? & ? & ? & ? & ?).
  by split_and!.
Qed.

Lemma add_raises self vector self' e :
  wf self → add self vector = Raise self' e →
  length vector ≠ dimensions_ self ∧ self' = self ∧
  e = vector_dimension_mismatch.
Proof.
  intros Hwf Hadd.
  destruct (add_outcome self vector Hwf)
    as [[Hv Hr]|[(_ & _ & _ & Hr)|(_ & _ & self1 & Hr & _)]];
    rewrite Hr in Hadd; [|done..].
  by simplify_eq.
Qed.

Lemma arena_snoc self self' vs vector :
  arena self vs → length vector = dimensions_ self →
  data_ self' = data_ self ++ vector →
  num_vectors_ self' = S (num_vectors_ self) →
  dimensions_ self' = dimensions_ self →
  arena self' (vs ++ [vector]).
Proof.
  intros (Hn & Hd & Hall) Hv Hd' Hn' Hdim. split_and!.
  - rewrite Hn', Hn, length_app. simpl. lia.
  - rewrite Hd', Hd, concat_app. simpl. by rewrite app_nil_r.
  - rewrite Hdim. apply Forall_app. split; [done|]. by constructor.
Qed.

Lemma add_raise self vector :
  length vector ≠ dimensions_ self →
  add self vector = Raise self vector_dimension_mismatch.
Proof. intros Hne. unfold add. by rewrite decide_True. Qed.

Lemma same_config_trans (s1 s2 s3 : t) :
  same_config s1 s2 → same_config s2 s3 → same_config s1 s3.
Proof.
  intros (?&?&?&?&?) (?&?&?&?&?). split_and!; congruence.
Qed.

Lemma add_batch_spec self vectors vs :
  wf self → arena self vs → dimensions_ self ≠ 0 →
  ∃ self',
    add_batch self vectors =
      (if decide (Forall (λ vec, length vec = dimensions_ self) vectors)
       then Return self' () else Raise self' vector_dimension_mismatch) ∧
    wf self' ∧
    arena self' (vs ++ accepted (dimensions_ self) vectors) ∧
    same_config self self' ∧ ef_search_ self' = ef_search_ self.
Proof.
  revert self vs.
  induction vectors as [|vec rest IH]; intros self vs Hwf Har Hdim.
  - exists self. cbn [add_batch accepted]. rewrite decide_True by done.
    rewrite app_nil_r. by split_and!.
  - cbn [add_batch accepted].
    destruct (decide (length vec = dimensions_ self)) as [Hv|Hv].
    + destruct (add_wf self vec Hwf Hv ltac:(by left))
        as (self1 & -> & Hwf1 & Hd1 & Hn1 & Hcfg1 & Hef1 & _).
      pose proof Hcfg1 as (Hdim1 & _).
      destruct (IH self1 (vs ++ [vec]) Hwf1)
        as (self2 & -> & Hwf2 & Har2 & Hcfg2 & Hef2).
      { by eapply arena_snoc. }
      { by rewrite Hdim1. }
      exists self2. rewrite Hdim1 in Har2 |- *. split_and!.
      * destruct (decide (Forall _ rest)) as [Hr|Hr].
        -- by rewrite decide_True by by constructor.
        -- rewrite decide_False; [done|]. by intros [? ?]%Forall_cons.
      * done.
      * by rewrite <-app_assoc in Har2.
      * by eapply same_config_trans.
      * congruence.
    + rewrite add_raise by done. exists self.
      rewrite decide_False by (by intros [? ?]%Forall_cons).
      rewrite app_nil_r. by split_and!.
Qed.

(** What [add_batch] leaves when it returns or throws. *)
Lemma add_batch_final self vectors vs self' :
  wf self → arena self vs →
  final_state (add_batch self vectors) = Some self' →
  wf self' ∧
  arena self' (vs ++ accepted (dimensions_ self) vectors) ∧
  same_config self self' ∧ ef_search_ self' = ef_search_ self.
Proof.
  revert self vs.
  induction vectors as [|vec rest IH]; intros self vs Hwf Har Hfinal.
  - cbn in Hfinal. injection Hfinal as <-. cbn [accepted].
    rewrite app_nil_r. by split_and!.
  - cbn [add_batch accepted] in *.
    destruct (add self vec) as [self1 []|self1 e|] eqn:Hadd; [| |done].
    + apply add_returns in Hadd
        as (Hv & _ & Hwf1 & Hd1 & Hn1 & Hcfg1 & Hef1 & _); [|done].
      pose proof Hcfg1 as (Hdim1 & _).
      destruct (IH self1 (vs ++ [vec]) Hwf1) as (Hwf2 & Har2 & Hcfg2 & Hef2);
        [by eapply arena_snoc|done|].
      rewrite decide_True by done. rewrite Hdim1 in Har2.
      split_and!; [done| |by eapply same_config_trans|congruence].
      by rewrite <-app_assoc in Har2.
    + apply add_raises in Hadd as (Hv & -> & _); [|done].
      cbn in Hfinal. injection Hfinal as <-.
      rewrite decide_False by done. rewrite app_nil_r. by split_and!.
Qed.

Lemma wf_new dimensions max_elements M ef_construction :
  wf (new dimensions max_elements M ef_construction).
Proof.
  by split.
Qed.

Lemma wf_clear self self' :
  wf self → clear self = Return self' () → wf self'.
Proof.
  intros Hwf [= <-]. split; simpl; try done. apply Hwf.
Qed.

Lemma wf_set_ef self ef self' :
  wf self → set_ef self ef = Return self' () → wf self'.
Proof. intros [] [= <-]. by split. Qed.

Lemma search_final_state self query k self' :
  final_state (search self query k) = Some self' → self' = self.
Proof.
  unfold search. repeat case_decide; simpl; try congruence.
  destruct (_ ≫= _); simpl; congruence.
Qed.

Lemma stores_wf self vs : stores self vs → wf self ∧ arena self vs.
Proof.
  induction 1 as [d me M efc|self vs c self' _ [Hwf Har] Hrun].
  - split; [apply wf_new|by split_and!].
  - destruct c as [vector|vectors|query k|ef|]; simpl in *.
    + destruct (add_outcome self vector Hwf)
        as [[Hv Hadd]|[(_ & _ & _ & Hadd)
                      |(Hv & _ & self1 & Hadd & Hwf1 & Hd1 & Hn1 & Hcfg1 & _)]];
        rewrite Hadd in Hrun; simplify_eq/=.
      * by rewrite decide_False by done.
      * rewrite decide_True by done. split; [done|].
        eapply arena_snoc; [done..|apply Hcfg1].
    + by destruct (add_batch_final self vectors vs self' Hwf Har Hrun)
        as (? & ? & _).
    + apply search_final_state in Hrun as ->. done.
    + injection Hrun as <-. split; [by apply (wf_set_ef self ef)|exact Har].
    + injection Hrun as <-. split; [by apply (wf_clear self)|by split_and!].
Qed.

Lemma reachable_stores self : reachable self → ∃ vs, stores self vs.
Proof.
  induction 1 as [|self c self' _ [vs IH] Hrun].
  - eexists. constructor.
  - eexists. by econstructor.
Qed.

Lemma stores_reachable self vs : stores self vs → reachable self.
Proof. induction 1; by econstructor. Qed.

Lemma reachable_wf self : reachable self → wf self.
Proof. intros [vs Hvs]%reachable_stores. by apply stores_wf in Hvs as []. Qed.

Lemma wf_layer_below self layer :
  wf self → layer_below (nodes_ self) (length (nodes_ self)) layer.
Proof.
  intros Hwf v l u Hl Hu. apply (on_layer_lt _ layer).
  by eapply (wf_closed _ Hwf).
Qed.

Lemma search_spec self query k :
  wf self → length query = dimensions_ self → num_vectors_ self ≠ 0 →
  dimensions_ self ≠ 0 →
  let k' := k `min` num_vectors_ self in
  let ef := ef_search_ self `max` k' in
  ∃ curr candidates,
    greedy_descent (dimensions_ self) (data_ self) (nodes_ self) query
      (entry_point_ self) (layers_down (max_layer_ self) 0) = Some curr ∧
    search_layer (dimensions_ self) (data_ self) (nodes_ self) query
      curr ef 0 = Some candidates ∧
    search_result (dimensions_ self) (data_ self) query ef
      (old (nodes_ self) (length (nodes_ self)) 0) candidates ∧
    search self query k =
      Return self
        ((λ c, (SearchCandidate.id c, SearchCandidate.distance c))
           <$> take k' candidates).
Proof.
  intros Hwf Hq Hn Hdim k' ef.
  pose proof Hwf as [Hdata Hnodes Hclosed _ Hentry _].
  specialize (Hentry Hn).
  assert (length (nodes_ self) * dimensions_ self ≤ length (data_ self))
    as Hrows by (rewrite Hnodes; lia).
  destruct (greedy_descent_spec (dimensions_ self) (data_ self)
              (length (nodes_ self)) Hrows Hdim (nodes_ self)
              (length (nodes_ self)) query
              (layers_down (max_layer_ self) 0)
              (entry_point_ self) (max_layer_ self))
    as (curr & Hdesc & Hcurr & Hcurr_on).
  - done.
  - apply layers_down_sorted.
  - intros layer Hl%elem_of_layers_down.
    split_and!; [lia|done|by apply wf_layer_below].
  - done.
  - by eapply on_layer_lt.
  - destruct (search_layer_old (dimensions_ self) (data_ self)
                (length (nodes_ self)) Hrows Hdim (nodes_ self)
                (length (nodes_ self)) query curr ef 0)
      as (candidates & Hsearch & Hres);
      [done|done|by apply wf_layer_below| |done|].
    { apply Hcurr_on; [lia|]. intros lc ?%elem_of_layers_down. lia. }
    exists curr, candidates. split_and!; [done..|].
    unfold search. rewrite decide_False by (by intros ?).
    rewrite decide_False by done. rewrite Hdesc. cbn [mbind option_bind].
    fold k'. fold ef. by rewrite Hsearch.
Qed.

(** the descent of [search] ends on a node *)
Lemma search_descent self query curr :
  wf self → num_vectors_ self ≠ 0 → dimensions_ self ≠ 0 →
  greedy_descent (dimensions_ self) (data_ self) (nodes_ self) query
    (entry_point_ self) (layers_down (max_layer_ self) 0) = Some curr →
  on_layer (nodes_ self) 0 curr.
Proof.
  intros Hwf Hn Hdim Hdesc.
  pose proof Hwf as [Hdata Hnodes Hclosed _ Hentry _].
  specialize (Hentry Hn).
  assert (length (nodes_ self) * dimensions_ self ≤ length (data_ self))
    as Hrows by (rewrite Hnodes; lia).
  destruct (greedy_descent_spec (dimensions_ self) (data_ self)
              (length (nodes_ self)) Hrows Hdim (nodes_ self)
              (length (nodes_ self)) query
              (layers_down (max_layer_ self) 0)
              (entry_point_ self) (max_layer_ self))
    as (curr' & Hdesc' & Hcurr & Hcurr_on).
  - done.
  - apply layers_down_sorted.
  - intros layer Hl%elem_of_layers_down.
    split_and!; [lia|done|by apply wf_layer_below].
  - done.
  - by eapply on_layer_lt.
  - rewrite Hdesc in Hdesc'. injection Hdesc' as <-.
    apply Hcurr_on; [lia|]. intros lc ?%elem_of_layers_down. lia.
Qed.

(** Where [<] orders the distances from the query, the candidates of a
    layer come nearest first. *)
Lemma search_sorted self query curr ef layer candidates :
  wf self → dimensions_ self ≠ 0 →
  on_layer (nodes_ self) layer curr →
  ordered_floats (distances_to (dimensions_ self) (data_ self) query
                    (num_vectors_ self)) →
  search_layer (dimensions_ self) (data_ self) (nodes_ self) query
    curr ef layer = Some candidates →
  ascending SearchCandidate.lt candidates.
Proof.
  intros Hwf Hdim Hon Hds Hsearch.
  pose proof Hwf as [Hdata Hnodes Hclosed _ _ _].
  assert (length (nodes_ self) * dimensions_ self ≤ length (data_ self))
    as Hrows by (rewrite Hnodes; lia).
  apply (search_layer_old_sorted (dimensions_ self) (data_ self)
           (length (nodes_ self)) Hrows Hdim (nodes_ self)
           (length (nodes_ self)) query curr ef layer
           (distances_to (dimensions_ self) (data_ self) query
              (num_vectors_ self)) candidates);
    [done|done|by apply wf_layer_below|done|by eapply on_layer_lt
    |exact Hds| |done].
  intros u d Hu Hd. apply (elem_of_distances_to _ _ _ _ u); [|done].
  by rewrite <-Hnodes.
Qed.

(** With rows of no floats, [search] on an index that holds a vector
    takes the address of an element of the empty arena. *)
Lemma search_undefined self query k :
  wf self → length query = dimensions_ self →
  dimensions_ self = 0 → num_vectors_ self ≠ 0 →
  search self query k = Undefined.
Proof.
  intros Hwf Hq Hd Hn. unfold search.
  rewrite decide_False by (by intros ?). rewrite decide_False by done.
  rewrite (wf_data_empty self Hwf Hd).
  destruct (greedy_descent _ _ _ _ _ _) as [curr|]; [|done].
  cbn [mbind option_bind]. by rewrite search_layer_empty.
Qed.

(** [search] returns after a walk of the graph only where the rows have
    floats. *)
Lemma search_returns self query k res self' :
  wf self → search self query k = Return self' res →
  length query = dimensions_ self ∧
  (num_vectors_ self ≠ 0 → dimensions_ self ≠ 0).
Proof.
  intros Hwf Hsearch.
  destruct (decide (length query = dimensions_ self)) as [Hq|Hq]; last first.
  { unfold search in Hsearch. by rewrite decide_True in Hsearch. }
  split; [done|]. intros Hn Hd.
  by rewrite search_undefined in Hsearch.
Qed.
End proofs.
End Insert.
Module ReferenceProofs.
Import reference.
Section key.
Context {A : Type} (comp : A → A → bool) (key : A → Z).
Hypothesis Hkey : ∀ a b, comp a b = (key a <? key b)%Z.

Lemma linear_insert_Permutation x l : linear_insert comp x l ≡ₚ x :: l.
Proof.
  induction l as [|y l IH]; simpl; [done|].
  destruct (comp x y); [done|]. by rewrite IH, Permutation_swap.
Qed.

Lemma linear_insert_sorted x l :
  StronglySorted (λ a b, (key a ≤ key b)%Z) l →
  StronglySorted (λ a b, (key a ≤ key b)%Z) (linear_insert comp x l).
Proof.
  induction 1 as [|y l Hl IH Hy]; simpl; [by repeat constructor|].
  rewrite Hkey. destruct (Z.ltb_spec (key x) (key y)) as [Hlt|Hge].
  - constructor; [by constructor|]. constructor; [lia|].
    eapply Forall_impl; [done|]. simpl. lia.
  - constructor; [done|]. rewrite linear_insert_Permutation.
    by constructor.
Qed.

Lemma insertion_sort_spec l :
  insertion_sort comp l ≡ₚ l ∧
  StronglySorted (λ a b, (key a ≤ key b)%Z) (insertion_sort comp l).
Proof.
  unfold insertion_sort.
  assert (∀ acc, StronglySorted (λ a b, (key a ≤ key b)%Z) acc →
            foldl (λ sorted x, linear_insert comp x sorted) acc l ≡ₚ acc ++ l ∧
            StronglySorted (λ a b, (key a ≤ key b)%Z)
              (foldl (λ sorted x, linear_insert comp x sorted) acc l)) as H.
  { induction l as [|x l IH]; intros acc Hacc; simpl.
    - by rewrite app_nil_r.
    - destruct (IH (linear_insert comp x acc)) as [Hp Hs];
        [by apply linear_insert_sorted|].
      split; [|done]. rewrite Hp, linear_insert_Permutation.
      simpl. apply Permutation_middle. }
  apply (H []). constructor.
Qed.

Lemma StronglySorted_lookup (R : A → A → Prop) l i j x y :
  StronglySorted R l → i < j → l !! i = Some x → l !! j = Some y → R x y.
Proof.
  intros Hl. revert i j. induction Hl as [|z l _ IH Hz]; intros i j Hij Hx Hy.
  - done.
  - destruct j as [|j]; [lia|]. destruct i as [|i]; simplify_eq/=.
    + rewrite Forall_forall in Hz. by eapply Hz, list_elem_of_lookup_2.
    + apply (IH i j); [lia|done..].
Qed.

Lemma sorted_ascending l :
  StronglySorted (λ a b, (key a ≤ key b)%Z) l → ascending comp l.
Proof.
  intros Hl i j x y Hij Hx Hy. rewrite Hkey.
  pose proof (StronglySorted_lookup _ l i j x y Hl Hij Hx Hy). simpl in *.
  apply Z.ltb_ge. lia.
Qed.

Lemma at_positions_Some l i j x y :
  l !! i = Some x → l !! j = Some y → at_positions comp l i j = comp x y.
Proof. unfold at_positions. by intros -> ->. Qed.

Lemma ordered_until_spec k l i j x y :
  ordered_until comp k l = true →
  i < k → i < j → l !! i = Some x → l !! j = Some y → comp y x = false.
Proof.
  unfold ordered_until. rewrite forallb_forall. intros Hall Hik Hij Hx Hy.
  specialize (Hall i). rewrite forallb_forall in Hall.
  assert (j < length l) by by eapply lookup_lt_Some.
  specialize (Hall ltac:(apply in_seq; lia) j ltac:(apply in_seq; lia)).
  rewrite (at_positions_Some l j i y x) in Hall by done.
  by apply negb_true_iff in Hall.
Qed.

Lemma heap_parent l i x y :
  is_heap_bool comp l = true → 1 ≤ i →
  l !! ((i - 1) `div` 2) = Some x → l !! i = Some y → comp x y = false.
Proof.
  unfold is_heap_bool. rewrite forallb_forall. intros Hall Hi Hx Hy.
  assert (i < length l) by by eapply lookup_lt_Some.
  specialize (Hall i ltac:(apply in_seq; lia)).
  rewrite (at_positions_Some l _ i x y) in Hall by done.
  by apply negb_true_iff in Hall.
Qed.

(** the first element of a heap is not less than any other *)
Lemma heap_front x l y :
  is_heap_bool comp (x :: l) = true → y ∈ l → comp x y = false.
Proof.
  intros Hheap Hy.
  assert (∀ i z, (x :: l) !! i = Some z → (key z ≤ key x)%Z) as Hle.
  { intros i. induction (lt_wf i) as [i _ IH]. intros z Hz.
    destruct (decide (i = 0)) as [->|Hi]; [by simplify_eq/=|].
    assert ((i - 1) `div` 2 < i) as Hp.
    { apply Nat.Div0.div_lt_upper_bound. lia. }
    destruct (lookup_lt_is_Some_2 (x :: l) ((i - 1) `div` 2)) as [p Hpz].
    { apply lookup_lt_Some in Hz. lia. }
    specialize (IH _ Hp p Hpz).
    pose proof (heap_parent _ i p z Hheap ltac:(lia) Hpz Hz) as Hc.
    rewrite Hkey in Hc. apply Z.ltb_ge in Hc. lia. }
  apply list_elem_of_lookup in Hy as [i Hi].
  specialize (Hle (S i) y Hi). rewrite Hkey. apply Z.ltb_ge. lia.
Qed.

(** a descending list is a heap *)
Lemma descending_is_heap l :
  StronglySorted (λ a b, (key b ≤ key a)%Z) l → is_heap_bool comp l = true.
Proof.
  intros Hl. unfold is_heap_bool. apply forallb_forall. intros i Hi%in_seq.
  assert ((i - 1) `div` 2 < i) as Hp.
  { apply Nat.Div0.div_lt_upper_bound. lia. }
  destruct (lookup_lt_is_Some_2 l ((i - 1) `div` 2)) as [p Hpz]; [lia|].
  destruct (lookup_lt_is_Some_2 l i) as [z Hz]; [lia|].
  rewrite (at_positions_Some l _ i p z) by done.
  pose proof (StronglySorted_lookup _ l _ i p z Hl Hp Hpz Hz). simpl in *.
  rewrite Hkey. apply negb_true_iff, Z.ltb_ge. lia.
Qed.
End key.

Lemma StronglySorted_mono {A} (R R' : A → A → Prop) l :
  (∀ a b, R a b → R' a b) → StronglySorted R l → StronglySorted R' l.
Proof.
  intros HR. induction 1 as [|x l _ IH Hx]; constructor; [done|].
  eapply Forall_impl; [done|]. by auto.
Qed.

Lemma is_permutation_spec n perm :
  is_permutation n perm = true → perm ≡ₚ seq 0 n.
Proof.
  unfold is_permutation. intros Heq%bool_decide_eq_true.
  rewrite <-Heq. symmetry.
  apply (insertion_sort_spec Nat.ltb Z.of_nat). intros a b.
  destruct (Nat.ltb_spec a b), (Z.ltb_spec (Z.of_nat a) (Z.of_nat b)); lia.
Qed.

Lemma permute_seq {A} (l : list A) : permute l (seq 0 (length l)) = l.
Proof.
  unfold permute.
  assert (∀ n s, s + n = length l →
            omap (λ i, l !! i) (seq s n) = drop s l) as H.
  { induction n as [|n IH]; intros s Hs; simpl.
    - by rewrite drop_ge by lia.
    - destruct (lookup_lt_is_Some_2 l s) as [x Hx]; [lia|].
      rewrite Hx. rewrite IH by lia. symmetry. by apply drop_S. }
  by rewrite (H (length l) 0).
Qed.

Lemma permute_Permutation {A} (l : list A) perm :
  perm ≡ₚ seq 0 (length l) → permute l perm ≡ₚ l.
Proof.
  intros Hp. rewrite <-(permute_seq l) at 2. unfold permute. by rewrite Hp.
Qed.

Lemma permute_app {A} (l : list A) p1 p2 :
  permute l (p1 ++ p2) = permute l p1 ++ permute l p2.
Proof. apply omap_app. Qed.

Section contracts.
Context (simd : SimdPath).
Local Abbreviation P := (platform simd).

(** On this platform the comparators compare integer keys. *)
Lemma float_order_key {A} (comp : A → A → bool) :
  @float_order P A comp → ∃ key : A → Z, ∀ a b, comp a b = (key a <? key b)%Z.
Proof.
  intros [key [Hk|Hk]].
  - by exists key.
  - exists (λ a, (- key a)%Z). intros a b. rewrite Hk. simpl.
    destruct (Z.ltb_spec (key b) (key a)), (Z.ltb_spec (- key a) (- key b));
      lia.
Qed.

Lemma swapped_key {A} (comp : A → A → bool) (key : A → Z) :
  (∀ a b, comp a b = (key a <? key b)%Z) →
  ∀ a b, swapped comp a b = ((λ a, - key a) a <? (λ a, - key a) b)%Z.
Proof.
  intros Hk a b. unfold swapped. rewrite Hk.
  destruct (Z.ltb_spec (key b) (key a)), (Z.ltb_spec (- key a) (- key b));
    lia.
Qed.

Lemma descending_sort_heap {A} (comp : A → A → bool) (key : A → Z) l :
  (∀ a b, comp a b = (key a <? key b)%Z) →
  insertion_sort (swapped comp) l ≡ₚ l ∧
  is_heap_bool comp (insertion_sort (swapped comp) l) = true.
Proof.
  intros Hk.
  destruct (insertion_sort_spec (swapped comp) _ (swapped_key comp key Hk) l)
    as [Hp Hs].
  split; [done|]. apply (descending_is_heap comp key Hk).
  eapply StronglySorted_mono, Hs. simpl. lia.
Qed.

Lemma partial_sort_contract {A} (comp : A → A → bool) k l :
  @float_order P A comp → k ≤ length l →
  partial_sort_post comp k l (partial_sort comp k l).
Proof.
  intros [key Hk]%float_order_key Hle. unfold partial_sort.
  destruct (is_permutation _ _ && _) eqn:Hcheck.
  - apply andb_true_iff in Hcheck as [Hperm Hord]. split.
    + by apply permute_Permutation, is_permutation_spec.
    + intros i j x y. by apply ordered_until_spec.
  - destruct (insertion_sort_spec comp key Hk l) as [Hp Hs]. split; [done|].
    intros i j x y _. by apply (sorted_ascending comp key Hk).
Qed.

Lemma sort_contract {A} (comp : A → A → bool) l :
  @float_order P A comp → sort_post comp l (insertion_sort comp l).
Proof.
  intros [key Hk]%float_order_key.
  destruct (insertion_sort_spec comp key Hk l) as [Hp Hs]. split; [done|].
  by apply (sorted_ascending comp key Hk).
Qed.

Lemma push_heap_contract {A} (comp : A → A → bool) l x :
  @float_order P A comp →
  is_heap_bool comp (push_heap comp (l ++ [x])) = true ∧
  push_heap comp (l ++ [x]) ≡ₚ x :: l.
Proof.
  intros [key Hk]%float_order_key. unfold push_heap.
  destruct (is_permutation _ _ && _) eqn:Hcheck.
  - apply andb_true_iff in Hcheck as [Hperm Hheap]. split; [done|].
    rewrite permute_Permutation by by apply is_permutation_spec.
    by rewrite <-Permutation_cons_append.
  - destruct (descending_sort_heap comp key (l ++ [x]) Hk) as [Hp Hh].
    split; [done|]. by rewrite Hp, <-Permutation_cons_append.
Qed.

Lemma pop_heap_contract {A} (comp : A → A → bool) x l :
  @float_order P A comp →
  ∃ l', pop_heap comp (x :: l) = l' ++ [x] ∧
        is_heap_bool comp l' = true ∧ l' ≡ₚ l.
Proof.
  intros [key Hk]%float_order_key. unfold pop_heap.
  destruct (is_permutation _ _ && _ && _) eqn:Hcheck.
  - apply andb_true_iff in Hcheck as [[Hperm Hlast]%andb_true_iff Hheap].
    apply is_permutation_spec in Hperm.
    apply bool_decide_eq_true, last_Some in Hlast as [perm' Hperm'].
    rewrite Hperm' in Hperm, Hheap |- *.
    pose proof (permute_Permutation (x :: l) _ Hperm) as Hp.
    rewrite permute_app in Hp, Hheap |- *.
    change (permute (x :: l) [0]) with [x] in *.
    exists (permute (x :: l) perm').
    assert (permute (x :: l) perm' ≡ₚ l) as Hl.
    { apply (Permutation_app_inv_r [x]). rewrite Hp.
      apply Permutation_cons_append. }
    split_and!; [done| |done].
    rewrite <-Hheap. f_equal. symmetry. apply take_app_length'.
    apply Permutation_length in Hl. simpl. lia.
  - destruct (descending_sort_heap comp key l Hk) as [Hp Hh]. by eauto.
Qed.

(** [<] on integers is a strict weak order: this platform has no NaN. *)
Lemma ordered (ds : list Z) : @ordered_floats P ds.
Proof. intros x y z _ _ _. simpl. rewrite !Z.ltb_ge. lia. Qed.

Lemma contracts : @StdContracts P.
Proof.
  refine {| is_heap := λ A comp l, is_heap_bool comp l = true |}.
  - intros x. apply Z.ltb_irrefl.
  - intros x y z. simpl. rewrite !Z.ltb_lt. lia.
  - intros A comp k l Hc Hk. by apply partial_sort_contract.
  - intros A comp k l Hc Hk _. by apply partial_sort_contract.
  - intros A comp l Hc. by apply sort_contract.
  - intros A comp l Hc _. by apply sort_contract.
  - done.
  - intros A comp x l y [key Hk]%float_order_key _.
    by apply (heap_front comp key Hk).
  - intros A comp l x Hc. by apply push_heap_contract.
  - intros A comp l x Hc _ _. by apply push_heap_contract.
  - intros A comp x l Hc.
    destruct (pop_heap_contract comp x l Hc) as (l' & Hpop & _ & Hperm).
    by eauto.
  - intros A comp x l l' Hc _ _ Hpop.
    destruct (pop_heap_contract comp x l Hc) as (l1 & Hpop1 & Hheap & _).
    change (pop_heap comp (x :: l) = l' ++ [x]) in Hpop.
    rewrite Hpop in Hpop1. by apply app_inj_tail in Hpop1 as [-> _].
Qed.
End contracts.
End ReferenceProofs.

Module NanProofs.
Import reference nan.
Section order.
Context {A : Type} (comp : A → A → bool).

Local Abbreviation sorted := (StronglySorted (λ a b, comp b a = false)).

Lemma swo_bool_true l : strict_weak_order comp l → swo_bool comp l = true.
Proof.
  intros (Hirr & Htrans & Hneg). unfold swo_bool. apply andb_true_iff. split.
  - apply forallb_forall. intros x Hx%list_elem_of_In. by rewrite Hirr.
  - apply forallb_forall. intros x Hx%list_elem_of_In.
    apply forallb_forall. intros y Hy%list_elem_of_In.
    apply forallb_forall. intros z Hz%list_elem_of_In.
    specialize (Htrans x y z Hx Hy Hz). specialize (Hneg x y z Hx Hy Hz).
    destruct (comp x y), (comp y z); simpl;
      first [by rewrite Htrans|by rewrite Hneg|done].
Qed.

Lemma asymmetric l x y :
  strict_weak_order comp l → x ∈ l → y ∈ l →
  comp x y = true → comp y x = false.
Proof.
  intros (Hirr & Htrans & _) Hx Hy Hxy.
  destruct (comp y x) eqn:Hyx; [|done].
  by rewrite <-(Hirr x Hx), (Htrans x y x).
Qed.

Lemma insertion_sort_Permutation l : insertion_sort comp l ≡ₚ l.
Proof.
  unfold insertion_sort.
  assert (∀ acc, foldl (λ sorted x, linear_insert comp x sorted) acc l
                 ≡ₚ acc ++ l) as H.
  { induction l as [|x l IH]; intros acc; simpl; [by rewrite app_nil_r|].
    rewrite IH, ReferenceProofs.linear_insert_Permutation. simpl.
    apply Permutation_middle. }
  apply (H []).
Qed.

Lemma nan_linear_insert_sorted x l :
  strict_weak_order comp (x :: l) → sorted l →
  sorted (linear_insert comp x l).
Proof.
  intros Hswo Hl. induction Hl as [|y l Hl IH Hy]; simpl;
    [by repeat constructor|].
  destruct (comp x y) eqn:Hxy.
  - assert (comp y x = false) as Hyx.
    { apply (asymmetric (x :: y :: l)); [done|by left|by right; left|done]. }
    constructor; [by constructor|]. constructor; [done|].
    rewrite Forall_forall in Hy |- *. intros z Hz.
    destruct Hswo as (_ & _ & Hneg).
    apply (Hneg z y x); [by do 2 right|by right; left|by left|by apply Hy|done].
  - constructor.
    + apply IH. apply (strict_weak_order_subseteq _ _ (x :: y :: l)); [|done].
      intros z [->|Hz]%elem_of_cons; [by left|by do 2 right].
    + rewrite ReferenceProofs.linear_insert_Permutation. by constructor.
Qed.

Lemma insertion_sort_sorted l :
  strict_weak_order comp l → sorted (insertion_sort comp l).
Proof.
  unfold insertion_sort.
  assert (∀ acc, strict_weak_order comp (acc ++ l) → sorted acc →
            sorted (foldl (λ sorted x, linear_insert comp x sorted) acc l))
    as H.
  { induction l as [|x l IH]; intros acc Hswo Hacc; simpl; [done|].
    apply IH.
    - apply (strict_weak_order_subseteq _ _ (acc ++ x :: l)); [|done].
      intros z. rewrite !elem_of_app, ReferenceProofs.linear_insert_Permutation.
      rewrite !elem_of_cons. tauto.
    - apply nan_linear_insert_sorted; [|done].
      apply (strict_weak_order_subseteq _ _ (acc ++ x :: l)); [|done].
      intros z. rewrite elem_of_app, !elem_of_cons. tauto. }
  intros Hswo. apply (H []); [done|constructor].
Qed.

Lemma nan_sorted_ascending l : sorted l → ascending comp l.
Proof.
  intros Hl i j x y Hij Hx Hy.
  exact (ReferenceProofs.StronglySorted_lookup _ l i j x y Hl Hij Hx Hy).
Qed.

Lemma nan_heap_front x l y :
  strict_weak_order comp (x :: l) →
  is_heap_bool comp (x :: l) = true → y ∈ l → comp x y = false.
Proof.
  intros Hswo Hheap Hy.
  assert (∀ i z, (x :: l) !! i = Some z → comp x z = false) as Hle.
  { intros i. induction (lt_wf i) as [i _ IH]. intros z Hz.
    destruct (decide (i = 0)) as [->|Hi].
    { simplify_eq/=. apply Hswo. by left. }
    assert ((i - 1) `div` 2 < i) as Hp.
    { apply Nat.Div0.div_lt_upper_bound. lia. }
    destruct (lookup_lt_is_Some_2 (x :: l) ((i - 1) `div` 2)) as [p Hpz].
    { apply lookup_lt_Some in Hz. lia. }
    specialize (IH _ Hp p Hpz).
    pose proof (ReferenceProofs.heap_parent comp _ i p z Hheap ltac:(lia)
                  Hpz Hz) as Hc.
    destruct Hswo as (_ & _ & Hneg).
    apply (Hneg x p z); [by left|by eapply list_elem_of_lookup_2..|done|done]. }
  apply list_elem_of_lookup in Hy as [i Hi].
  by apply (Hle (S i) y).
Qed.

(** a descending list is a heap *)
Lemma nan_descending_is_heap l :
  StronglySorted (λ a b, comp a b = false) l → is_heap_bool comp l = true.
Proof.
  intros Hl. unfold is_heap_bool. apply forallb_forall. intros i Hi%in_seq.
  assert ((i - 1) `div` 2 < i) as Hp.
  { apply Nat.Div0.div_lt_upper_bound. lia. }
  destruct (lookup_lt_is_Some_2 l ((i - 1) `div` 2)) as [p Hpz]; [lia|].
  destruct (lookup_lt_is_Some_2 l i) as [z Hz]; [lia|].
  rewrite (ReferenceProofs.at_positions_Some comp l _ i p z) by done.
  pose proof (ReferenceProofs.StronglySorted_lookup _ l _ i p z Hl Hp Hpz Hz)
    as Hc.
  simpl in Hc. by rewrite Hc.
Qed.

Lemma unguarded_linear_insert_Permutation val before :
  unguarded_linear_insert comp val before ≡ₚ val :: before.
Proof.
  induction before as [|next rest IH]; simpl; [done|].
  destruct (comp val next); [|done]. by rewrite IH, Permutation_swap.
Qed.

Lemma insertion_step_Permutation l val :
  insertion_step comp l val ≡ₚ val :: l.
Proof.
  unfold insertion_step. destruct l as [|first l]; [done|].
  destruct (comp val first); [done|].
  by rewrite reverse_Permutation, unguarded_linear_insert_Permutation,
    reverse_Permutation.
Qed.

Lemma __insertion_sort_Permutation l : __insertion_sort comp l ≡ₚ l.
Proof.
  unfold __insertion_sort.
  assert (∀ acc, foldl (insertion_step comp) acc l ≡ₚ acc ++ l) as H.
  { induction l as [|x l IH]; intros acc; simpl; [by rewrite app_nil_r|].
    rewrite IH, insertion_step_Permutation. simpl. apply Permutation_middle. }
  apply (H []).
Qed.
End order.

Lemma strict_weak_order_swapped {A} (comp : A → A → bool) l :
  strict_weak_order comp l → strict_weak_order (swapped comp) l.
Proof.
  intros (Hirr & Htrans & Hneg). unfold swapped. split_and!.
  - done.
  - intros x y z Hx Hy Hz Hxy Hyz. by apply (Htrans z y x).
  - intros x y z Hx Hy Hz Hxy Hyz. by apply (Hneg z y x).
Qed.

(** the fallback of the heap routines is a heap *)
Lemma nan_descending_sort_heap {A} (comp : A → A → bool) l :
  strict_weak_order comp l →
  is_heap_bool comp (insertion_sort (swapped comp) l) = true.
Proof.
  intros Hswo. apply nan_descending_is_heap.
  apply (insertion_sort_sorted (swapped comp)).
  by apply strict_weak_order_swapped.
Qed.

Section contracts.
Context (simd : SimdPath).
Local Abbreviation P := (platform simd).

Lemma partial_sort_perm {A} (comp : A → A → bool) k l :
  partial_sort comp k l ≡ₚ l.
Proof.
  unfold partial_sort. destruct (is_permutation _ _ && _) eqn:Hcheck.
  - apply andb_true_iff in Hcheck as [Hperm _].
    by apply ReferenceProofs.permute_Permutation,
      ReferenceProofs.is_permutation_spec.
  - apply insertion_sort_Permutation.
Qed.

Lemma partial_sort_ordered {A} (comp : A → A → bool) k l :
  strict_weak_order comp l →
  ∀ i j x y, i < k → i < j → partial_sort comp k l !! i = Some x →
             partial_sort comp k l !! j = Some y → comp y x = false.
Proof.
  intros Hswo. unfold partial_sort. rewrite (swo_bool_true comp l Hswo).
  cbn [negb]. rewrite orb_false_r.
  destruct (is_permutation _ _ && _) eqn:Hcheck.
  - apply andb_true_iff in Hcheck as [_ Hord]. intros i j x y.
    by apply ReferenceProofs.ordered_until_spec.
  - intros i j x y _.
    by apply (nan_sorted_ascending comp), insertion_sort_sorted.
Qed.

Lemma sort_perm {A} (comp : A → A → bool) l : sort comp l ≡ₚ l.
Proof.
  unfold sort. destruct (_ || _).
  - apply __insertion_sort_Permutation.
  - apply insertion_sort_Permutation.
Qed.

Lemma sort_ordered {A} (comp : A → A → bool) l :
  strict_weak_order comp l → ascending comp (sort comp l).
Proof.
  intros Hswo. unfold sort. rewrite (swo_bool_true comp l Hswo).
  cbn [negb]. rewrite orb_false_r.
  destruct (ordered_until _ _ _) eqn:Hcheck.
  - intros i j x y Hij Hx Hy.
    apply (ReferenceProofs.ordered_until_spec comp _ _ i j x y Hcheck);
      [by eapply lookup_lt_Some|done..].
  - by apply (nan_sorted_ascending comp), insertion_sort_sorted.
Qed.

Lemma push_heap_perm {A} (comp : A → A → bool) l : push_heap comp l ≡ₚ l.
Proof.
  unfold push_heap. destruct (is_permutation _ _ && _) eqn:Hcheck.
  - apply andb_true_iff in Hcheck as [Hperm _].
    by apply ReferenceProofs.permute_Permutation,
      ReferenceProofs.is_permutation_spec.
  - apply insertion_sort_Permutation.
Qed.

Lemma push_heap_heap {A} (comp : A → A → bool) l x :
  strict_weak_order comp (l ++ [x]) → is_heap_bool comp l = true →
  is_heap_bool comp (push_heap comp (l ++ [x])) = true.
Proof.
  intros Hswo Hheap. unfold push_heap.
  rewrite (swo_bool_true comp _ Hswo).
  replace (take (length (l ++ [x]) - 1) (l ++ [x])) with l; last first.
  { rewrite length_app. simpl.
    replace (length l + 1 - 1) with (length l) by lia.
    by rewrite take_app_length. }
  rewrite Hheap. cbn [negb]. rewrite !orb_false_r.
  destruct (is_permutation _ _ && _) eqn:Hcheck.
  - by apply andb_true_iff in Hcheck as [_ ?].
  - by apply nan_descending_sort_heap.
Qed.

Lemma pop_heap_perm {A} (comp : A → A → bool) x l :
  ∃ l', pop_heap comp (x :: l) = l' ++ [x] ∧ l' ≡ₚ l.
Proof.
  unfold pop_heap. destruct (is_permutation _ _ && _ && _) eqn:Hcheck.
  - apply andb_true_iff in Hcheck as [[Hperm Hlast]%andb_true_iff _].
    apply ReferenceProofs.is_permutation_spec in Hperm.
    apply bool_decide_eq_true, last_Some in Hlast as [perm' Hperm'].
    rewrite Hperm' in Hperm |- *.
    pose proof (ReferenceProofs.permute_Permutation (x :: l) _ Hperm) as Hp.
    rewrite ReferenceProofs.permute_app in Hp |- *.
    change (permute (x :: l) [0]) with [x] in *.
    exists (permute (x :: l) perm'). split; [done|].
    apply (Permutation_app_inv_r [x]). rewrite Hp.
    apply Permutation_cons_append.
  - eexists. split; [done|]. apply insertion_sort_Permutation.
Qed.

Lemma pop_heap_heap {A} (comp : A → A → bool) x l l' :
  strict_weak_order comp (x :: l) → is_heap_bool comp (x :: l) = true →
  pop_heap comp (x :: l) = l' ++ [x] → is_heap_bool comp l' = true.
Proof.
  intros Hswo Hheap. unfold pop_heap.
  rewrite (swo_bool_true comp _ Hswo), Hheap. cbn [negb].
  rewrite !orb_false_r.
  destruct (is_permutation _ _ && _ && _) eqn:Hcheck.
  - apply andb_true_iff in Hcheck as [[Hperm _]%andb_true_iff Hh].
    apply ReferenceProofs.is_permutation_spec in Hperm.
    pose proof (ReferenceProofs.permute_Permutation (x :: l) _ Hperm) as Hp.
    intros Hout. rewrite Hout in Hh, Hp.
    apply Permutation_length in Hp. rewrite length_app in Hp.
    cbn [length] in Hp, Hh.
    replace (S (length l) - 1) with (length l') in Hh by lia.
    by rewrite take_app_length in Hh.
  - intros [<- _]%app_inj_tail. apply nan_descending_sort_heap.
    apply (strict_weak_order_subseteq _ _ (x :: l)); [|done].
    intros z Hz. by right.
Qed.
Lemma nan_contracts : @StdContracts P.
Proof.
  refine {| is_heap := λ A comp l, is_heap_bool comp l = true |}.
  - intros [|x]; [done|]. apply Z.ltb_irrefl.
  - intros [|x] [|y] [|z]; simpl; try done. rewrite !Z.ltb_lt. lia.
  - intros A comp k l _ _. apply partial_sort_perm.
  - intros A comp k l _ _ Hswo.
    split; [apply partial_sort_perm|by apply partial_sort_ordered].
  - intros A comp l _. apply sort_perm.
  - intros A comp l _ Hswo. split; [apply sort_perm|by apply sort_ordered].
  - done.
  - intros A comp x l y _ Hswo. by apply nan_heap_front.
  - intros A comp l x _.
    trans (l ++ [x]); [apply push_heap_perm|].
    by rewrite <-Permutation_cons_append.
  - intros A comp l x _ Hswo Hheap. apply push_heap_heap; [|done].
    apply (strict_weak_order_subseteq _ _ (x :: l)); [|done].
    intros z [Hz| ->%list_elem_of_singleton]%elem_of_app;
      [by right|by left].
  - intros A comp x l _. apply pop_heap_perm.
  - intros A comp x l l' _ Hswo Hheap Hpop.
    by apply (pop_heap_heap comp x l l').
Qed.
End contracts.
End NanProofs.

(** * The claims *)

Lemma brute_force_example_stores :
  VectorBatchInserter.stores examples.brute_force examples.three_vectors.
Proof.
  exact (VectorBatchInserter.stores_run (VectorBatchInserter.new 1) []
           (VectorBatchInserter.call_add_batch examples.three_vectors)
           examples.brute_force (VectorBatchInserter.stores_new 1) eq_refl).
Qed.

Lemma hnsw_four_stores :
  HNSWIndex.stores examples.hnsw_four examples.four_vectors.
Proof.
  exact (HNSWIndex.stores_run examples.hnsw_empty []
           (HNSWIndex.call_add_batch examples.four_vectors)
           examples.hnsw_four (HNSWIndex.stores_new 1 10 1 200) eq_refl).
Qed.

Lemma brute_force_search_reachable `{Platform}
    (self : VectorBatchInserter.t) (query : list float) (k : nat) :
  VectorBatchInserter.reachable self →
  length query = VectorBatchInserter.dimensions_ self →
  VectorBatchInserter.dimensions_ self ≠ 0 ∨
    VectorBatchInserter.num_vectors_ self = 0 →
  ∃ res, VectorBatchInserter.search self query k = Return self res.
Proof.
  intros [vs Hvs]%BruteForce.reachable_stores_bf Hq Hdim.
  apply BruteForce.stores_arena_bf in Hvs.
  by apply (BruteForce.search_total self vs).
Qed.

(** C1, as amended.  For every stored dataset of dimension at least 1,
    every query of length [dim] whose distances to the stored vectors [<]
    orders (none of them is NaN) and every [k], the brute-force
    [search(query, k)] returns [min(k, len())] pairs [(id, distance)], the
    ids distinct and each with its squared-L2 distance to the query, in
    ascending distance order, and no vector left out is nearer than one
    returned.  The order among equal distances is what
    [std::partial_sort] leaves. *)
Theorem brute_force_search_top_k `{Platform} `{!StdContracts}
    (self : VectorBatchInserter.t) (query : list float) (k : nat) :
  VectorBatchInserter.reachable self →
  length query = VectorBatchInserter.dimensions_ self →
  VectorBatchInserter.dimensions_ self ≠ 0 →
  ordered_floats (VectorBatchInserter.query_distances self query) →
  ∃ res,
    VectorBatchInserter.search self query k = Return self res ∧
    VectorBatchInserter.top_k (VectorBatchInserter.query_distance self query)
      (VectorBatchInserter.size self) k res.
Proof.
  intros [vs Hvs]%BruteForce.reachable_stores_bf Hq Hdim Hfloats.
  apply BruteForce.stores_arena_bf in Hvs.
  by apply (BruteForce.search_arena self vs).
Qed.

Lemma brute_force_search_top_k_witness :
  ∃ res,
    VectorBatchInserter.search examples.brute_force [0%Z] 2
      = Return examples.brute_force res ∧
    VectorBatchInserter.top_k
      (VectorBatchInserter.query_distance examples.brute_force [0%Z]) 3 2 res.
Proof.
  apply (@brute_force_search_top_k examples.P
           (ReferenceProofs.contracts SCALAR) examples.brute_force [0%Z] 2).
  - exact (BruteForce.stores_reachable_bf _ _ brute_force_example_stores).
  - reflexivity.
  - simpl. lia.
  - apply ReferenceProofs.ordered.
Defined.

Lemma brute_force_example_search :
  VectorBatchInserter.search examples.brute_force [0%Z] 2
  = Return examples.brute_force [(2, 0%Z); (1, 0%Z)].
Proof. reflexivity. Qed.

(** C1 as stated fails: with libstdc++'s [std::partial_sort], three
    vectors at distances 1, 0, 0 and [k = 2] come back as ids 2, 1. *)
Lemma brute_force_ties_counterexample :
  ¬ ∀ (P : Platform) (C : @StdContracts P) (self : VectorBatchInserter.t)
      (query : list float) (k : nat),
      VectorBatchInserter.reachable self →
      length query = VectorBatchInserter.dimensions_ self → 1 ≤ k →
      ∃ res,
        VectorBatchInserter.search self query k = Return self res ∧
        VectorBatchInserter.top_k
          (VectorBatchInserter.query_distance self query)
          (VectorBatchInserter.size self) k res ∧
        VectorBatchInserter.ties_by_id res.
Proof.
  intros Hclaim.
  destruct (Hclaim examples.P (ReferenceProofs.contracts SCALAR)
              examples.brute_force [0%Z] 2)
    as (res & Hres & _ & Hties).
  - exact (BruteForce.stores_reachable_bf _ _ brute_force_example_stores).
  - reflexivity.
  - lia.
  - rewrite brute_force_example_search in Hres. injection Hres as <-.
    specialize (Hties 0 1 (2, 0%Z) (1, 0%Z)). simpl in Hties.
    specialize (Hties ltac:(lia) eq_refl eq_refl eq_refl). lia.
Qed.

Lemma nan_brute_force_reachable :
  VectorBatchInserter.reachable nan_examples.brute_force.
Proof.
  exact (VectorBatchInserter.reachable_run (VectorBatchInserter.new 1)
           (VectorBatchInserter.call_add_batch nan_examples.four_vectors)
           nan_examples.brute_force (VectorBatchInserter.reachable_new 1)
           eq_refl).
Qed.

(** With a NaN among the distances [std::partial_sort] promises no order:
    on the vectors [5], NaN, [1], [0] the two results for the query [[0]]
    are ids 0 and 1, at distances 25 and NaN; the vectors at distances 1
    and 0 are left out. *)
Lemma brute_force_nan_search :
  VectorBatchInserter.search nan_examples.brute_force [nan.num 0] 2
  = Return nan_examples.brute_force [(0, nan.num 25); (1, nan.NaN)].
Proof. reflexivity. Qed.


(** C6.  At every point in the lifetime of either index the flat buffer
    has length [len() * dim], and vector [i] occupies positions
    [[i * dim, (i + 1) * dim)]. *)
Theorem arena_layout `{Platform} `{!StdContracts} :
  (∀ (self : VectorBatchInserter.t) (vs : list (list float)),
     VectorBatchInserter.stores self vs →
     length (VectorBatchInserter.data_ self)
     = VectorBatchInserter.size self * VectorBatchInserter.dimensions self ∧
     VectorBatchInserter.size self = length vs ∧
     ∀ i v, vs !! i = Some v →
       take (VectorBatchInserter.dimensions self)
         (drop (i * VectorBatchInserter.dimensions self)
            (VectorBatchInserter.data_ self)) = v) ∧
  (∀ (self : HNSWIndex.t) (vs : list (list float)),
     HNSWIndex.stores self vs →
     length (HNSWIndex.data_ self)
     = HNSWIndex.size self * HNSWIndex.dimensions self ∧
     HNSWIndex.size self = length vs ∧
     ∀ i v, vs !! i = Some v →
       take (HNSWIndex.dimensions self)
         (drop (i * HNSWIndex.dimensions self) (HNSWIndex.data_ self)) = v).
Proof.
  split.
  - intros self vs (Hn & Hd & Hall)%BruteForce.stores_arena_bf.
    unfold VectorBatchInserter.size, VectorBatchInserter.dimensions.
    split_and!; [|done|].
    + rewrite Hd, Hn. by apply length_concat_uniform.
    + intros i v Hv. rewrite Hd. by apply row_concat_uniform.
  - intros self vs [_ (Hn & Hd & Hall)]%Insert.stores_wf.
    unfold HNSWIndex.size, HNSWIndex.dimensions.
    split_and!; [|done|].
    + rewrite Hd, Hn. by apply length_concat_uniform.
    + intros i v Hv. rewrite Hd. by apply row_concat_uniform.
Qed.

Lemma arena_layout_witness :
  (length (VectorBatchInserter.data_ examples.brute_force) = 3 * 1 ∧
   take 1 (drop (2 * 1) (VectorBatchInserter.data_ examples.brute_force))
   = [0%Z]) ∧
  (length (HNSWIndex.data_ examples.hnsw_four) = 4 * 1 ∧
   take 1 (drop (3 * 1) (HNSWIndex.data_ examples.hnsw_four)) = [10%Z]).
Proof.
  destruct (@arena_layout examples.P (ReferenceProofs.contracts SCALAR))
    as [Hbf Hhnsw].
  destruct (Hbf _ _ brute_force_example_stores) as (Hlen & _ & Hrow).
  destruct (Hhnsw _ _ hnsw_four_stores) as (Hlen' & _ & Hrow').
  split; split.
  - exact Hlen.
  - exact (Hrow 2 [0%Z] eq_refl).
  - exact Hlen'.
  - exact (Hrow' 3 [10%Z] eq_refl).
Defined.

Lemma raises_Raise {S A} (s : S) (e e' : exception) :
  raises (Raise (A:=A) s e) e' ↔ e = e'.
Proof.
  split.
  - by intros [s' [= _ ->]].
  - intros ->. by exists s.
Qed.

Lemma raises_Return {S A} (s : S) (a : A) (e : exception) :
  ¬ raises (Return s a) e.
Proof. by intros [s' ?]. Qed.

Lemma brute_force_add_raises `{Platform} (self : VectorBatchInserter.t)
    (vector : list float) :
  (raises (VectorBatchInserter.add self vector) vector_dimension_mismatch
   ↔ length vector ≠ VectorBatchInserter.dimensions_ self) ∧
  (length vector = VectorBatchInserter.dimensions_ self →
   ∃ self', VectorBatchInserter.add self vector = Return self' ()).
Proof.
  unfold VectorBatchInserter.add. case_decide as Hlen.
  - rewrite raises_Raise. by split.
  - split; [|by eauto]. split; [by intros ?%raises_Return|done].
Qed.

(** [VectorBatchInserter::add_batch] checks every vector before it
    stores any. *)
Lemma brute_force_add_batch_raises `{Platform} (self : VectorBatchInserter.t)
    (vectors : list (list float)) :
  (raises (VectorBatchInserter.add_batch self vectors)
     vector_dimension_mismatch
   ↔ Exists (λ vec, length vec ≠ VectorBatchInserter.dimensions_ self)
       vectors) ∧
  (Exists (λ vec, length vec ≠ VectorBatchInserter.dimensions_ self) vectors →
   VectorBatchInserter.add_batch self vectors
   = Raise self vector_dimension_mismatch) ∧
  (Forall (λ vec, length vec = VectorBatchInserter.dimensions_ self) vectors →
   ∃ self', VectorBatchInserter.add_batch self vectors = Return self' ()).
Proof.
  unfold VectorBatchInserter.add_batch. case_decide as Hex.
  - split_and!; [by rewrite raises_Raise|done|]. intros Hall. exfalso.
    apply Exists_exists in Hex as (vec & Hvec & Hne).
    rewrite Forall_forall in Hall. by apply Hne, Hall.
  - split_and!; [|done|by eauto].
    split; [by intros ?%raises_Return|done].
Qed.

Lemma hnsw_add_raises `{Platform} `{!StdContracts} (self : HNSWIndex.t)
    (vector : list float) :
  HNSWIndex.reachable self →
  (raises (HNSWIndex.add self vector) vector_dimension_mismatch
   ↔ length vector ≠ HNSWIndex.dimensions_ self) ∧
  (length vector = HNSWIndex.dimensions_ self →
   HNSWIndex.dimensions_ self ≠ 0 ∨ HNSWIndex.num_vectors_ self = 0 →
   ∃ self', HNSWIndex.add self vector = Return self' ()).
Proof.
  intros Hwf%Insert.reachable_wf.
  destruct (Insert.add_outcome self vector Hwf)
    as [[Hv ->]|[(Hv & Hd & Hn & ->)|(Hv & _ & self' & -> & _)]].
  - rewrite raises_Raise. by split.
  - split; [|by intros _ [?|?]]. split; [by intros [? ?]|done].
  - split; [|by eauto]. split; [by intros ?%raises_Return|done].
Qed.

Lemma brute_force_search_raises `{Platform}
    (self : VectorBatchInserter.t) (query : list float) (k : nat) :
  VectorBatchInserter.reachable self →
  (raises (VectorBatchInserter.search self query k) query_dimension_mismatch
   ↔ length query ≠ VectorBatchInserter.dimensions_ self) ∧
  (length query = VectorBatchInserter.dimensions_ self →
   VectorBatchInserter.dimensions_ self ≠ 0 ∨
     VectorBatchInserter.num_vectors_ self = 0 →
   ∃ res, VectorBatchInserter.search self query k = Return self res).
Proof.
  intros Hreach.
  destruct (decide (length query = VectorBatchInserter.dimensions_ self))
    as [Hq|Hq].
  - split; [|by apply brute_force_search_reachable].
    split; [|done]. intros [s Hs]. unfold VectorBatchInserter.search in Hs.
    rewrite decide_False in Hs by (by intros ?).
    case_decide; [done|].
    by destruct (VectorBatchInserter.all_distances self query).
  - unfold VectorBatchInserter.search. rewrite decide_True by done.
    rewrite raises_Raise. by split.
Qed.

Lemma hnsw_search_raises `{Platform} `{!StdContracts}
    (self : HNSWIndex.t) (query : list float) (k : nat) :
  HNSWIndex.reachable self →
  (raises (HNSWIndex.search self query k) query_dimension_mismatch
   ↔ length query ≠ HNSWIndex.dimensions_ self) ∧
  (length query = HNSWIndex.dimensions_ self →
   HNSWIndex.dimensions_ self ≠ 0 ∨ HNSWIndex.num_vectors_ self = 0 →
   ∃ res, HNSWIndex.search self query k = Return self res).
Proof.
  intros Hwf%Insert.reachable_wf.
  destruct (decide (length query = HNSWIndex.dimensions_ self)) as [Hq|Hq].
  - split.
    + split; [|done]. intros [s Hs]. unfold HNSWIndex.search in Hs.
      rewrite decide_False in Hs by (by intros ?).
      case_decide; [done|]. by destruct (_ ≫= _).
    + intros _ Hdim.
      destruct (decide (HNSWIndex.num_vectors_ self = 0)) as [Hz|Hnz].
      * unfold HNSWIndex.search. rewrite decide_False by (by intros ?).
        rewrite decide_True by done. by eauto.
      * destruct Hdim as [Hdim|?]; [|done].
        destruct (Insert.search_spec self query k Hwf Hq Hnz Hdim)
          as (curr & cands & _ & _ & _ & Hres). by eauto.
  - unfold HNSWIndex.search. rewrite decide_True by done.
    rewrite raises_Raise. by split.
Qed.

(** [HNSWIndex::add_batch] throws only from an [add] of a vector of the
    wrong length. *)
Lemma hnsw_add_batch_raises `{Platform} `{!StdContracts}
    (self self' : HNSWIndex.t) (vectors : list (list float)) e :
  HNSWIndex.wf self →
  HNSWIndex.add_batch self vectors = Raise self' e →
  e = vector_dimension_mismatch ∧
  Exists (λ vec, length vec ≠ HNSWIndex.dimensions_ self) vectors.
Proof.
  revert self. induction vectors as [|vec rest IH]; intros self Hwf Hbatch;
    [done|].
  cbn [HNSWIndex.add_batch] in Hbatch.
  destruct (HNSWIndex.add self vec) as [self1 []|self1 e1|] eqn:Hadd;
    [| |done].
  - apply Insert.add_returns in Hadd
      as (_ & _ & Hwf1 & _ & _ & [Hdim1 _] & _); [|done].
    destruct (IH self1 Hwf1 Hbatch) as [-> Hex]. rewrite Hdim1 in Hex.
    split; [done|]. by right.
  - apply Insert.add_raises in Hadd as (Hv & _ & ->); [|done].
    injection Hbatch as _ <-. split; [done|]. by left.
Qed.

(** C9, as amended.  [add], [add_batch] and [search] of both indexes
    raise the dimension-mismatch error only when an input vector's length
    differs from [dim], and [search] checks the query before it looks at
    the size of the index.  On an index of dimension at least 1 they raise
    it whenever a length differs, and return normally otherwise; the
    brute-force [add] and [add_batch] do so at dimension 0 too, and
    [search] and the HNSW [add] on an empty index. *)
Theorem dimension_mismatch_iff `{Platform} `{!StdContracts} :
  (∀ (self : VectorBatchInserter.t) vector vectors query k,
     VectorBatchInserter.reachable self →
     (* add *)
     (raises (VectorBatchInserter.add self vector) vector_dimension_mismatch
      ↔ length vector ≠ VectorBatchInserter.dimensions self) ∧
     (length vector = VectorBatchInserter.dimensions self →
      ∃ self', VectorBatchInserter.add self vector = Return self' ()) ∧
     (* add_batch *)
     (raises (VectorBatchInserter.add_batch self vectors)
        vector_dimension_mismatch
      ↔ Exists (λ vec, length vec ≠ VectorBatchInserter.dimensions self)
          vectors) ∧
     (Forall (λ vec, length vec = VectorBatchInserter.dimensions self) vectors →
      ∃ self', VectorBatchInserter.add_batch self vectors = Return self' ()) ∧
     (* search *)
     (raises (VectorBatchInserter.search self query k) query_dimension_mismatch
      ↔ length query ≠ VectorBatchInserter.dimensions self) ∧
     (length query = VectorBatchInserter.dimensions self →
      VectorBatchInserter.dimensions self ≠ 0 ∨
        VectorBatchInserter.size self = 0 →
      ∃ res, VectorBatchInserter.search self query k = Return self res)) ∧
  (∀ (self : HNSWIndex.t) vector vectors query k,
     HNSWIndex.reachable self →
     (* add *)
     (raises (HNSWIndex.add self vector) vector_dimension_mismatch
      ↔ length vector ≠ HNSWIndex.dimensions self) ∧
     (length vector = HNSWIndex.dimensions self →
      HNSWIndex.dimensions self ≠ 0 ∨ HNSWIndex.size self = 0 →
      ∃ self', HNSWIndex.add self vector = Return self' ()) ∧
     (* add_batch *)
     (raises (HNSWIndex.add_batch self vectors) vector_dimension_mismatch
      → Exists (λ vec, length vec ≠ HNSWIndex.dimensions self) vectors) ∧
     (HNSWIndex.dimensions self ≠ 0 →
      Exists (λ vec, length vec ≠ HNSWIndex.dimensions self) vectors →
      raises (HNSWIndex.add_batch self vectors) vector_dimension_mismatch) ∧
     (HNSWIndex.dimensions self ≠ 0 →
      Forall (λ vec, length vec = HNSWIndex.dimensions self) vectors →
      ∃ self', HNSWIndex.add_batch self vectors = Return self' ()) ∧
     (* search *)
     (raises (HNSWIndex.search self query k) query_dimension_mismatch
      ↔ length query ≠ HNSWIndex.dimensions self) ∧
     (length query = HNSWIndex.dimensions self →
      HNSWIndex.dimensions self ≠ 0 ∨ HNSWIndex.size self = 0 →
      ∃ res, HNSWIndex.search self query k = Return self res)).
Proof.
  split.
  - intros self vector vectors query k Hreach.
    unfold VectorBatchInserter.dimensions, VectorBatchInserter.size.
    destruct (brute_force_add_raises self vector) as [Hadd1 Hadd2].
    destruct (brute_force_add_batch_raises self vectors) as (Hb0 & Hb1 & Hb2).
    destruct (brute_force_search_raises self query k Hreach) as [Hs1 Hs2].
    by split_and!.
  - intros self vector vectors query k Hreach.
    unfold HNSWIndex.dimensions, HNSWIndex.size.
    destruct (hnsw_add_raises self vector Hreach) as [Hadd1 Hadd2].
    destruct (hnsw_search_raises self query k Hreach) as [Hs1 Hs2].
    pose proof (Insert.reachable_wf self Hreach) as Hwf.
    destruct (Insert.reachable_stores self Hreach) as [vs Hvs].
    apply Insert.stores_wf in Hvs as [_ Har].
    split_and!; [done|done| | | |done|done].
    + intros [s Hs]. by apply hnsw_add_batch_raises in Hs as [_ ?].
    + intros Hdim Hex.
      destruct (Insert.add_batch_spec self vectors vs Hwf Har Hdim)
        as (self' & Hbatch & _).
      rewrite Hbatch. rewrite decide_False; [by eexists|].
      intros Hall. apply Exists_exists in Hex as (vec & Hvec & Hne).
      rewrite Forall_forall in Hall. by apply Hne, Hall.
    + intros Hdim Hall.
      destruct (Insert.add_batch_spec self vectors vs Hwf Har Hdim)
        as (self' & Hbatch & _).
      rewrite Hbatch. rewrite decide_True by done. by eauto.
Qed.

Lemma brute_force_example_reachable :
  VectorBatchInserter.reachable examples.brute_force.
Proof.
  exact (BruteForce.stores_reachable_bf _ _ brute_force_example_stores).
Qed.

Lemma hnsw_four_reachable : HNSWIndex.reachable examples.hnsw_four.
Proof. exact (Insert.stores_reachable _ _ hnsw_four_stores). Qed.

Lemma dimension_mismatch_iff_witness :
  raises (VectorBatchInserter.add examples.brute_force [1; 2]%Z)
    vector_dimension_mismatch ∧
  raises (HNSWIndex.add_batch examples.hnsw_four [[1]; [1; 2]]%Z)
    vector_dimension_mismatch ∧
  raises (HNSWIndex.search examples.hnsw_empty [] 1) query_dimension_mismatch ∧
  ∃ res, HNSWIndex.search examples.hnsw_four [10%Z] 4
         = Return examples.hnsw_four res.
Proof.
  destruct (@dimension_mismatch_iff examples.P
              (ReferenceProofs.contracts SCALAR)) as [Hbf Hhnsw].
  destruct (Hbf examples.brute_force [1; 2]%Z [] [] 0
              brute_force_example_reachable) as (Hadd & _).
  destruct (Hhnsw examples.hnsw_four [] [[1]; [1; 2]]%Z [10%Z] 4
              hnsw_four_reachable) as (_ & _ & _ & Hbatch & _ & _ & Hsearch).
  destruct (Hhnsw examples.hnsw_empty [] [] [] 1
              (HNSWIndex.reachable_new 1 10 1 200))
    as (_ & _ & _ & _ & _ & Hempty & _).
  split_and!.
  - apply Hadd. simpl. lia.
  - apply Hbatch; [simpl; lia|]. right. left. simpl. lia.
  - apply Hempty. simpl. lia.
  - apply Hsearch; [reflexivity|]. left. simpl. lia.
Defined.

Lemma brute_force_dim0_reachable :
  VectorBatchInserter.reachable examples.brute_force_dim0.
Proof.
  exact (VectorBatchInserter.reachable_run (VectorBatchInserter.new 0)
           (VectorBatchInserter.call_add []) examples.brute_force_dim0
           (VectorBatchInserter.reachable_new 0) eq_refl).
Qed.

Lemma hnsw_dim0_reachable : HNSWIndex.reachable examples.hnsw_dim0.
Proof.
  exact (HNSWIndex.reachable_run examples.hnsw_dim0_empty
           (HNSWIndex.call_add []) examples.hnsw_dim0
           (HNSWIndex.reachable_new 0 10 1 200) eq_refl).
Qed.

(** With [dim = 0] a vector has no elements and the arena stays empty:
    [search] on either index holding a vector, and the second [add] on
    the HNSW index, evaluate [&data_[0]] on an empty [std::vector]. *)
Lemma dimension_zero_undefined :
  VectorBatchInserter.search examples.brute_force_dim0 [] 1 = Undefined ∧
  HNSWIndex.add examples.hnsw_dim0 [] = Undefined ∧
  HNSWIndex.add_batch examples.hnsw_dim0_empty [[]; []] = Undefined ∧
  HNSWIndex.add_batch examples.hnsw_dim0 [[]; [1%Z]] = Undefined ∧
  HNSWIndex.search examples.hnsw_dim0 [] 1 = Undefined.
Proof. by split_and!. Qed.

(** C9 as stated fails at dimension 0: on [HNSWIndex(0)] holding one
    vector, [add_batch([[], [1]])] has a vector of the wrong length, and
    the [add] of the first one, which has the right length, evaluates
    [&data_[0]] on the empty arena before the second is looked at. *)
Lemma dimension_mismatch_counterexample :
  ¬ ∀ (P : Platform) (C : @StdContracts P) (self : HNSWIndex.t)
      (vectors : list (list float)),
      HNSWIndex.reachable self →
      (raises (HNSWIndex.add_batch self vectors) vector_dimension_mismatch
       ↔ Exists (λ vec, length vec ≠ HNSWIndex.dimensions self) vectors) ∧
      (Forall (λ vec, length vec = HNSWIndex.dimensions self) vectors →
       ∃ self', HNSWIndex.add_batch self vectors = Return self' ()).
Proof.
  intros Hclaim.
  destruct (Hclaim examples.P (ReferenceProofs.contracts SCALAR)
              examples.hnsw_dim0 [[]; [1%Z]] hnsw_dim0_reachable)
    as [[_ Hraises] _].
  destruct Hraises as [self' Hbatch].
  - right. left. simpl. lia.
  - discriminate Hbatch.
Qed.

(** C2, the brute-force half: a batch with a vector of the wrong length
    leaves [VectorBatchInserter] unchanged. *)
Lemma brute_force_add_batch_atomic `{Platform}
    (self : VectorBatchInserter.t) (vectors : list (list float)) :
  Exists (λ vec, length vec ≠ VectorBatchInserter.dimensions_ self) vectors →
  VectorBatchInserter.add_batch self vectors
  = Raise self vector_dimension_mismatch.
Proof. apply brute_force_add_batch_raises. Qed.

(** C2 fails for [HNSWIndex]: [add_batch] of a good vector followed by one
    of the wrong length raises only after the good one was inserted. *)
Theorem hnsw_add_batch_not_atomic `{Platform} (x : float)
    (max_elements M ef_construction : nat) :
  let self := HNSWIndex.new 1 max_elements M ef_construction in
  ∃ self',
    HNSWIndex.add_batch self [[x]; [x; x]]
    = Raise self' vector_dimension_mismatch ∧
    HNSWIndex.size self = 0 ∧ HNSWIndex.size self' = 1 ∧
    HNSWIndex.data_ self' = [x].
Proof. simpl. eexists. by split_and!. Qed.

(** [clear] leaves the generator where it is; the constructor starts it
    at the seed. *)
Lemma hnsw_clear_keeps_rng `{Platform} (self : HNSWIndex.t) :
  ∃ self', HNSWIndex.clear self = Return self' () ∧
           HNSWIndex.rng_ self' = HNSWIndex.rng_ self ∧
           HNSWIndex.size self' = 0.
Proof. eexists. by split_and!. Qed.

(** C3 fails: with [M = 1] the levels drawn from seed 42 are 0, 2, 0, 0.
    Two vectors inserted into a new index give a graph with entry point 1
    and [max_layer] 2; after [clear()] the same two vectors give entry
    point 0 and [max_layer] 0, because [clear()] does not re-seed. *)
Theorem hnsw_clear_then_rebuild_differs :
  HNSWIndex.run examples.hnsw_empty
    (HNSWIndex.call_add_batch examples.two_vectors)
  = Some examples.hnsw_two_fresh ∧
  HNSWIndex.run examples.hnsw_two_fresh HNSWIndex.call_clear
  = Some examples.hnsw_two_cleared ∧
  HNSWIndex.run examples.hnsw_two_cleared
    (HNSWIndex.call_add_batch examples.two_vectors)
  = Some examples.hnsw_two_rebuilt ∧
  HNSWIndex.nodes_ examples.hnsw_two_rebuilt
  ≠ HNSWIndex.nodes_ examples.hnsw_two_fresh ∧
  HNSWIndex.entry_point_ examples.hnsw_two_rebuilt
  ≠ HNSWIndex.entry_point_ examples.hnsw_two_fresh ∧
  HNSWIndex.max_layer_ examples.hnsw_two_rebuilt
  ≠ HNSWIndex.max_layer_ examples.hnsw_two_fresh.
Proof. by split_and!. Qed.

(** C4, as amended.  [set_ef(ef)] stores every value of its unsigned
    argument, 0 included, in [ef_search] and raises nothing. *)
Theorem hnsw_set_ef_accepts `{Platform} (self : HNSWIndex.t) (ef : nat) :
  ∃ self', HNSWIndex.set_ef self ef = Return self' () ∧
           HNSWIndex.ef_search_ self' = ef.
Proof. eexists. by split. Qed.

(** C4 as stated fails at [ef = 0]. *)
Lemma hnsw_set_ef_counterexample :
  ¬ ∀ (P : Platform) (self : HNSWIndex.t) (ef : nat),
      ef < 1 →
      (∃ e, raises (HNSWIndex.set_ef self ef) e) ∧
      ∀ self', final_state (HNSWIndex.set_ef self ef) = Some self' →
               HNSWIndex.ef_search_ self' = HNSWIndex.ef_search_ self.
Proof.
  intros Hclaim.
  destruct (Hclaim examples.P examples.hnsw_empty 0 ltac:(lia))
    as [[e [s He]] _].
  discriminate He.
Qed.

Lemma ascending_fmap_take {A B} (comp : A → A → bool) (comp' : B → B → bool)
    (f : A → B) (k : nat) (l : list A) :
  (∀ a b, comp' (f a) (f b) = comp a b) →
  ascending comp l → ascending comp' (f <$> take k l).
Proof.
  intros Hf Hl i j x y Hij.
  rewrite !list_lookup_fmap.
  destruct (take k l !! i) as [a|] eqn:Ha; [|done].
  destruct (take k l !! j) as [b|] eqn:Hb; [|done].
  intros [= <-] [= <-]. rewrite Hf.
  apply lookup_take_Some in Ha as [Ha _], Hb as [Hb _].
  by apply (Hl i j).
Qed.



Lemma hnsw_four_search :
  HNSWIndex.search examples.hnsw_four [10%Z] 4
  = Return examples.hnsw_four [(2, 49%Z); (1, 81%Z); (0, 100%Z)].
Proof. reflexivity. Qed.


Lemma nan_hnsw_five_reachable : HNSWIndex.reachable nan_examples.hnsw_five.
Proof.
  exact (HNSWIndex.reachable_run (HNSWIndex.new 1 10 16 200)
           (HNSWIndex.call_add_batch nan_examples.five_vectors)
           nan_examples.hnsw_five (HNSWIndex.reachable_new 1 10 16 200)
           eq_refl).
Qed.

(** With a NaN among the distances the heaps of [search_layer] promise no
    order: on the vectors [1], NaN, [5], [7], [3] the query [[0]] gets the
    distances 1, NaN, 49, 9, 25, in this order. *)
Lemma hnsw_nan_search_layer :
  HNSWIndex.search_layer 1 (HNSWIndex.data_ nan_examples.hnsw_five)
    (HNSWIndex.nodes_ nan_examples.hnsw_five) [nan.num 0] 0 10 0
  = Some [@SearchCandidate.mk nan_examples.P 0 (nan.num 1);
          @SearchCandidate.mk nan_examples.P 1 nan.NaN;
          @SearchCandidate.mk nan_examples.P 3 (nan.num 49);
          @SearchCandidate.mk nan_examples.P 4 (nan.num 9);
          @SearchCandidate.mk nan_examples.P 2 (nan.num 25)].
Proof. reflexivity. Qed.

Lemma hnsw_nan_search :
  HNSWIndex.search nan_examples.hnsw_five [nan.num 0] 5
  = Return nan_examples.hnsw_five
      [(0, nan.num 1); (1, nan.NaN); (3, nan.num 49); (4, nan.num 9);
       (2, nan.num 25)].
Proof. reflexivity. Qed.





(** It fails at dimension 0 as well: on [HNSWIndex(0)] holding one
    vector, [search_layer] from node 0 evaluates [&data_[0]] on an empty
    arena. *)
Lemma hnsw_search_layer_dimension_zero :
  HNSWIndex.reachable examples.hnsw_dim0 ∧
  HNSWIndex.on_layer (HNSWIndex.nodes_ examples.hnsw_dim0) 0 0 ∧
  HNSWIndex.search_layer 0 (HNSWIndex.data_ examples.hnsw_dim0)
    (HNSWIndex.nodes_ examples.hnsw_dim0) [] 0 1 0 = None.
Proof. split_and!; [exact hnsw_dim0_reachable|by eexists|done]. Qed.

(** C8.  After every insertion into the HNSW index, every neighbour list
    on layer 0 has at most [M_max0] entries and every list on a higher
    layer at most [M]; [M_max0] is [2 * M], computed in [size_t]. *)
Theorem hnsw_degree_bound `{Platform} `{!StdContracts}
    (self self' : HNSWIndex.t) (vector : list float) :
  HNSWIndex.reachable self →
  HNSWIndex.add self vector = Return self' () →
  (∀ u layer l,
     HNSWIndex.neighbors_at (HNSWIndex.nodes_ self') u layer = Some l →
     length l ≤ if decide (layer = 0) then HNSWIndex.M_max_ self'
                else HNSWIndex.M_ self') ∧
  N.of_nat (HNSWIndex.M_max_ self')
  = ((2 * N.of_nat (HNSWIndex.M_ self')) `mod` 2 ^ 64)%N.
Proof.
  intros Hreach Hadd.
  assert (HNSWIndex.reachable self') as Hreach'.
  { apply (HNSWIndex.reachable_run self (HNSWIndex.call_add vector)); [done|].
    simpl. by rewrite Hadd. }
  apply Insert.reachable_wf in Hreach' as [_ _ _ Hdeg _ HM]. split.
  - intros u layer l Hl. by apply Hdeg in Hl.
  - rewrite HM, N2Nat.id. f_equal. lia.
Qed.

Lemma hnsw_degree_bound_witness :
  (∀ u layer l,
     HNSWIndex.neighbors_at (HNSWIndex.nodes_ examples.hnsw_five) u layer
     = Some l →
     length l ≤ if decide (layer = 0) then 2 else 1) ∧
  N.of_nat 2 = ((2 * N.of_nat 1) `mod` 2 ^ 64)%N.
Proof.
  apply (@hnsw_degree_bound examples.P (ReferenceProofs.contracts SCALAR)
           examples.hnsw_four examples.hnsw_five [7%Z]).
  - exact hnsw_four_reachable.
  - reflexivity.
Defined.

(** C10.  In every reachable HNSW index, an id listed among the
    neighbours of some node on layer [L] is a node with at least [L + 1]
    layers, and so is every node that a walk along the lists of layer
    [L] comes to: they are the nodes whose lists [search_layer] reads on
    [L].  On an index of dimension at least 1, [add], [add_batch] and
    [search] never read a neighbour list, a node or a vector out of
    bounds; nor do [add] and [search] on an empty index. *)
Theorem hnsw_neighbour_access_in_bounds `{Platform} `{!StdContracts}
    (self : HNSWIndex.t) :
  HNSWIndex.reachable self →
  (∀ v layer l u,
     HNSWIndex.neighbors_at (HNSWIndex.nodes_ self) v layer = Some l →
     u ∈ l →
     ∃ node, HNSWIndex.nodes_ self !! u = Some node ∧
             layer + 1 ≤ length (HNSWNode.neighbors node)) ∧
  (∀ layer v u,
     HNSWIndex.on_layer (HNSWIndex.nodes_ self) layer v →
     rtc (Wiring.edge (HNSWIndex.nodes_ self) layer) v u →
     is_Some (HNSWIndex.neighbors_at (HNSWIndex.nodes_ self) u layer)) ∧
  (∀ vector,
     HNSWIndex.dimensions_ self ≠ 0 ∨ HNSWIndex.size self = 0 →
     HNSWIndex.add self vector ≠ Undefined) ∧
  (∀ vectors,
     HNSWIndex.dimensions_ self ≠ 0 →
     HNSWIndex.add_batch self vectors ≠ Undefined) ∧
  (∀ query k,
     HNSWIndex.dimensions_ self ≠ 0 ∨ HNSWIndex.size self = 0 →
     HNSWIndex.search self query k ≠ Undefined).
Proof.
  intros Hreach. pose proof (Insert.reachable_wf self Hreach) as Hwf.
  split_and!.
  - intros v layer l u Hl Hu.
    destruct (HNSWIndex.wf_closed _ Hwf layer v l u Hl Hu) as [l' Hl'].
    unfold HNSWIndex.neighbors_at in Hl'.
    destruct (HNSWIndex.nodes_ self !! u) as [node|]; [|done].
    exists node. split; [done|]. simpl in Hl'.
    apply lookup_lt_Some in Hl'. lia.
  - intros layer v u Hv Hwalk.
    induction Hwalk as [v|v w u (l & Hl & Hw) _ IH]; [done|].
    apply IH. by apply (HNSWIndex.wf_closed _ Hwf layer v l w).
  - intros vector Hdim.
    destruct (hnsw_add_raises self vector Hreach) as [Hr Hok].
    destruct (decide (length vector = HNSWIndex.dimensions_ self)) as [Hv|Hv].
    + destruct (Hok Hv Hdim) as [self' ->]. done.
    + apply Hr in Hv as [s ->]. done.
  - intros vectors Hdim.
    destruct (Insert.reachable_stores self Hreach) as [vs Hvs].
    apply Insert.stores_wf in Hvs as [_ Har].
    destruct (Insert.add_batch_spec self vectors vs Hwf Har Hdim)
      as (self' & -> & _).
    by case_decide.
  - intros query k Hdim.
    destruct (hnsw_search_raises self query k Hreach) as [Hr Hok].
    destruct (decide (length query = HNSWIndex.dimensions_ self)) as [Hq|Hq].
    + destruct (Hok Hq Hdim) as [res ->]. done.
    + apply Hr in Hq as [s ->]. done.
Qed.

Lemma hnsw_neighbour_access_in_bounds_witness :
  (∃ node, HNSWIndex.nodes_ examples.hnsw_four !! 2 = Some node ∧
           0 + 1 ≤ length (HNSWNode.neighbors node)) ∧
  HNSWIndex.add examples.hnsw_four [7%Z] ≠ Undefined.
Proof.
  destruct (@hnsw_neighbour_access_in_bounds examples.P
              (ReferenceProofs.contracts SCALAR) examples.hnsw_four
              hnsw_four_reachable) as (Hclosed & _ & Hadd & _).
  split.
  - apply (Hclosed 3 0 [2; 1] 2); [reflexivity|].
    apply elem_of_cons. by left.
  - apply Hadd. left. simpl. lia.
Defined.

(** * The kernels, the callers and the wiring of the graph *)

Module Kernels.
Section props.
Context `{Platform}.

Lemma foldl_ext_inv {A B} (P : A → Prop) (f g : A → B → A) l a :
  P a →
  (∀ a x, P a → x ∈ l → f a x = g a x ∧ P (g a x)) →
  foldl f a l = foldl g a l.
Proof.
  revert a. induction l as [|x l IH]; intros a Ha Hfg; [done|].
  cbn [foldl]. destruct (Hfg a x Ha) as [-> Hp]; [left|].
  apply IH; [done|]. intros a' y Ha' Hy. apply Hfg; [done|by right].
Qed.

Lemma foldl_ext_all {A B} (f g : A → B → A) l a :
  (∀ a x, f a x = g a x) → foldl f a l = foldl g a l.
Proof.
  intros Hfg. apply (foldl_ext_inv (λ _, True)); [done|]. intros. by split.
Qed.

Lemma at_ptr_take (a : list float) d i :
  i < d → at_ptr (take d a) i = at_ptr a i.
Proof. intros Hi. unfold at_ptr. by rewrite lookup_take_lt. Qed.

Lemma scalar_loop_take a b from d r :
  scalar_loop (take d a) (take d b) from d r = scalar_loop a b from d r.
Proof.
  unfold scalar_loop.
  apply (foldl_ext_inv (λ _, True)); [done|].
  intros r' i _ Hi. apply elem_of_seq in Hi.
  rewrite !at_ptr_take by lia. done.
Qed.

Lemma lane_step_take lanes a b d i sum :
  i + length sum ≤ d →
  lane_step lanes (take d a) (take d b) i sum = lane_step lanes a b i sum.
Proof.
  intros Hd. unfold lane_step. apply imap_ext. intros j s Hj.
  apply lookup_lt_Some in Hj. rewrite !at_ptr_take by lia. done.
Qed.

Lemma lane_loop_take lanes a b d simd_size :
  0 < lanes → simd_size ≤ d →
  lane_loop lanes (take d a) (take d b) simd_size
  = lane_loop lanes a b simd_size.
Proof.
  intros Hl Hs. unfold lane_loop.
  apply (foldl_ext_inv (λ sum, length sum = lanes)).
  { apply length_replicate. }
  intros sum blk Hlen Hblk. apply elem_of_seq in Hblk.
  assert (blk * lanes + lanes ≤ simd_size).
  { pose proof (Nat.Div0.mul_div_le simd_size lanes). nia. }
  split.
  - apply lane_step_take. lia.
  - unfold lane_step. by rewrite length_imap.
Qed.

Lemma l2_distance_lanes_take lanes a b d :
  0 < lanes →
  l2_distance_lanes lanes (take d a) (take d b) d
  = l2_distance_lanes lanes a b d.
Proof.
  intros Hl. unfold l2_distance_lanes.
  rewrite scalar_loop_take, lane_loop_take; [done|done|lia].
Qed.

Lemma l2_take a b d :
  l2_distance_simd (take d a) (take d b) d = l2_distance_simd a b d.
Proof.
  unfold l2_distance_simd. destruct simd_path.
  - apply l2_distance_lanes_take. lia.
  - apply l2_distance_lanes_take. lia.
  - apply scalar_loop_take.
Qed.

(** symmetry *)
Section symmetry.
Hypothesis square_sub : ∀ x y : float,
  float_mul (float_sub x y) (float_sub x y)
  = float_mul (float_sub y x) (float_sub y x).

Lemma scalar_loop_sym a b from d r :
  scalar_loop a b from d r = scalar_loop b a from d r.
Proof.
  unfold scalar_loop. apply foldl_ext_all. intros r' i. cbn. by rewrite square_sub.
Qed.

Lemma lane_loop_sym lanes a b s : lane_loop lanes a b s = lane_loop lanes b a s.
Proof.
  unfold lane_loop. apply foldl_ext_all. intros sum blk. unfold lane_step.
  apply imap_ext. intros j x _. cbn. unfold f32_mla. by rewrite square_sub.
Qed.

Lemma l2_sym a b d : l2_distance_simd a b d = l2_distance_simd b a d.
Proof.
  unfold l2_distance_simd, l2_distance_lanes.
  destruct simd_path; rewrite ?(lane_loop_sym _ a b); apply scalar_loop_sym.
Qed.
End symmetry.

(** a vector against itself *)
Section self_distance.
Context (a : list float) (d : nat).
Hypothesis sub_self : ∀ i, i < d →
  float_sub (at_ptr a i) (at_ptr a i) = float_zero.
Hypothesis mul_zero : float_mul float_zero float_zero = float_zero.
Hypothesis add_zero_zero : float_add float_zero float_zero = float_zero.

Lemma foldl_zero {I} (f : float → I → float) (l : list I) :
  (∀ i, i ∈ l → f float_zero i = float_zero) →
  foldl f float_zero l = float_zero.
Proof.
  induction l as [|i l IH]; intros Hf; [done|].
  cbn [foldl]. rewrite Hf by left. apply IH. intros j Hj. apply Hf. by right.
Qed.

Lemma scalar_loop_self from :
  scalar_loop a a from d float_zero = float_zero.
Proof.
  unfold scalar_loop. apply foldl_zero. intros i Hi%elem_of_seq. cbn.
  by rewrite sub_self, mul_zero, add_zero_zero by lia.
Qed.

Lemma lane_loop_self lanes simd_size :
  simd_size ≤ d →
  lane_loop lanes a a simd_size = replicate lanes float_zero.
Proof.
  intros Hs. unfold lane_loop.
  assert (∀ l, (∀ blk, blk ∈ l → blk * lanes + lanes ≤ d) →
            foldl (λ sum blk, lane_step lanes a a (blk * lanes) sum)
              (replicate lanes float_zero) l
            = replicate lanes float_zero) as Hfold.
  { induction l as [|blk l IH]; intros Hl; [done|].
    cbn [foldl]. rewrite <-IH at 2 by (intros; apply Hl; by right). f_equal.
    apply list_eq. intros j. unfold lane_step. rewrite list_lookup_imap.
    destruct (replicate lanes float_zero !! j) as [x|] eqn:Hj; [|done].
    apply lookup_replicate in Hj as [-> Hj]. cbn. unfold f32_mla.
    rewrite sub_self, mul_zero, add_zero_zero; [done|].
    assert (blk * lanes + lanes ≤ d) by (apply Hl; by left). lia. }
  apply Hfold. intros blk Hblk%elem_of_seq.
  destruct lanes as [|lanes]; [lia|].
  pose proof (Nat.Div0.mul_div_le simd_size (S lanes)). nia.
Qed.

Lemma horizontal_sum_zero lanes :
  horizontal_sum (replicate lanes float_zero) = float_zero.
Proof.
  destruct lanes as [|lanes]; [done|]. cbn.
  induction lanes as [|lanes IH]; [done|]. cbn. by rewrite add_zero_zero.
Qed.

Lemma l2_self : l2_distance_simd a a d = float_zero.
Proof.
  unfold l2_distance_simd, l2_distance_lanes.
  destruct simd_path;
    rewrite ?lane_loop_self, ?horizontal_sum_zero by lia;
    apply scalar_loop_self.
Qed.
End self_distance.

(** exact arithmetic *)
Section exact.
Hypothesis add_assoc : ∀ x y z : float,
  float_add x (float_add y z) = float_add (float_add x y) z.
Hypothesis add_comm : ∀ x y : float, float_add x y = float_add y x.
Hypothesis add_zero : ∀ x : float, float_add float_zero x = x.

Lemma total_cons x l : total (x :: l) = float_add x (total l).
Proof. done. Qed.

Lemma foldl_total r l : foldl float_add r l = float_add r (total l).
Proof.
  revert r. induction l as [|x l IH]; intros r.
  - by rewrite (add_comm r), add_zero.
  - cbn [foldl]. by rewrite IH, total_cons, add_assoc.
Qed.

Lemma total_app l1 l2 : total (l1 ++ l2) = float_add (total l1) (total l2).
Proof.
  induction l1 as [|x l1 IH]; [by rewrite add_zero|].
  cbn [app]. by rewrite !total_cons, IH, add_assoc.
Qed.

Lemma total_zip_with l1 l2 :
  length l1 = length l2 →
  total (zip_with float_add l1 l2) = float_add (total l1) (total l2).
Proof.
  revert l2. induction l1 as [|x l1 IH]; intros [|y l2] Hlen; try done.
  cbn [zip_with]. rewrite !total_cons, IH by (cbn in Hlen; lia).
  rewrite !add_assoc. f_equal.
  rewrite <-!add_assoc. f_equal. apply add_comm.
Qed.

Lemma total_replicate_zero n : total (replicate n float_zero) = float_zero.
Proof.
  induction n as [|n IH]; [done|].
  cbn [replicate]. by rewrite total_cons, IH, add_zero.
Qed.

Lemma horizontal_sum_total l : horizontal_sum l = total l.
Proof.
  destruct l as [|x l]; [done|]. cbn. apply foldl_total.
Qed.

Lemma imap_add_zip_with (u : nat → float) l :
  imap (λ j s, float_add s (u j)) l
  = zip_with float_add l (u <$> seq 0 (length l)).
Proof.
  revert u. induction l as [|x l IH]; intros u; [done|].
  cbn [imap zip_with length seq fmap list_fmap]. f_equal.
  rewrite <-fmap_S_seq, <-list_fmap_compose. apply (IH (u ∘ S)).
Qed.

Lemma foldl_terms (t : nat → float) r l :
  foldl (λ r i, float_add r (t i)) r l = float_add r (total (t <$> l)).
Proof.
  revert r. induction l as [|x l IH]; intros r.
  - by rewrite (add_comm r), add_zero.
  - cbn [foldl fmap list_fmap]. by rewrite IH, total_cons, add_assoc.
Qed.

Lemma scalar_loop_total a b from d r :
  scalar_loop a b from d r
  = float_add r (total (l2_term a b <$> seq from (d - from))).
Proof. apply (foldl_terms (l2_term a b)). Qed.

Lemma lane_blocks_total (t : nat → float) lanes n :
  length (lane_blocks t lanes n) = lanes ∧
  total (lane_blocks t lanes n) = total (t <$> seq 0 (n * lanes)).
Proof.
  unfold lane_blocks.
  set (step := λ sum blk,
         imap (λ j s, float_add s (t (blk * lanes + j))) sum).
  induction n as [|n [IHl IH]].
  { cbn. split; [apply length_replicate|apply total_replicate_zero]. }
  rewrite seq_S, foldl_app. cbn [foldl]. split.
  { unfold step at 1. by rewrite length_imap. }
  unfold step at 1. rewrite imap_add_zip_with, total_zip_with
    by (by rewrite length_fmap, length_seq).
  rewrite IH, IHl.
  replace (S n * lanes) with (n * lanes + lanes) by lia.
  rewrite seq_app, fmap_app, total_app. f_equal. f_equal.
  cbn [Nat.add].
  replace (seq (n * lanes) lanes) with (seq (n * lanes + 0) lanes)
    by (f_equal; lia).
  rewrite <-(fmap_add_seq (n * lanes) 0), <-list_fmap_compose. done.
Qed.

Lemma lane_loop_total lanes a b simd_size :
  total (lane_loop lanes a b simd_size)
  = total (l2_term a b <$> seq 0 (simd_size `div` lanes * lanes)).
Proof.
  apply (lane_blocks_total (l2_term a b) lanes (simd_size `div` lanes)).
Qed.

Lemma l2_distance_lanes_exact lanes a b d :
  0 < lanes →
  l2_distance_lanes lanes a b d = scalar_loop a b 0 d float_zero.
Proof.
  intros Hl. unfold l2_distance_lanes.
  rewrite !scalar_loop_total, horizontal_sum_total, lane_loop_total, add_zero.
  rewrite <-total_app, <-fmap_app.
  assert (Hs : (d - d `mod` lanes) `div` lanes * lanes = d - d `mod` lanes).
  { pose proof (Nat.div_mod_eq d lanes).
    replace (d - d `mod` lanes) with (d `div` lanes * lanes) by nia.
    by rewrite Nat.div_mul by lia. }
  rewrite Hs.
  pose proof (Nat.Div0.mod_le d lanes).
  replace (seq (d - d `mod` lanes) (d - (d - d `mod` lanes)))
    with (seq (0 + (d - d `mod` lanes)) (d `mod` lanes)) by (f_equal; lia).
  rewrite <-seq_app.
  by replace (d - d `mod` lanes + d `mod` lanes) with (d - 0) by lia.
Qed.

Lemma l2_exact a b d :
  l2_distance_simd a b d = scalar_loop a b 0 d float_zero.
Proof.
  unfold l2_distance_simd.
  destruct simd_path; [apply l2_distance_lanes_exact; lia..|done].
Qed.
End exact.
End props.

Section cosine_props.
Context `{PlatformMath}.

Lemma foldl_triple {A B C I} (f : A → I → A) (g : B → I → B) (h : C → I → C)
    x y z l :
  foldl (λ '(x, y, z) i, (f x i, g y i, h z i)) (x, y, z) l
  = (foldl f x l, foldl g y l, foldl h z l).
Proof.
  revert x y z. induction l as [|i l IH]; intros x y z; [done|].
  cbn [foldl]. apply IH.
Qed.

Lemma foldl_triple' {A B C I} (f : A → I → A) (g : B → I → B)
    (h : C → I → C) x y z l :
  foldl (λ p i, let '(x, y, z) := p in (f x i, g y i, h z i)) (x, y, z) l
  = (foldl f x l, foldl g y l, foldl h z l).
Proof.
  revert x y z. induction l as [|i l IH]; intros x y z; [done|].
  cbn [foldl]. apply IH.
Qed.

Lemma cosine_scalar_loop_split a b from d x y z :
  cosine_scalar_loop a b from d (x, y, z)
  = (foldl (λ r i, float_add r (dot_term a b i)) x (seq from (d - from)),
     foldl (λ r i, float_add r (dot_term a a i)) y (seq from (d - from)),
     foldl (λ r i, float_add r (dot_term b b i)) z (seq from (d - from))).
Proof. apply foldl_triple. Qed.

Lemma cosine_lane_loop_split lanes a b simd_size :
  cosine_lane_loop lanes a b simd_size
  = (lane_blocks (dot_term a b) lanes (simd_size `div` lanes),
     lane_blocks (dot_term a a) lanes (simd_size `div` lanes),
     lane_blocks (dot_term b b) lanes (simd_size `div` lanes)).
Proof.
  unfold cosine_lane_loop, lane_blocks, cosine_lane_step, f32_mla.
  exact (foldl_triple'
    (λ sum blk, imap (λ j s, float_add s (dot_term a b (blk * lanes + j))) sum)
    (λ sum blk, imap (λ j s, float_add s (dot_term a a (blk * lanes + j))) sum)
    (λ sum blk, imap (λ j s, float_add s (dot_term b b (blk * lanes + j))) sum)
    _ _ _ _).
Qed.

Lemma foldl_terms_ext (t t' : nat → float) (P : nat → Prop) r l :
  (∀ i, i ∈ l → t i = t' i) →
  foldl (λ r i, float_add r (t i)) r l = foldl (λ r i, float_add r (t' i)) r l.
Proof.
  intros Ht. apply (foldl_ext_inv (λ _, True)); [done|].
  intros r' i _ Hi. by rewrite Ht.
Qed.

Lemma lane_blocks_length t lanes n : length (lane_blocks t lanes n) = lanes.
Proof.
  unfold lane_blocks. induction n as [|n IH].
  - apply length_replicate.
  - rewrite seq_S, foldl_app. cbn [foldl]. by rewrite length_imap.
Qed.

Lemma lane_blocks_ext (t t' : nat → float) lanes n :
  (∀ i, i < n * lanes → t i = t' i) →
  lane_blocks t lanes n = lane_blocks t' lanes n.
Proof.
  intros Ht. unfold lane_blocks.
  apply (foldl_ext_inv (λ sum, length sum = lanes)).
  { apply length_replicate. }
  intros sum blk Hlen Hblk. apply elem_of_seq in Hblk. split.
  - apply imap_ext. intros j s Hj. apply lookup_lt_Some in Hj.
    rewrite Ht; [done|]. nia.
  - by rewrite length_imap.
Qed.

Lemma dot_term_take a b d i :
  i < d → dot_term (take d a) (take d b) i = dot_term a b i.
Proof. intros Hi. unfold dot_term. by rewrite !at_ptr_take. Qed.

Lemma cosine_scalar_loop_take a b from d acc :
  cosine_scalar_loop (take d a) (take d b) from d acc
  = cosine_scalar_loop a b from d acc.
Proof.
  destruct acc as [[x y] z]. rewrite !cosine_scalar_loop_split.
  f_equal; [f_equal|]; apply (foldl_terms_ext _ _ (λ _, True));
    intros i Hi; apply elem_of_seq in Hi; apply dot_term_take; lia.
Qed.

Lemma cosine_lane_loop_take lanes a b d simd_size :
  simd_size ≤ d →
  cosine_lane_loop lanes (take d a) (take d b) simd_size
  = cosine_lane_loop lanes a b simd_size.
Proof.
  intros Hs. rewrite !cosine_lane_loop_split.
  assert (∀ i, i < simd_size `div` lanes * lanes → i < d).
  { intros i Hi. destruct lanes as [|lanes]; [lia|].
    pose proof (Nat.Div0.mul_div_le simd_size (S lanes)). lia. }
  f_equal; [f_equal|]; apply lane_blocks_ext; intros i Hi;
    apply dot_term_take; auto.
Qed.

Lemma cosine_sums_take a b d :
  cosine_sums (take d a) (take d b) d = cosine_sums a b d.
Proof.
  unfold cosine_sums, cosine_sums_lanes.
  destruct simd_path;
    rewrite ?cosine_lane_loop_take by lia; apply cosine_scalar_loop_take.
Qed.

Lemma cosine_take a b d :
  cosine_similarity_simd (take d a) (take d b) d = cosine_similarity_simd a b d.
Proof. unfold cosine_similarity_simd. by rewrite cosine_sums_take. Qed.

Section cosine_symmetry.
Hypothesis mul_comm : ∀ x y : float, float_mul x y = float_mul y x.

Lemma dot_term_comm a b i : dot_term a b i = dot_term b a i.
Proof. apply mul_comm. Qed.

Lemma cosine_scalar_loop_sym a b from d acc :
  cosine_scalar_loop b a from d (swap_norms acc)
  = swap_norms (cosine_scalar_loop a b from d acc).
Proof.
  destruct acc as [[x y] z]. cbn [swap_norms].
  rewrite !cosine_scalar_loop_split. cbn [swap_norms].
  f_equal. f_equal. apply (foldl_terms_ext _ _ (λ _, True)).
  intros i _. apply dot_term_comm.
Qed.

Lemma cosine_lane_loop_sym lanes a b s :
  cosine_lane_loop lanes b a s = swap_norms (cosine_lane_loop lanes a b s).
Proof.
  rewrite !cosine_lane_loop_split. cbn [swap_norms].
  f_equal. f_equal. apply lane_blocks_ext. intros i _. apply dot_term_comm.
Qed.

Lemma cosine_horizontal_sum_swap temp :
  cosine_horizontal_sum (swap_norms temp)
  = swap_norms (cosine_horizontal_sum temp).
Proof. by destruct temp as [[x y] z]. Qed.

Lemma cosine_sums_sym a b d : cosine_sums b a d = swap_norms (cosine_sums a b d).
Proof.
  unfold cosine_sums, cosine_sums_lanes.
  destruct simd_path;
    [rewrite (cosine_lane_loop_sym _ a b), cosine_horizontal_sum_swap;
     apply (cosine_scalar_loop_sym a b)..|].
  apply (cosine_scalar_loop_sym a b 0 d (float_zero, float_zero, float_zero)).
Qed.

Lemma cosine_sym a b d :
  cosine_similarity_simd a b d = cosine_similarity_simd b a d.
Proof.
  unfold cosine_similarity_simd. rewrite (cosine_sums_sym a b).
  destruct (cosine_sums a b d) as [[x y] z]. cbn [swap_norms].
  f_equal. apply mul_comm.
Qed.
End cosine_symmetry.

Section cosine_exact.
Hypothesis add_assoc : ∀ x y z : float,
  float_add x (float_add y z) = float_add (float_add x y) z.
Hypothesis add_comm : ∀ x y : float, float_add x y = float_add y x.
Hypothesis add_zero : ∀ x : float, float_add float_zero x = x.

Lemma lanes_then_tail (t : nat → float) lanes d :
  0 < lanes →
  foldl (λ r i, float_add r (t i))
        (foldl float_add float_zero
           (lane_blocks t lanes ((d - d `mod` lanes) `div` lanes)))
        (seq (d - d `mod` lanes) (d - (d - d `mod` lanes)))
  = foldl (λ r i, float_add r (t i)) float_zero (seq 0 (d - 0)).
Proof.
  intros Hl.
  rewrite !(foldl_terms add_assoc add_comm add_zero),
    (foldl_total add_assoc add_comm add_zero), !add_zero.
  destruct (lane_blocks_total add_assoc add_comm add_zero t lanes
              ((d - d `mod` lanes) `div` lanes)) as [_ ->].
  rewrite <-(total_app add_assoc add_zero), <-fmap_app.
  assert (Hs : (d - d `mod` lanes) `div` lanes * lanes = d - d `mod` lanes).
  { pose proof (Nat.div_mod_eq d lanes).
    replace (d - d `mod` lanes) with (d `div` lanes * lanes) by nia.
    by rewrite Nat.div_mul by lia. }
  rewrite Hs.
  pose proof (Nat.Div0.mod_le d lanes).
  replace (seq (d - d `mod` lanes) (d - (d - d `mod` lanes)))
    with (seq (0 + (d - d `mod` lanes)) (d `mod` lanes)) by (f_equal; lia).
  rewrite <-seq_app.
  by replace (d - d `mod` lanes + d `mod` lanes) with (d - 0) by lia.
Qed.

Lemma cosine_sums_lanes_exact lanes a b d :
  0 < lanes →
  cosine_sums_lanes lanes a b d
  = cosine_scalar_loop a b 0 d (float_zero, float_zero, float_zero).
Proof.
  intros Hl. unfold cosine_sums_lanes.
  rewrite cosine_lane_loop_split. cbn [cosine_horizontal_sum].
  rewrite !cosine_scalar_loop_split.
  by rewrite !lanes_then_tail.
Qed.

Lemma cosine_exact a b d :
  cosine_sums a b d
  = cosine_scalar_loop a b 0 d (float_zero, float_zero, float_zero).
Proof.
  unfold cosine_sums.
  destruct simd_path; [apply cosine_sums_lanes_exact; lia..|done].
Qed.
End cosine_exact.
End cosine_props.
End Kernels.

Module Calls.
(** the distance to row [i] of the arena is the distance to the vector
    stored there *)
Lemma l2_distance_row `{Platform} (vs : list (list float)) (d i : nat)
    (query v : list float) :
  Forall (λ v, length v = d) vs → vs !! i = Some v →
  l2_distance_simd query (drop (i * d) (concat vs)) d
  = l2_distance_simd query v d.
Proof.
  intros Hall Hv.
  rewrite <-(Kernels.l2_take query (drop _ _)),
    (row_concat_uniform vs d i v Hall Hv).
  rewrite <-(Kernels.l2_take query v). f_equal.
  rewrite Forall_forall in Hall. symmetry. apply take_ge.
  rewrite (Hall v); [done|]. by eapply list_elem_of_lookup_2.
Qed.

Lemma add_each_add_batch `{Platform} (self : VectorBatchInserter.t)
    (vectors : list (list float)) :
  Forall (λ vec, length vec = VectorBatchInserter.dimensions_ self) vectors →
  Callers.add_each self vectors = VectorBatchInserter.add_batch self vectors.
Proof.
  intros Hall. unfold VectorBatchInserter.add_batch.
  rewrite decide_False; last first.
  { intros (v & Hv & Hne)%Exists_exists. rewrite Forall_forall in Hall.
    by apply Hne, Hall. }
  revert self Hall. induction vectors as [|vec rest IH]; intros self Hall.
  - destruct self. cbn. by rewrite Nat.add_0_r.
  - apply Forall_cons in Hall as [Hvec Hrest].
    cbn [Callers.add_each]. unfold VectorBatchInserter.add.
    rewrite decide_False by (by intros ?).
    rewrite IH by done. cbn. do 2 f_equal. lia.
Qed.

Lemma search_vectors_bf `{Platform} `{!StdContracts}
    (self : VectorBatchInserter.t) (vs : list (list float))
    (query : list float) (k : nat) (res : list (nat * float)) :
  VectorBatchInserter.stores self vs →
  VectorBatchInserter.search self query k = Return self res →
  ∀ i d, (i, d) ∈ res →
    ∃ v, vs !! i = Some v ∧
         d = l2_distance_simd query v (VectorBatchInserter.dimensions self).
Proof.
  intros Hst Hsearch i d Hin.
  pose proof (BruteForce.stores_arena_bf self vs Hst) as Har.
  destruct (BruteForce.search_members self vs query k res Har Hsearch)
    as (Hq & _ & _ & Hmem & _).
  destruct (Hmem _ Hin) as [Hlt Hdist]. simpl in *. subst d.
  destruct Har as (Hn & Hd & Hall). rewrite Hn in Hlt.
  apply lookup_lt_is_Some in Hlt as [v Hv]. exists v. split; [done|].
  unfold VectorBatchInserter.query_distance, VectorBatchInserter.dimensions.
  rewrite Hd. by apply l2_distance_row.
Qed.

Section hnsw.
Context `{Platform} `{!StdContracts}.
Import HNSWIndex.

Lemma search_results (self : t) (vs : list (list float))
    (query : list float) (k : nat) (res : list (nat * float)) :
  stores self vs →
  search self query k = Return self res →
  NoDup res.*1 ∧
  (∀ i d, (i, d) ∈ res →
     ∃ v, vs !! i = Some v ∧ d = l2_distance_simd query v (dimensions self)) ∧
  (1 ≤ k → size self ≠ 0 → res ≠ []).
Proof.
  intros [Hwf Har]%Insert.stores_wf Hsearch.
  assert (length query = dimensions_ self) as Hq.
  { unfold search in Hsearch. by case_decide. }
  destruct (decide (num_vectors_ self = 0)) as [Hz|Hnz].
  { unfold search in Hsearch. rewrite decide_False in Hsearch by (by intros ?).
    rewrite decide_True in Hsearch by done. simplify_eq.
    split_and!; [constructor|by intros ?? ?%elem_of_nil|done]. }
  destruct (Insert.search_returns self query k res self Hwf Hsearch)
    as [_ Hdim].
  destruct (Insert.search_spec self query k Hwf Hq Hnz (Hdim Hnz))
    as (curr & cands & _ & _ & [Hids Hdist Hnd Hne _] & Hres).
  rewrite Hsearch in Hres. simplify_eq. split_and!.
  - rewrite <-list_fmap_compose.
    rewrite (list_fmap_ext _ SearchCandidate.id (take _ cands)) by done.
    rewrite fmap_take. eapply sublist_NoDup; [done|apply sublist_take].
  - intros i d (c & [= -> ->] & Hc)%list_elem_of_fmap.
    apply elem_of_take in Hc as (j & Hc%list_elem_of_lookup_2 & _).
    specialize (Hdist c Hc). unfold true_distance, distance_to_query in Hdist.
    destruct Har as (Hn & Hd & Hall).
    destruct (Hids c Hc) as [_ Hlt].
    rewrite (wf_nodes _ Hwf), Hn in Hlt.
    apply lookup_lt_is_Some in Hlt as [v Hv]. exists v. split; [done|].
    unfold row_ptr in Hdist. case_decide; [|done].
    cbn in Hdist. injection Hdist as Hdist.
    unfold dimensions. rewrite <-Hdist, Hd. by apply l2_distance_row.
  - intros Hk _. destruct cands as [|c cands]; [done|].
    destruct (k `min` num_vectors_ self) as [|k'] eqn:Hk'; [lia|]. done.
Qed.

Lemma search_layer_head (self : t) (query : list float)
    (entry_id ef layer curr_nearest : nat) :
  reachable self → dimensions_ self ≠ 0 →
  on_layer (nodes_ self) layer entry_id →
  ∃ c rest,
    search_layer (dimensions_ self) (data_ self) (nodes_ self) query
      entry_id ef layer = Some (c :: rest) ∧
    first_id (c :: rest) curr_nearest = SearchCandidate.id c ∧
    SearchCandidate.id c < size self ∧
    (ef ≤ 1 → rest = []).
Proof.
  intros Hwf%Insert.reachable_wf Hdim Hentry.
  pose proof Hwf as [Hdata Hnodes Hclosed _ _ _].
  assert (length (nodes_ self) * dimensions_ self ≤ length (data_ self))
    as Hrows by (rewrite Hnodes; lia).
  destruct (Graph.search_layer_old (dimensions_ self) (data_ self)
              (length (nodes_ self)) Hrows Hdim (nodes_ self)
              (length (nodes_ self)) query entry_id ef layer)
    as (res & Hsearch & [Hids _ _ Hne Hlen]);
    [done|done|by apply Insert.wf_layer_below|done
    |by eapply Graph.on_layer_lt|].
  destruct res as [|c rest]; [done|]. exists c, rest.
  split_and!; [done|done| |].
  - destruct (Hids c) as [_ ?]; [by left|]. unfold size. by rewrite <-Hnodes.
  - intros Hef. simpl in Hlen. destruct rest; [done|simpl in Hlen; lia].
Qed.

Lemma set_ef_add (self self1 self2 : t) (ef : nat)
    (vector : list float) :
  set_ef self ef = Return self1 () →
  add self vector = Return self2 () →
  ∃ self3, add self1 vector = Return self3 () ∧
           set_ef self2 ef = Return self3 ().
Proof.
  intros Hset Hadd. unfold set_ef in *. simplify_eq.
  eexists. split; [|reflexivity].
  unfold add, get_random_level in *. cbn in *.
  destruct (decide (length vector ≠ _)); [done|].
  destruct (decide (num_vectors_ self = 0)); [by simplify_eq|].
  destruct (_ ≫= _); [|done]. by simplify_eq.
Qed.

Lemma add_batch_new (dims max_elements M ef_construction : nat)
    (vectors : list (list float)) :
  dims ≠ 0 →
  Forall (λ vec, length vec = dims) vectors →
  ∃ self',
    add_batch (new dims max_elements M ef_construction) vectors
    = Return self' () ∧
    size self' = length vectors ∧ max_elements_ self' = max_elements.
Proof.
  intros Hdim Hall.
  destruct (Insert.add_batch_spec (new dims max_elements M ef_construction)
              vectors [])
    as (self' & Hadd & _ & (Hn & _) & (_ & Hme & _) & _).
  { apply Insert.wf_new. }
  { by split_and!. }
  { done. }
  cbn [dimensions_ new] in Hadd. rewrite decide_True in Hadd by done.
  exists self'. split_and!; [done| |done].
  unfold size. rewrite Hn. cbn. clear -Hall.
  induction Hall as [|v vs Hv _ IH]; [done|].
  cbn. rewrite decide_True by done. cbn. by rewrite IH.
Qed.

Lemma add_batch_rng (self self' : t) (vectors : list (list float)) :
  wf self → final_state (add_batch self vectors) = Some self' →
  rng_ self' = rng_ self + length (accepted (dimensions_ self) vectors).
Proof.
  revert self. induction vectors as [|vec rest IH]; intros self Hwf Hfin.
  { cbn in *. simplify_eq. lia. }
  cbn [add_batch accepted] in *.
  destruct (Insert.add_outcome self vec Hwf)
    as [[Hv Hadd]|[(_ & _ & _ & Hadd)
                  |(Hv & _ & self1 & Hadd & Hwf1 & _ & _ & (Hdim & _) & _
                    & Hrng)]];
    rewrite Hadd in Hfin.
  - rewrite decide_False by done. cbn in *. simplify_eq. lia.
  - done.
  - rewrite decide_True by done.
    rewrite (IH self1 Hwf1 Hfin), Hdim, Hrng. cbn. lia.
Qed.

Lemma run_rng (self self' : t) (c : call) :
  reachable self → run self c = Some self' →
  rng_ self' = rng_ self + length (stored_after (dimensions_ self) [] c).
Proof.
  intros Hwf%Insert.reachable_wf Hrun. destruct c as [v|vs|q k|ef|]; cbn in *.
  - destruct (Insert.add_outcome self v Hwf)
      as [[Hv Hadd]|[(_ & _ & _ & Hadd)
                    |(Hv & _ & self1 & Hadd & _ & _ & _ & _ & _ & Hrng)]];
      rewrite Hadd in Hrun; cbn in *; simplify_eq.
    + rewrite decide_False by done. cbn. lia.
    + rewrite decide_True by done. cbn. lia.
  - by apply add_batch_rng.
  - apply Insert.search_final_state in Hrun as ->. lia.
  - simplify_eq. cbn. lia.
  - simplify_eq. cbn. lia.
Qed.
End hnsw.
End Calls.

Module Links.
Import HNSWIndex Graph Wiring.
Section proofs.
Context `{Platform} `{!StdContracts}.

Lemma set_neighbors_ids nodes u layer l :
  HNSWNode.id <$> set_neighbors nodes u layer l = HNSWNode.id <$> nodes.
Proof.
  unfold set_neighbors. destruct (nodes !! u) as [node|] eqn:Hnode; [|done].
  rewrite list_fmap_insert. cbn. apply list_insert_id.
  by rewrite list_lookup_fmap, Hnode.
Qed.

Section arena.
Context (dimensions : nat) (data : list float) (rows : nat).
Hypothesis Hrows : rows * dimensions ≤ length data.
Hypothesis Hdim : dimensions ≠ 0.

Lemma prune_connections_exact nodes n layer M l :
  neighbors_at nodes n layer = Some l →
  n < rows → (∀ u, u ∈ l → u < rows) →
  ∃ kept dropped,
    prune_connections dimensions data nodes n layer M
    = Some (set_neighbors nodes n layer kept) ∧
    kept ++ dropped ≡ₚ l ∧
    (length l ≤ M → kept = l) ∧
    (M < length l → length kept = M) ∧
    (ordered_floats (omap (distance dimensions data n) l) →
     (∀ u w du dw, u ∈ kept → w ∈ dropped →
        distance dimensions data n u = Some du →
        distance dimensions data n w = Some dw →
        float_lt dw du = false) ∧
     (∀ i j u w du dw, M < length l → i < j →
        kept !! i = Some u → kept !! j = Some w →
        distance dimensions data n u = Some du →
        distance dimensions data n w = Some dw →
        float_lt dw du = false)).
Proof.
  intros Hl Hn Hlrows. unfold prune_connections.
  pose proof (set_neighbors_id _ _ _ _ Hl) as Hid.
  unfold neighbors_at in Hl.
  destruct (nodes !! n) as [node|] eqn:Hnode; simplify_eq/=.
  rewrite Hl. simpl. destruct (decide (length l ≤ M)) as [Hle|Hgt].
  { exists l, []. rewrite Hid, app_nil_r.
    split_and!; [done|done|done|lia|]. intros _. split; [|lia].
    by intros ???? _ ?%elem_of_nil. }
  set (f := λ neighbor_id : nat,
         d ← distance dimensions data n neighbor_id;
         Some (SearchCandidate.mk neighbor_id d)).
  destruct (mapM f l) as [cands|] eqn:Hmap; last first.
  { apply mapM_None_1, Exists_exists in Hmap as (u & Hu & Hnone).
    destruct (distance_Some dimensions data rows Hrows Hdim n u) as [d Hd];
      [done|by auto|].
    unfold f in Hnone. by rewrite Hd in Hnone. }
  simpl. assert (SearchCandidate.id <$> cands = l) as Hids.
  { eapply mapM_fmap_Some_inv; [done|]. intros u c Hc. unfold f in Hc.
    destruct (distance _ _ _ _); by simplify_eq/=. }
  assert (∀ c, c ∈ cands →
            distance dimensions data n (SearchCandidate.id c)
            = Some (SearchCandidate.distance c)) as Htrue.
  { intros c Hc. rewrite mapM_Some in Hmap.
    apply list_elem_of_lookup in Hc as [i Hi].
    destruct (Forall2_lookup_r _ _ _ _ _ Hmap Hi) as (u & _ & Hfu).
    unfold f in Hfu. destruct (distance _ _ n u) eqn:Hd; by simplify_eq/=. }
  pose proof (sort_perm _ SearchCandidate.lt cands float_order_lt) as Hperm.
  assert (ordered_floats (omap (distance dimensions data n) l) →
          ascending SearchCandidate.lt (std_sort SearchCandidate.lt cands))
    as Hsorted.
  { intros Hds.
    apply (sort_spec _ SearchCandidate.lt cands float_order_lt).
    apply (strict_weak_order_lt SearchCandidate.distance); [done|].
    eapply ordered_floats_subseteq; [|exact Hds].
    intros d (c & -> & Hc)%list_elem_of_fmap.
    apply list_elem_of_omap. exists (SearchCandidate.id c).
    split; [|by apply Htrue].
    rewrite <-Hids. by apply list_elem_of_fmap_2. }
  set (sorted := std_sort SearchCandidate.lt cands) in *.
  assert (∀ c, c ∈ sorted →
            distance dimensions data n (SearchCandidate.id c)
            = Some (SearchCandidate.distance c)) as Htrue'.
  { intros c Hc. apply Htrue. by rewrite <-Hperm. }
  exists (SearchCandidate.id <$> take M sorted),
         (SearchCandidate.id <$> drop M sorted).
  split; [unfold set_neighbors; by rewrite Hnode|].
  split_and!.
  - by rewrite <-fmap_app, take_drop, Hperm, Hids.
  - lia.
  - intros _. rewrite length_fmap, length_take, Hperm.
    rewrite <-Hids, length_fmap in Hgt. lia.
  - intros Hasc%Hsorted. split.
    { intros u w du dw (c & -> & Hc)%list_elem_of_fmap
      (c' & -> & Hc')%list_elem_of_fmap Hdu Hdw.
    apply list_elem_of_lookup in Hc as [i Hi], Hc' as [j Hj].
    apply lookup_take_Some in Hi as [Hi HiM].
    rewrite lookup_drop in Hj.
    rewrite Htrue' in Hdu by by eapply list_elem_of_lookup_2.
    rewrite Htrue' in Hdw by by eapply list_elem_of_lookup_2.
    simplify_eq. apply (Hasc i (M + j) c c'); [lia|done|done]. }
    intros i j u w du dw _ Hij Hi Hj Hdu Hdw.
    rewrite list_lookup_fmap in Hi, Hj.
    destruct (take M sorted !! i) as [c|] eqn:Hc; [|done].
    destruct (take M sorted !! j) as [c'|] eqn:Hc'; [|done].
    simplify_eq/=.
    apply lookup_take_Some in Hc as [Hc _], Hc' as [Hc' _].
    rewrite Htrue' in Hdu by by eapply list_elem_of_lookup_2.
    rewrite Htrue' in Hdw by by eapply list_elem_of_lookup_2.
    simplify_eq. by apply (Hasc i j c c').
Qed.

Lemma link_exact nodes new_id lc M (neighbor : SearchCandidate.t) l_new l_n :
  let n := SearchCandidate.id neighbor in
  length nodes ≤ rows →
  neighbors_at nodes new_id lc = Some l_new →
  neighbors_at nodes n lc = Some l_n → n ≠ new_id →
  layer_below nodes rows lc →
  ∃ nodes' lf,
    link dimensions data new_id lc M nodes neighbor = Some nodes' ∧
    HNSWNode.id <$> nodes' = HNSWNode.id <$> nodes ∧
    shape nodes' = shape nodes ∧
    (∀ v layer,
       neighbors_at nodes' v layer =
       if decide (v = n ∧ layer = lc) then Some lf
       else if decide (v = new_id ∧ layer = lc) then Some (l_new ++ [n])
            else neighbors_at nodes v layer) ∧
    lf ⊆+ l_n ++ [new_id] ∧
    (lf = l_n ++ [new_id] ∨ length lf = M ∧ M ≤ length l_n).
Proof.
  intros n Hlen Hnew Hn Hne Hbelow. unfold link. fold n.
  assert (on_layer nodes lc new_id) as Hon_new by by eexists.
  assert (on_layer nodes lc n) as Hon_n by by eexists.
  rewrite (push_back_neighbor_eq _ _ _ _ l_new) by done.
  cbn [mbind option_bind].
  set (nodes1 := set_neighbors nodes new_id lc (l_new ++ [n])).
  assert (on_layer nodes1 lc n) as Hon_n1.
  { eapply on_layer_same_shape; [apply set_neighbors_shape|done]. }
  assert (neighbors_at nodes1 n lc = Some l_n) as Hn1.
  { unfold nodes1. rewrite neighbors_at_set by done.
    by rewrite decide_False by (by intros [? _]). }
  rewrite (push_back_neighbor_eq _ _ _ _ l_n) by done.
  cbn [mbind option_bind].
  set (nodes2 := set_neighbors nodes1 n lc (l_n ++ [new_id])).
  assert (neighbors_at nodes2 n lc = Some (l_n ++ [new_id])) as Hn2.
  { unfold nodes2. rewrite neighbors_at_set by done.
    by rewrite decide_True. }
  assert (on_layer nodes2 lc n) as Hon_n2 by by eexists.
  rewrite Hn2. cbn [mbind option_bind].
  assert (new_id < rows) as Hnew_lt.
  { apply on_layer_lt in Hon_new. lia. }
  assert (n < rows) as Hn_lt.
  { apply on_layer_lt in Hon_n. lia. }
  destruct (prune_connections_exact nodes2 n lc M (l_n ++ [new_id]))
    as (kept & dropped & Hprune & Hperm & _ & Hklen & _); [done|done|..].
  { intros u [Hu| ->%list_elem_of_singleton]%elem_of_app; [|done].
    by eapply Hbelow. }
  set (final := λ lf, set_neighbors nodes2 n lc lf).
  assert (∀ lf v layer,
            neighbors_at (final lf) v layer =
            if decide (v = n ∧ layer = lc) then Some lf
            else if decide (v = new_id ∧ layer = lc)
                 then Some (l_new ++ [n])
                 else neighbors_at nodes v layer) as Hfinal.
  { intros lf v layer. unfold final.
    rewrite neighbors_at_set by done. case_decide; [done|].
    unfold nodes2. rewrite neighbors_at_set by done.
    rewrite decide_False by done.
    unfold nodes1. by rewrite neighbors_at_set by done. }
  assert (∀ lf, shape (final lf) = shape nodes) as Hshape.
  { intros lf. unfold final, nodes2, nodes1.
    by rewrite !set_neighbors_shape. }
  assert (∀ lf, HNSWNode.id <$> final lf = HNSWNode.id <$> nodes) as Hids.
  { intros lf. unfold final, nodes2, nodes1.
    by rewrite !set_neighbors_ids. }
  destruct (decide (M < length (l_n ++ [new_id]))) as [Hgt|Hle].
  - rewrite Hprune. exists (final kept), kept.
    split_and!; [done|apply Hids|apply Hshape|apply Hfinal| |].
    + rewrite <-Hperm. by apply submseteq_inserts_r.
    + right. rewrite length_app in Hgt. simpl in Hgt.
      split; [|lia]. apply Hklen. rewrite length_app. simpl. lia.
  - exists (final (l_n ++ [new_id])), (l_n ++ [new_id]).
    split_and!; [|apply Hids|apply Hshape|apply Hfinal|done|by left].
    unfold final. by rewrite set_neighbors_id.
Qed.

Lemma link_all_exact nodes new_id lc M (ns : list SearchCandidate.t) l_new :
  length nodes ≤ rows →
  neighbors_at nodes new_id lc = Some l_new →
  (∀ c, c ∈ ns → on_layer nodes lc (SearchCandidate.id c) ∧
                 SearchCandidate.id c ≠ new_id) →
  layer_below nodes rows lc →
  NoDup (SearchCandidate.id <$> ns) →
  ∃ nodes',
    link_all dimensions data new_id lc M nodes ns = Some nodes' ∧
    HNSWNode.id <$> nodes' = HNSWNode.id <$> nodes ∧
    shape nodes' = shape nodes ∧
    (∀ v layer, layer ≠ lc →
       neighbors_at nodes' v layer = neighbors_at nodes v layer) ∧
    neighbors_at nodes' new_id lc
    = Some (l_new ++ (SearchCandidate.id <$> ns)) ∧
    ∀ v l, v ≠ new_id → neighbors_at nodes v lc = Some l →
      ∃ l', neighbors_at nodes' v lc = Some l' ∧
            if decide (v ∈ SearchCandidate.id <$> ns)
            then l' ⊆+ l ++ [new_id] ∧
                 (l' = l ++ [new_id] ∨ length l' = M ∧ M ≤ length l)
            else l' = l.
Proof.
  revert nodes l_new.
  induction ns as [|c ns IH]; intros nodes l_new Hlen Hnew Hns Hbelow Hnd.
  - cbn [link_all fmap list_fmap]. exists nodes. rewrite app_nil_r.
    split_and!; [done..|]. intros v l _ Hl. exists l. split; [done|].
    case_decide as Hin; [by apply elem_of_nil in Hin|done].
  - destruct (Hns c) as [[l_n Hc_on] Hc_ne]; [by left|].
    cbn [fmap list_fmap] in Hnd. apply NoDup_cons in Hnd as [Hc_notin Hnd].
    destruct (link_exact nodes new_id lc M c l_new l_n)
      as (nodes1 & lf & Hlink & Hids1 & Hshape1 & Hat1 & Hsub & Hlf);
      [done..|].
    cbn [link_all]. rewrite Hlink. cbn [mbind option_bind].
    assert (neighbors_at nodes1 new_id lc
            = Some (l_new ++ [SearchCandidate.id c])) as Hnew1.
    { rewrite Hat1. rewrite decide_False by (by intros [? _]).
      by rewrite decide_True. }
    assert (new_id < rows) as Hnew_lt.
    { assert (on_layer nodes lc new_id) as Hon by by eexists.
      apply on_layer_lt in Hon. lia. }
    assert (SearchCandidate.id c < rows) as Hc_lt.
    { assert (on_layer nodes lc (SearchCandidate.id c)) as Hon by by eexists.
      apply on_layer_lt in Hon. lia. }
    destruct (IH nodes1 (l_new ++ [SearchCandidate.id c]))
      as (nodes2 & Hall & Hids2 & Hshape2 & Hother2 & Hnew2 & Hold2).
    + by rewrite (shape_length nodes nodes1).
    + done.
    + intros c' Hc'. destruct (Hns c') as [? ?]; [by right|].
      split; [|done]. by eapply on_layer_same_shape.
    + intros v l u. rewrite Hat1. repeat case_decide.
      * intros [= <-] Hu.
        assert (u ∈ l_n ++ [new_id]) as Hu'
          by (by eapply elem_of_submseteq).
        apply elem_of_app in Hu' as [Hu'| ->%list_elem_of_singleton];
          [by apply (Hbelow (SearchCandidate.id c) l_n)|done].
      * intros [= <-] [Hu| ->%list_elem_of_singleton]%elem_of_app;
          [by apply (Hbelow new_id l_new)|done].
      * apply Hbelow.
    + done.
    + exists nodes2. split_and!.
      * done.
      * congruence.
      * congruence.
      * intros v layer Hne. rewrite Hother2 by done. rewrite Hat1.
        by rewrite !decide_False by (by intros [_ ?]).
      * by rewrite Hnew2, <-app_assoc.
      * intros v l Hv Hl. cbn [fmap list_fmap].
        destruct (decide (v = SearchCandidate.id c)) as [->|Hvc].
        -- rewrite Hc_on in Hl. simplify_eq.
           destruct (Hold2 (SearchCandidate.id c) lf) as (l' & Hl' & Hcase);
             [done|by rewrite Hat1, decide_True|].
           rewrite decide_False in Hcase by done. subst l'.
           exists lf. split; [done|].
           rewrite decide_True by by left. done.
        -- destruct (Hold2 v l) as (l' & Hl' & Hcase); [done| |].
           { rewrite Hat1. rewrite decide_False by (by intros [? _]).
             by rewrite decide_False by (by intros [? _]). }
           exists l'. split; [done|].
           destruct (decide (v ∈ SearchCandidate.id <$> ns)) as [Hin|Hin].
           ++ by rewrite decide_True by by right.
           ++ rewrite decide_False; [done|].
              by intros [?|?]%elem_of_cons.
Qed.

Lemma rewired_nil new_id M nodes : rewired new_id M [] nodes nodes.
Proof. split; [done..|by intros ?? ?%elem_of_nil|by intros ???? ?%elem_of_nil]. Qed.

Lemma insert_layers_exact m m_max ef_construction query new_id
    nodes curr layers top :
  rows = S new_id →
  StronglySorted (λ a b, b < a) layers →
  (∀ layer, layer ∈ layers → layer ≤ top) →
  length nodes = S new_id →
  (∀ layer, layer ∈ layers →
     layer_closed nodes layer ∧ layer_below nodes new_id layer ∧
     neighbors_at nodes new_id layer = Some []) →
  on_layer nodes top curr → curr < new_id →
  ∃ nodes', insert_layers dimensions data m m_max ef_construction query
              new_id nodes curr layers = Some nodes' ∧
            rewired new_id (max_degree m m_max) layers nodes nodes'.
Proof.
  intros Hrows' Hsorted. revert nodes curr top.
  induction Hsorted as [|lc layers _ IH Hlt];
    intros nodes curr top Htop Hlen Hfresh Hon Hcurr; simpl.
  - exists nodes. split; [done|apply rewired_nil].
  - destruct (Hfresh lc) as (Hclosed & Hbelow & Hnew); [by left|].
    assert (lc ≤ top) as Hle by (apply Htop; by left).
    rewrite Forall_forall in Hlt.
    destruct (search_layer_old dimensions data rows Hrows Hdim nodes new_id
                query curr ef_construction lc)
      as (res & -> & Hres); [lia|done..|by eapply on_layer_le|done|].
    cbn [mbind option_bind].
    set (M := if decide (lc = 0) then m_max else m).
    assert (∀ c, c ∈ take M res → old nodes new_id lc (SearchCandidate.id c))
      as Htake.
    { intros c (i & Hc%list_elem_of_lookup_2 & _)%elem_of_take.
      by apply (res_ids _ _ _ _ _ _ Hres). }
    assert (NoDup (SearchCandidate.id <$> take M res)) as Hnd.
    { rewrite fmap_take. eapply sublist_NoDup; [|apply sublist_take].
      apply (res_NoDup _ _ _ _ _ _ Hres). }
    destruct (link_all_exact nodes new_id lc M (take M res) [])
      as (nodes1 & -> & Hids1 & Hshape1 & Hother1 & Hnew1 & Hold1);
      [lia|done|..|done|].
    { intros c [? ?]%Htake. split; [done|lia]. }
    { intros v l u Hl Hu. pose proof (Hbelow v l u Hl Hu). lia. }
    cbn [mbind option_bind]. cbn [app] in Hnew1.
    assert (old nodes new_id lc (first_id (take M res) curr)) as [Hon1 Hlt1].
    { destruct (take M res) as [|c ?] eqn:Hc; simpl.
      - split; [by eapply on_layer_le|done].
      - apply Htake. by left. }
    destruct (IH nodes1 (first_id (take M res) curr) lc)
      as (nodes2 & -> & [Hids2 Hshape2 Hother2 Hnew2 Hold2]).
    + intros layer ?%Hlt. lia.
    + by rewrite (shape_length nodes nodes1).
    + intros layer Hin.
      assert (layer ≠ lc) as Hne by (apply Hlt in Hin; lia).
      destruct (Hfresh layer) as (Hc & Hb & Hn); [by right|].
      split_and!.
      * intros v l u. rewrite Hother1 by done. intros Hl Hu.
        eapply on_layer_same_shape; [done|]. by eapply Hc.
      * intros v l u. rewrite Hother1 by done. apply Hb.
      * by rewrite Hother1.
    + by eapply on_layer_same_shape.
    + done.
    + assert (lc ∉ layers) as Hlc by (intros ?%Hlt; lia).
      exists nodes2. split; [done|]. split.
      * congruence.
      * congruence.
      * intros v layer Hnin. rewrite not_elem_of_cons in Hnin.
        destruct Hnin as [? ?]. rewrite Hother2 by done. by apply Hother1.
      * intros layer l_new [->|Hin]%elem_of_cons.
        -- rewrite Hother2, Hnew1 by done. intros [= <-]. split; [done|].
           intros u (c & -> & Hc)%list_elem_of_fmap.
           by apply Htake in Hc as [_ ?].
        -- by apply Hnew2.
      * intros v layer l l_new [->|Hin]%elem_of_cons Hv Hl.
        -- rewrite !Hother2, Hnew1 by done. intros [= <-].
           destruct (Hold1 v l Hv Hl) as (l' & Hl' & Hcase).
           exists l'. split; [done|]. unfold max_degree. by fold M.
        -- assert (layer ≠ lc) as Hne by (apply Hlt in Hin; lia).
           apply Hold2; [done|done|]. by rewrite Hother1.
Qed.
End arena.
End proofs.
End Links.

Module Invariants.
Import HNSWIndex Graph Insert Wiring Links.
Section proofs.
Context `{Platform} `{!StdContracts}.

Lemma add_exact self vector :
  wf self → length vector = dimensions_ self →
  dimensions_ self ≠ 0 ∨ num_vectors_ self = 0 →
  let n := num_vectors_ self in
  let level := get_random_level self in
  let promote := n = 0 ∨ max_layer_ self < level in
  ∃ self',
    add self vector = Return self' () ∧
    rewired n (max_degree (M_ self) (M_max_ self))
      (if decide (n = 0) then []
       else layers_down_to_0 (level `min` max_layer_ self))
      (nodes_ self ++ [HNSWNode.new n (level `max` max_layer_ self)])
      (nodes_ self') ∧
    entry_point_ self'
    = (if decide promote then n else entry_point_ self) ∧
    max_layer_ self' = (if decide promote then level else max_layer_ self).
Proof.
  intros [Hdata Hnodes Hclosed Hdeg Hentry HM] Hvec Hdim0 n level promote.
  unfold add. rewrite decide_False by (by intros ?).
  fold n level. set (top := level `max` max_layer_ self).
  set (nodes0 := nodes_ self ++ [HNSWNode.new n top]).
  destruct (decide (n = 0)) as [Hz|Hnz].
  { eexists. split; [done|]. cbn. unfold promote.
    rewrite !decide_True by by left. split_and!; [apply rewired_nil|done..]. }
  assert (length (data_ self ++ vector) = S n * dimensions_ self) as Hdata'.
  { rewrite length_app. unfold n. lia. }
  assert (linking (M_ self) (M_max_ self) n
            (layers_down_to_0 (level `min` max_layer_ self)) nodes0)
    as [Hlen0 Hclosed0 Hdeg0 Hfresh0].
  { apply emplace_back_linking; [done..|].
    intros layer ?%elem_of_layers_down_to_0. unfold top. lia. }
  specialize (Hentry Hnz).
  assert (dimensions_ self ≠ 0) as Hdim by by destruct Hdim0.
  assert (entry_point_ self < n) as Hentry_lt.
  { unfold n. rewrite <-Hnodes. by eapply on_layer_lt. }
  assert (S n * dimensions_ self ≤ length (data_ self ++ vector)) as Hrows
    by lia.
  destruct (greedy_descent_spec (dimensions_ self) (data_ self ++ vector)
              (S n) Hrows Hdim nodes0 n vector
              (layers_down (max_layer_ self) level)
              (entry_point_ self) (max_layer_ self))
    as (curr & -> & Hcurr & Hcurr_on).
  - lia.
  - apply layers_down_sorted.
  - intros layer Hl%elem_of_layers_down. split_and!; [lia|done|].
    unfold nodes0, n. rewrite <-Hnodes. by apply emplace_back_below.
  - by apply emplace_back_on_layer.
  - done.
  - cbn [mbind option_bind].
    destruct (insert_layers_exact (dimensions_ self) (data_ self ++ vector)
                (S n) Hrows Hdim (M_ self) (M_max_ self)
                (ef_construction_ self) vector n nodes0 curr
                (layers_down_to_0 (level `min` max_layer_ self))
                (level `min` max_layer_ self))
      as (nodes' & -> & Hrew).
    + done.
    + apply layers_down_to_0_sorted.
    + by intros layer ?%elem_of_layers_down_to_0.
    + done.
    + intros layer Hin. destruct (Hfresh0 layer Hin). by split_and!.
    + apply Hcurr_on; [lia|].
      intros lc ?%elem_of_layers_down. lia.
    + done.
    + eexists. split; [done|]. cbn. split_and!; [done|..].
      * unfold promote. case_bool_decide.
        -- by rewrite decide_True by by right.
        -- rewrite decide_False; [done|]. intros [?|?]; [done|lia].
      * unfold promote. case_bool_decide.
        -- by rewrite decide_True by by right.
        -- rewrite decide_False; [done|]. intros [?|?]; [done|lia].
Qed.

Lemma add_batch_ind (Q : t → Prop) :
  (∀ self vector self',
     wf self → Q self → add self vector = Return self' () → Q self') →
  ∀ vectors self self',
    wf self → Q self → final_state (add_batch self vectors) = Some self' →
    Q self'.
Proof.
  intros Hadd. induction vectors as [|vec rest IH]; intros self self' Hwf HQ Hf.
  { cbn in Hf. by simplify_eq. }
  cbn [add_batch] in Hf.
  destruct (add_outcome self vec Hwf)
    as [[Hv Hadd1]|[(_ & _ & _ & Hadd1)|(Hv & _ & self1 & Hadd1 & Hwf1 & _)]];
    rewrite Hadd1 in Hf.
  - cbn in Hf. by simplify_eq.
  - done.
  - apply (IH self1 self'); [done|by apply (Hadd self vec)|done].
Qed.

Lemma reachable_add_ind (Q : t → Prop) :
  (∀ dimensions max_elements M ef_construction,
     Q (new dimensions max_elements M ef_construction)) →
  (∀ self vector self',
     wf self → Q self → add self vector = Return self' () → Q self') →
  (∀ self self', Q self → clear self = Return self' () → Q self') →
  (∀ self ef self', Q self → set_ef self ef = Return self' () → Q self') →
  ∀ self, reachable self → Q self.
Proof.
  intros Hnew Hadd Hclear Hset. induction 1 as [|self c self' Hr IH Hrun].
  { apply Hnew. }
  apply reachable_wf in Hr as Hwf. destruct c as [v|vs|q k|ef|]; cbn in Hrun.
  - apply (add_batch_ind Q Hadd [v] self self'); [done..|].
    cbn [add_batch]. by destruct (add self v) as [s []|s e|].
  - by apply (add_batch_ind Q Hadd vs self self').
  - by apply search_final_state in Hrun as ->.
  - injection Hrun as <-. by apply (Hset self ef).
  - injection Hrun as <-. by apply (Hclear self).
Qed.

Lemma reachable_ids self : reachable self → ids_in_order (nodes_ self).
Proof.
  revert self. apply reachable_add_ind.
  - by intros ???? i node ?.
  - intros self vector self' Hwf HQ Hadd.
    destruct (add_returns self vector self' () Hwf Hadd) as (Hv & Hdim & _).
    destruct (add_exact self vector Hwf Hv Hdim)
      as (s & Hs & [Hids _ _ _ _] & _).
    rewrite Hadd in Hs. injection Hs as <-.
    intros i node Hi.
    assert ((HNSWNode.id <$> nodes_ self') !! i = Some (HNSWNode.id node)) as Hi'
      by by rewrite list_lookup_fmap, Hi.
    rewrite Hids, fmap_app in Hi'. cbn in Hi'.
    apply lookup_app_Some in Hi' as [Hi'|[Hge Hi']].
    + rewrite list_lookup_fmap in Hi'.
      destruct (nodes_ self !! i) as [node'|] eqn:Hn'; [|done].
      simplify_eq/=. rewrite <-Hi'. by apply HQ.
    + rewrite length_fmap in Hge, Hi'.
      apply list_lookup_singleton_Some in Hi' as [Hi' <-].
      rewrite (wf_nodes _ Hwf) in Hi', Hge. lia.
  - intros self self' _ Hc. unfold clear in Hc. simplify_eq.
    by intros i node ?.
  - intros self ef self' HQ Hs. unfold set_ef in Hs. by simplify_eq.
Qed.

(** the lists of the graph before [add] links the new node *)
Lemma neighbors_at_old self top v layer l :
  wf self →
  neighbors_at (nodes_ self ++ [HNSWNode.new (num_vectors_ self) top])
    v layer = Some l →
  (v < num_vectors_ self ∧ neighbors_at (nodes_ self) v layer = Some l) ∨
  (v = num_vectors_ self ∧ layer ≤ top ∧ l = []).
Proof.
  intros Hwf. rewrite neighbors_at_emplace_back, (wf_nodes _ Hwf).
  repeat case_decide; [by left| |done]. intros [= <-]. right. by intuition.
Qed.

Lemma rewired_simple self top layers nodes' :
  wf self →
  simple_lists (nodes_ self) →
  (∀ layer, layer ∈ layers → layer ≤ top) →
  rewired (num_vectors_ self) (max_degree (M_ self) (M_max_ self)) layers
    (nodes_ self ++ [HNSWNode.new (num_vectors_ self) top]) nodes' →
  simple_lists nodes'.
Proof.
  intros Hwf HQ Htop [Hids Hshape Hother Hnew Hold] v layer l' Hl'.
  set (n := num_vectors_ self) in *.
  set (nodes0 := nodes_ self ++ [HNSWNode.new n top]) in *.
  assert (∀ u l, neighbors_at nodes0 u layer = Some l → NoDup l ∧ u ∉ l)
    as HQ0.
  { intros u l Hl.
    destruct (neighbors_at_old self top u layer l Hwf Hl)
      as [[_ Hl0]|(_ & _ & ->)].
    - by eapply HQ.
    - split; [constructor|by intros ?%elem_of_nil]. }
  destruct (decide (layer ∈ layers)) as [Hin|Hnin]; last first.
  { rewrite Hother in Hl' by done. by apply HQ0. }
  destruct (decide (v = n)) as [->|Hv].
  { destruct (Hnew layer l' Hin Hl') as [Hnd Hlt]. split; [done|].
    intros ?%Hlt. lia. }
  assert (on_layer nodes0 layer v) as [l Hl].
  { eapply on_layer_same_shape; [symmetry; apply Hshape|]. by eexists. }
  assert (on_layer nodes' layer n) as [l_new Hl_new].
  { eapply on_layer_same_shape; [apply Hshape|]. exists [].
    unfold nodes0. rewrite neighbors_at_emplace_back, (wf_nodes _ Hwf).
    rewrite decide_False by (unfold n; lia).
    rewrite decide_True; [done|]. split; [done|by apply Htop]. }
  destruct (Hold v layer l l_new Hin Hv Hl Hl_new) as (l'' & Hl'' & Hcase).
  rewrite Hl' in Hl''. simplify_eq.
  destruct (HQ0 v l Hl) as [Hnd Hvl].
  case_decide; [|by subst].
  destruct Hcase as [Hsub _].
  assert (n ∉ l) as Hn.
  { destruct (neighbors_at_old self top v layer l Hwf Hl)
      as [[_ Hl0]|(_ & _ & ->)].
    - intros Hu.
      pose proof (wf_layer_below self layer Hwf v l n Hl0 Hu) as Hlt.
      rewrite (wf_nodes _ Hwf) in Hlt. unfold n in Hlt. lia.
    - by intros ?%elem_of_nil. }
  split.
  - eapply submseteq_NoDup; [done|]. apply NoDup_app. split_and!; [done| |].
    + intros u Hu ->%list_elem_of_singleton. done.
    + apply NoDup_singleton.
  - intros Hvl'. eapply elem_of_submseteq in Hvl'; [|done].
    apply elem_of_app in Hvl' as [?| ->%list_elem_of_singleton]; done.
Qed.

Lemma add_layers_le self :
  ∀ layer,
    layer ∈ (if decide (num_vectors_ self = 0) then []
             else layers_down_to_0
                    (get_random_level self `min` max_layer_ self)) →
    layer ≤ get_random_level self `max` max_layer_ self.
Proof.
  intros layer. case_decide; [by intros ?%elem_of_nil|].
  intros ?%elem_of_layers_down_to_0. lia.
Qed.

Lemma add_valid self vector self' :
  wf self → add self vector = Return self' () →
  length vector = dimensions_ self ∧
  (dimensions_ self ≠ 0 ∨ num_vectors_ self = 0).
Proof.
  intros Hwf Hadd.
  by destruct (add_returns self vector self' () Hwf Hadd) as (? & ? & _).
Qed.

Lemma reachable_simple self : reachable self → simple_lists (nodes_ self).
Proof.
  revert self. apply reachable_add_ind.
  - intros ???? v layer l Hl. unfold neighbors_at in Hl. cbn in Hl.
    by rewrite lookup_nil in Hl.
  - intros self vector self' Hwf HQ Hadd.
    destruct (add_valid _ _ _ Hwf Hadd) as [Hv Hdim].
    destruct (add_exact self vector Hwf Hv Hdim) as (s & Hs & Hrew & _).
    rewrite Hadd in Hs. injection Hs as <-.
    eapply rewired_simple; [done|done|apply add_layers_le|done].
  - intros self self' _ Hc. unfold clear in Hc. simplify_eq.
    intros v layer l Hl. unfold neighbors_at in Hl. cbn in Hl.
    by rewrite lookup_nil in Hl.
  - intros self ef self' HQ Hs. unfold set_ef in Hs. by simplify_eq.
Qed.

Lemma shape_emplace_back nodes new_id top :
  shape (nodes ++ [HNSWNode.new new_id top]) = shape nodes ++ [top + 1].
Proof.
  unfold shape. rewrite fmap_app. cbn. by rewrite length_replicate.
Qed.

Lemma add_levels self vector self' :
  wf self → levels_ok self → add self vector = Return self' () →
  levels_ok self' ∧
  shape (nodes_ self')
  = shape (nodes_ self)
    ++ [get_random_level self `max` max_layer_ self + 1] ∧
  max_layer_ self' = get_random_level self `max` max_layer_ self ∧
  entry_point_ self'
  = (if decide (num_vectors_ self = 0
                ∨ max_layer_ self < get_random_level self)
     then num_vectors_ self else entry_point_ self).
Proof.
  intros Hwf (Hzero & Hbound & Hentry) Hadd.
  destruct (add_valid _ _ _ Hwf Hadd) as [Hv Hdim].
  destruct (add_exact self vector Hwf Hv Hdim)
    as (s & Hs & [_ Hshape _ _ _] & He & Hm).
  rewrite Hadd in Hs. injection Hs as <-.
  destruct (add_wf self vector Hwf Hv Hdim) as (s' & Hs' & _ & _ & Hn & _).
  rewrite Hadd in Hs'. injection Hs' as <-.
  rewrite shape_emplace_back in Hshape.
  set (level := get_random_level self) in *.
  assert (length (shape (nodes_ self)) = num_vectors_ self) as Hlen.
  { unfold shape. by rewrite length_fmap, (wf_nodes _ Hwf). }
  assert (max_layer_ self' = level `max` max_layer_ self) as Hmax.
  { rewrite Hm. case_decide as Hp; [|lia].
    destruct Hp as [Hz|?]; [|lia]. destruct (Hzero Hz). lia. }
  split_and!; [split_and!|done|done|done].
  - lia.
  - intros i k. rewrite Hshape, Hmax.
    intros [Hi|[_ Hi]]%lookup_app_Some.
    + apply Hbound in Hi. lia.
    + apply list_lookup_singleton_Some in Hi as [_ <-]. lia.
  - intros _. rewrite Hshape, He, Hmax. case_decide as Hp.
    + rewrite lookup_app_r by lia. by rewrite Hlen, Nat.sub_diag.
    + assert (num_vectors_ self ≠ 0) as Hnz by (intros ?; apply Hp; by left).
      rewrite lookup_app_l.
      * rewrite (Hentry Hnz). do 2 f_equal. lia.
      * apply lookup_lt_is_Some. rewrite (Hentry Hnz). by eexists.
Qed.

Lemma reachable_levels self : reachable self → levels_ok self.
Proof.
  revert self. apply reachable_add_ind.
  - intros ????. split_and!; [done| |done]. by intros i k ?.
  - intros self vector self' Hwf HQ Hadd.
    by destruct (add_levels self vector self' Hwf HQ Hadd).
  - intros self self' _ Hc. unfold clear in Hc. simplify_eq.
    split_and!; [done| |done]. by intros i k ?.
  - intros self ef self' HQ Hs. unfold set_ef in Hs. by simplify_eq.
Qed.
Lemma add_frame self vector self' :
  wf self → add self vector = Return self' () →
  let n := num_vectors_ self in
  let low := get_random_level self `min` max_layer_ self in
  (∀ v layer l, neighbors_at (nodes_ self) v layer = Some l →
     ∃ l', neighbors_at (nodes_ self') v layer = Some l' ∧
           l' ⊆+ l ++ [n] ∧ (low < layer → l' = l)) ∧
  (∀ layer, low < layer →
     layer ≤ get_random_level self `max` max_layer_ self →
     neighbors_at (nodes_ self') n layer = Some []).
Proof.
  intros Hwf Hadd n low.
  destruct (add_valid _ _ _ Hwf Hadd) as [Hv Hdim].
  destruct (add_exact self vector Hwf Hv Hdim)
    as (s & Hs & [_ Hshape Hother Hnew Hold] & _).
  rewrite Hadd in Hs. injection Hs as <-. fold n in Hshape, Hother, Hnew, Hold.
  set (top := get_random_level self `max` max_layer_ self) in *.
  set (nodes0 := nodes_ self ++ [HNSWNode.new n top]) in *.
  set (layers := if decide (n = 0) then [] else layers_down_to_0 low) in *.
  assert (∀ layer, layer ∈ layers → layer ≤ low) as Hlow.
  { intros layer. unfold layers. case_decide; [by intros ?%elem_of_nil|].
    by intros ?%elem_of_layers_down_to_0. }
  split.
  - intros v layer l Hl.
    assert (v < n) as Hvn.
    { unfold n. rewrite <-(wf_nodes _ Hwf). apply (on_layer_lt _ layer).
      by eexists. }
    assert (neighbors_at nodes0 v layer = Some l) as Hl0.
    { unfold nodes0. rewrite neighbors_at_emplace_back, (wf_nodes _ Hwf).
      by rewrite decide_True by done. }
    destruct (decide (layer ∈ layers)) as [Hin|Hnin]; last first.
    { exists l. rewrite Hother by done.
      split_and!; [done|by apply submseteq_inserts_r|done]. }
    assert (on_layer (nodes_ self') layer n) as [l_new Hl_new].
    { eapply on_layer_same_shape; [apply Hshape|]. exists [].
      unfold nodes0. rewrite neighbors_at_emplace_back, (wf_nodes _ Hwf).
      rewrite decide_False by (unfold n; lia).
      rewrite decide_True; [done|]. split; [done|].
      apply Hlow in Hin. unfold low, top in *. lia. }
    destruct (Hold v layer l l_new) as (l' & Hl' & Hcase); [done|lia|done..|].
    exists l'. split; [done|]. apply Hlow in Hin. split; [|lia].
    case_decide; [by destruct Hcase|]. subst l'. by apply submseteq_inserts_r.
  - intros layer Hlt Hle. rewrite Hother.
    + unfold nodes0. rewrite neighbors_at_emplace_back, (wf_nodes _ Hwf).
      rewrite decide_False by (unfold n; lia). by rewrite decide_True.
    + intros ?%Hlow. lia.
Qed.

Lemma add_back_links self vector self' :
  wf self → add self vector = Return self' () →
  let n := num_vectors_ self in
  ∀ layer l_new,
    neighbors_at (nodes_ self') n layer = Some l_new →
    (∀ u, u ∈ l_new →
       u < n ∧
       ∃ lu, neighbors_at (nodes_ self') u layer = Some lu ∧
             (n ∈ lu ∨ length lu = max_degree (M_ self) (M_max_ self) layer)) ∧
    (∀ u lu, neighbors_at (nodes_ self') u layer = Some lu →
             n ∈ lu → u ∈ l_new).
Proof.
  intros Hwf Hadd n layer l_new Hl_new.
  destruct (add_valid _ _ _ Hwf Hadd) as [Hv Hdim].
  destruct (add_exact self vector Hwf Hv Hdim)
    as (s & Hs & [_ Hshape Hother Hnew Hold] & _).
  rewrite Hadd in Hs. injection Hs as <-. fold n in Hshape, Hother, Hnew, Hold.
  destruct (add_wf self vector Hwf Hv Hdim) as (s' & Hs' & Hwf' & _).
  rewrite Hadd in Hs'. injection Hs' as <-.
  set (top := get_random_level self `max` max_layer_ self) in *.
  set (nodes0 := nodes_ self ++ [HNSWNode.new n top]) in *.
  set (layers := if decide (n = 0) then []
                 else layers_down_to_0
                        (get_random_level self `min` max_layer_ self)) in *.
  assert (∀ u l, neighbors_at nodes0 u layer = Some l → n ∉ l) as Hfresh.
  { intros u l Hl.
    destruct (neighbors_at_old self top u layer l Hwf Hl)
      as [[_ Hl0]|(_ & _ & ->)]; [|by intros ?%elem_of_nil].
    intros Hu. pose proof (wf_layer_below self layer Hwf u l n Hl0 Hu) as Hlt.
    rewrite (wf_nodes _ Hwf) in Hlt. unfold n in Hlt. lia. }
  assert (∀ u, on_layer (nodes_ self') layer u →
            ∃ l, neighbors_at nodes0 u layer = Some l) as Hback.
  { intros u Hon.
    by apply (on_layer_same_shape (nodes_ self') nodes0) in Hon. }
  destruct (decide (layer ∈ layers)) as [Hin|Hnin]; last first.
  { rewrite Hother in Hl_new by done.
    assert (l_new = []) as ->.
    { destruct (neighbors_at_old self top n layer l_new Hwf Hl_new)
        as [[? _]|(_ & _ & ->)]; [unfold n in *; lia|done]. }
    split; [by intros ? ?%elem_of_nil|].
    intros u lu. rewrite Hother by done. intros Hlu Hn.
    by apply Hfresh in Hlu. }
  destruct (Hnew layer l_new Hin Hl_new) as [_ Hlt]. split.
  - intros u Hu. split; [by apply Hlt|].
    destruct (Hback u) as [l Hl].
    { by apply (wf_closed _ Hwf' layer n l_new u). }
    destruct (Hold u layer l l_new) as (lu & Hlu & Hcase);
      [done|apply Hlt in Hu; lia|done..|].
    exists lu. split; [done|]. rewrite decide_True in Hcase by done.
    destruct Hcase as [_ [->|[? _]]]; [left|by right].
    apply elem_of_app. right. by apply list_elem_of_singleton.
  - intros u lu Hlu Hn. destruct (decide (u = n)) as [->|Hu].
    { rewrite Hl_new in Hlu. simplify_eq. apply Hlt in Hn. lia. }
    destruct (Hback u) as [l Hl]; [by eexists|].
    destruct (Hold u layer l l_new) as (lu' & Hlu' & Hcase); [done..|].
    rewrite Hlu in Hlu'. simplify_eq.
    case_decide; [done|]. subst. by apply Hfresh in Hl.
Qed.
End proofs.
End Invariants.

Module Beam.
Import HNSWIndex Graph Insert Wiring.
Section proofs.
Context `{Platform} `{!StdContracts}.

Lemma search_layer_edges (self : t) query entry_id ef layer res :
  wf self → on_layer (nodes_ self) layer entry_id →
  search_layer (dimensions_ self) (data_ self) (nodes_ self) query
    entry_id ef layer = Some res →
  ∀ c, c ∈ res → rtc (edge (nodes_ self) layer) entry_id (SearchCandidate.id c).
Proof.
  intros Hwf Hentry Hsearch.
  pose proof Hwf as [Hdata Hnodes Hclosed _ _ _].
  assert (length (nodes_ self) * dimensions_ self ≤ length (data_ self))
    as Hrows by (rewrite Hnodes; lia).
  assert (dimensions_ self ≠ 0) as Hdim.
  { apply (SearchLayer.search_layer_dimensions _ _ _ _ _ _ _ _
             (num_vectors_ self)) in Hsearch; [done|]. by rewrite Hdata. }
  destruct (SearchLayer.search_layer_spec (dimensions_ self) (data_ self)
              (nodes_ self) query ef layer
              (λ u, on_layer (nodes_ self) layer u ∧
                    rtc (edge (nodes_ self) layer) entry_id u)
              Hrows Hdim) with (entry_id := entry_id)
    as (res' & Hres' & [Hids _ _ _ _]).
  - by intros u [? _].
  - intros v l u [_ Hv] Hl Hu. split; [by eapply Hclosed|].
    eapply rtc_r; [done|]. by exists l.
  - done.
  - rewrite Hsearch in Hres'. simplify_eq. intros c Hc. by apply Hids.
Qed.

Lemma search_layer_edges_old dimensions data rows nodes bound query
    entry_id ef layer res :
  rows * dimensions ≤ length data → dimensions ≠ 0 →
  length nodes ≤ rows →
  layer_closed nodes layer → layer_below nodes bound layer →
  on_layer nodes layer entry_id → entry_id < bound →
  search_layer dimensions data nodes query entry_id ef layer = Some res →
  ∀ c, c ∈ res →
    old nodes bound layer (SearchCandidate.id c) ∧
    rtc (edge nodes layer) entry_id (SearchCandidate.id c).
Proof.
  intros Hrows Hdim Hlen Hclosed Hbelow Hon Hlt Hsearch.
  destruct (SearchLayer.search_layer_spec dimensions data nodes query ef
              layer
              (λ u, old nodes bound layer u ∧
                    rtc (edge nodes layer) entry_id u))
    with (entry_id := entry_id) as (res' & Hres' & [Hids _ _ _ _]).
  - nia.
  - done.
  - by intros u [[? _] _].
  - intros v l u [_ Hv] Hl Hu. split.
    + split; [by eapply Hclosed|by eapply Hbelow].
    + eapply rtc_r; [done|]. by exists l.
  - done.
  - rewrite Hsearch in Hres'. simplify_eq. intros c Hc. by apply Hids.
Qed.

Lemma rtc_edge_linked nodes layer v u :
  rtc (edge nodes layer) v u → rtc (linked nodes) v u.
Proof.
  induction 1 as [|v w u Hvw _ IH]; [done|].
  eapply rtc_l; [|done]. by exists layer.
Qed.

Lemma greedy_descent_linked dimensions data rows nodes bound query layers
    curr top curr' :
  rows * dimensions ≤ length data → dimensions ≠ 0 →
  length nodes ≤ rows →
  StronglySorted (λ a b, b < a) layers →
  (∀ layer, layer ∈ layers →
     layer ≤ top ∧ layer_closed nodes layer ∧ layer_below nodes bound layer) →
  on_layer nodes top curr → curr < bound →
  greedy_descent dimensions data nodes query curr layers = Some curr' →
  rtc (linked nodes) curr curr'.
Proof.
  intros Hrows Hdim Hlen Hsorted. revert curr top.
  induction Hsorted as [|lc layers _ IH Hlt];
    intros curr top Hlayers Hon Hcurr Hdesc.
  { cbn in Hdesc. by simplify_eq. }
  cbn [greedy_descent] in Hdesc.
  destruct (Hlayers lc) as (Hle & Hclosed & Hbelow); [by left|].
  destruct (search_layer_old dimensions data rows Hrows Hdim nodes bound
              query curr 1 lc)
    as (res & Hres & Hsr); [done..|by eapply on_layer_le|done|].
  rewrite Hres in Hdesc. cbn [mbind option_bind] in Hdesc.
  destruct res as [|c rest]; [by destruct (res_nonempty _ _ _ _ _ _ Hsr)|].
  cbn [first_id] in Hdesc.
  destruct (search_layer_edges_old dimensions data rows nodes bound query
              curr 1 lc (c :: rest) Hrows Hdim Hlen Hclosed Hbelow)
    with (c := c)
    as [[Hon' Hlt'] Hrtc]; [by eapply on_layer_le|done|done|by left|].
  etrans; [by eapply rtc_edge_linked|].
  apply (IH (SearchCandidate.id c) lc); [|done..].
  intros layer Hin. destruct (Hlayers layer) as (? & ? & ?); [by right|].
  rewrite Forall_forall in Hlt. split_and!; [|done..].
  apply Hlt in Hin. lia.
Qed.

Lemma search_linked (self : t) query k res i d :
  wf self → search self query k = Return self res → (i, d) ∈ res →
  rtc (linked (nodes_ self)) (entry_point_ self) i.
Proof.
  intros Hwf Hsearch Hin.
  assert (length query = dimensions_ self) as Hq.
  { unfold search in Hsearch. by case_decide. }
  assert (num_vectors_ self ≠ 0) as Hnz.
  { intros Hz. unfold search in Hsearch.
    rewrite decide_False in Hsearch by (by intros ?).
    rewrite decide_True in Hsearch by done. simplify_eq.
    by apply elem_of_nil in Hin. }
  destruct (search_returns self query k res self Hwf Hsearch) as [_ Hdim].
  specialize (Hdim Hnz).
  destruct (search_spec self query k Hwf Hq Hnz Hdim)
    as (curr & cands & Hdesc & Hlayer & Hsr & Hres).
  rewrite Hsearch in Hres. injection Hres as ->.
  pose proof Hwf as [Hdata Hnodes Hclosed _ Hentry _].
  specialize (Hentry Hnz).
  assert (length (nodes_ self) * dimensions_ self ≤ length (data_ self))
    as Hrows by (rewrite Hnodes; lia).
  assert (∀ layer, layer ∈ layers_down (max_layer_ self) 0 →
            layer ≤ max_layer_ self ∧ layer_closed (nodes_ self) layer ∧
            layer_below (nodes_ self) (length (nodes_ self)) layer)
    as Hlayers.
  { intros layer Hl%elem_of_layers_down.
    split_and!; [lia|done|by apply wf_layer_below]. }
  destruct (greedy_descent_spec (dimensions_ self) (data_ self)
              (length (nodes_ self)) Hrows Hdim (nodes_ self)
              (length (nodes_ self)) query
              (layers_down (max_layer_ self) 0)
              (entry_point_ self) (max_layer_ self))
    as (curr' & Hdesc' & Hcurr & Hcurr_on);
    [done|apply layers_down_sorted|done|done|by eapply on_layer_lt|].
  rewrite Hdesc in Hdesc'. injection Hdesc' as <-.
  assert (on_layer (nodes_ self) 0 curr) as Hon0.
  { apply Hcurr_on; [lia|]. intros lc ?%elem_of_layers_down. lia. }
  apply list_elem_of_fmap in Hin as (c & [= -> ->] & Hc).
  apply elem_of_take in Hc as (j & Hc%list_elem_of_lookup_2 & _).
  etrans.
  - apply (greedy_descent_linked (dimensions_ self) (data_ self)
             (length (nodes_ self)) (nodes_ self) (length (nodes_ self))
             query (layers_down (max_layer_ self) 0) (entry_point_ self)
             (max_layer_ self) curr);
      [done|done|done|apply layers_down_sorted|done|done
      |by eapply on_layer_lt|done].
  - apply (rtc_edge_linked _ 0).
    by apply (search_layer_edges self query curr
                (ef_search_ self `max` (k `min` num_vectors_ self)) 0 cands).
Qed.

Lemma rtc_no_edges nodes v u :
  (∀ w layer l, neighbors_at nodes w layer = Some l → l = []) →
  rtc (linked nodes) v u → u = v.
Proof.
  intros Hempty. induction 1 as [|v w u (layer & l & Hl & Hw) _ IH]; [done|].
  apply Hempty in Hl as ->. by apply elem_of_nil in Hw.
Qed.

Section order.
Hypothesis lt_irrefl : ∀ x : float, float_lt x x = false.
Hypothesis lt_neg_trans : ∀ x y z : float,
  float_lt x y = false → float_lt y z = false → float_lt x z = false.

Lemma all_ordered (ds : list float) : ordered_floats ds.
Proof. intros x y z _ _ _. apply lt_neg_trans. Qed.

Lemma all_lt (l : list SearchCandidate.t) :
  strict_weak_order SearchCandidate.lt l.
Proof.
  apply (strict_weak_order_lt SearchCandidate.distance); [done|].
  apply all_ordered.
Qed.

Lemma all_gt (l : list SearchCandidate.t) :
  strict_weak_order SearchCandidate.gt l.
Proof.
  apply (strict_weak_order_gt SearchCandidate.distance); [done|].
  apply all_ordered.
Qed.

Section layer.
Context (dimensions : nat) (data : list float) (nodes : list HNSWNode.t).
Context (query : list float) (ef layer : nat) (P : nat → Prop).
Hypothesis Hrows : length nodes * dimensions ≤ length data.
Hypothesis Hdim : dimensions ≠ 0.
Hypothesis HP_layer : ∀ u, P u → on_layer nodes layer u.
Hypothesis HP_step : ∀ v l u,
  P v → neighbors_at nodes v layer = Some l → u ∈ l → P u.

Local Abbreviation inv := (search_inv dimensions data query ef P).
Local Abbreviation ds := (distances_to dimensions data query (length nodes)).

Lemma HP_ds u d :
  P u → distance_to_query dimensions data query u = Some d → d ∈ ds.
Proof.
  intros Hu Hd. apply (elem_of_distances_to _ _ _ _ u); [|done].
  by apply (SearchLayer.on_layer_valid nodes layer), HP_layer.
Qed.

Lemma push_bounded_best (W0 : list SearchCandidate.t) c x :
  is_heap SearchCandidate.lt W0 → W0 ≠ [] → keeps_best x W0 →
  let W1 := priority_queue.push SearchCandidate.lt W0 c in
  keeps_best x (if decide (ef < length W1)
                then priority_queue.pop SearchCandidate.lt W1 else W1).
Proof.
  intros Hheap Hne (c0 & Hc0 & Hx) W1.
  pose proof (PQ.push_heap SearchCandidate.lt float_order_lt W0 c
                (all_lt _) Hheap) as Hh1.
  pose proof (PQ.push_perm SearchCandidate.lt float_order_lt W0 c) as Hp1.
  fold W1 in Hh1, Hp1.
  assert (c0 ∈ W1) as Hc1 by (rewrite Hp1; by right).
  assert (length W1 = S (length W0)) as Hlen1 by by rewrite Hp1.
  assert (1 ≤ length W0) as Hpos by (destruct W0; simpl; [done|lia]).
  case_decide; [|by exists c0].
  destruct (SearchLayer.top_Some W1) as [x1 Hx1];
    [by intros Hnil; rewrite Hnil in Hlen1|].
  destruct (PQ.pop_heap SearchCandidate.lt float_order_lt W1 x1
              (all_lt _) Hh1 Hx1) as (_ & Hmax).
  pose proof (PQ.pop_perm SearchCandidate.lt float_order_lt W1 x1 Hx1)
    as Hp2.
  pose proof (PQ.pop_length SearchCandidate.lt float_order_lt W1 x1 Hx1)
    as Hlen2.
  rewrite <-Hp2 in Hc1. apply elem_of_cons in Hc1 as [->|Hc1];
    [|by exists c0].
  destruct (priority_queue.pop SearchCandidate.lt W1) as [|y rest] eqn:Hpop;
    [simpl in Hlen2; lia|].
  exists y. split; [by left|].
  apply (lt_neg_trans _ (SearchCandidate.distance x1)); [done|].
  apply (Hmax y). by left.
Qed.

Lemma visit_neighbor_best s u s' x :
  inv s → heaps s → P u → keeps_best x (W s) →
  visit_neighbor dimensions data query ef s u = Some s' →
  keeps_best x (W s').
Proof.
  intros Hs [_ HhW] Hu Hbest Hvisit.
  destruct (decide (u ∈ visited s)) as [Hin|Hnin].
  { unfold visit_neighbor in Hvisit. rewrite decide_True in Hvisit by done.
    by simplify_eq. }
  destruct (SearchLayer.distance_to_query_Some dimensions data nodes query
              Hrows Hdim u) as [d Hd].
  { by apply (SearchLayer.on_layer_valid nodes layer), HP_layer. }
  destruct Hs as [_ _ _ _ Hne _].
  destruct (SearchLayer.top_Some (W s)) as [w Hw]; [done|].
  rewrite (SearchLayer.visit_neighbor_eq dimensions data query ef s u d w)
    in Hvisit by done.
  cbv zeta in Hvisit.
  destruct (float_lt d (SearchCandidate.distance w)
            || bool_decide (length (W s) < ef)); simplify_eq; [|done].
  cbn [W]. by apply push_bounded_best.
Qed.

Lemma visit_neighbors_best l s s' x :
  inv s → heaps s → (∀ u, u ∈ l → P u) → keeps_best x (W s) →
  visit_neighbors dimensions data query ef s l = Some s' →
  keeps_best x (W s').
Proof.
  revert s. induction l as [|u l IH]; intros s Hs Hh Hl Hbest Hvisit.
  { cbn in Hvisit. by simplify_eq. }
  cbn [visit_neighbors] in Hvisit.
  destruct (SearchLayer.visit_neighbor_inv dimensions data nodes query ef
              layer P Hrows Hdim HP_layer s u) as (s1 & Hs1eq & Hs1 & _);
    [done|apply Hl; by left|].
  rewrite Hs1eq in Hvisit. cbn in Hvisit.
  apply (IH s1); [done| |by intros; apply Hl; right| |done].
  - apply (SearchLayer.visit_neighbor_heaps dimensions data nodes query
             ef layer P Hrows Hdim HP_layer ds (all_ordered _) HP_ds s u);
      [done|done|apply Hl; by left|done].
  - apply (visit_neighbor_best s u); [done|done|apply Hl; by left|done|done].
Qed.

Lemma search_loop_best fuel s s' x :
  inv s → heaps s → keeps_best x (W s) →
  search_loop dimensions data nodes query ef layer fuel s = Some s' →
  keeps_best x (W s').
Proof.
  revert s. induction fuel as [|fuel IH]; intros s Hs Hh Hbest Hloop; [done|].
  cbn [search_loop] in Hloop.
  destruct (priority_queue.top (candidates s)) as [c|] eqn:Hc;
    [|by simplify_eq].
  destruct (SearchLayer.top_Some (W s)) as [w Hw]; [apply Hs|].
  rewrite Hw in Hloop. cbn [mbind option_bind] in Hloop.
  destruct (SearchLayer.pop_candidate_inv dimensions data nodes query ef P
              Hrows Hdim s c Hs Hc) as (Hs1 & _ & HPc).
  set (s1 := mk_search (visited s)
               (priority_queue.pop SearchCandidate.gt (candidates s)) (W s))
    in *.
  assert (heaps s1) as Hh1.
  { destruct Hh as [Hhc HhW]. split; [|done]. cbn [candidates s1].
    by apply (PQ.pop_heap SearchCandidate.gt float_order_gt _ c (all_gt _)). }
  destruct (float_lt _ _); [by simplify_eq|].
  destruct (HP_layer _ HPc) as [l Hl]. rewrite Hl in Hloop.
  cbn [mbind option_bind] in Hloop.
  destruct (SearchLayer.visit_neighbors_inv dimensions data nodes query ef
              layer P Hrows Hdim HP_layer l s1) as (s2 & Hs2eq & Hs2 & _);
    [done|by eauto|].
  rewrite Hs2eq in Hloop. cbn [mbind option_bind] in Hloop.
  apply (IH s2); [done| | |done].
  - apply (SearchLayer.visit_neighbors_heaps dimensions data nodes query
             ef layer P Hrows Hdim HP_layer ds (all_ordered _) HP_ds l s1);
      [done|done|by eauto|done].
  - apply (visit_neighbors_best l s1); [done|done|by eauto|done|done].
Qed.

Lemma search_layer_best entry_id res d_e :
  P entry_id →
  search_layer dimensions data nodes query entry_id ef layer = Some res →
  distance_to_query dimensions data query entry_id = Some d_e →
  ∃ c rest, res = c :: rest ∧
            float_lt d_e (SearchCandidate.distance c) = false.
Proof.
  intros Hentry Hsearch Hd.
  destruct (SearchLayer.search_layer_final dimensions data nodes query
              ef layer P Hrows Hdim HP_layer HP_step ds (all_ordered _)
              HP_ds entry_id res Hentry Hsearch)
    as (s & Hs & Hh & -> & d & Hd' & Hloop).
  rewrite Hd in Hd'. injection Hd' as <-.
  set (c := SearchCandidate.mk entry_id d_e) in *.
  destruct (SearchLayer.entry_inv dimensions data nodes query ef layer P
              Hrows Hdim HP_layer entry_id d_e Hentry Hd) as [Hs0 _].
  fold c in Hs0.
  set (s0 := mk_search _ _ _) in *.
  pose proof (PQ.push_perm SearchCandidate.gt float_order_gt [] c) as Hpc.
  pose proof (PQ.push_perm SearchCandidate.lt float_order_lt [] c) as HpW.
  assert (heaps s0) as Hh0.
  { split; cbn [candidates W s0];
      (apply PQ.push_heap; [done| |apply is_heap_nil]);
      [apply all_gt|apply all_lt]. }
  assert (keeps_best d_e (W s0)) as Hbest0.
  { exists c. split; [|apply lt_irrefl].
    unfold s0. cbn [W]. rewrite HpW. by left. }
  pose proof (search_loop_best _ s0 s d_e Hs0 Hh0 Hbest0 Hloop)
    as (cw & Hcw & Hlt).
  pose proof (SearchLayer.drain_perm (length (W s)) (W s) ltac:(done))
    as Hperm.
  pose proof (SearchLayer.drain_sorted (length (W s)) (W s) (all_lt _)
                (proj2 Hh) ltac:(done)) as Hord.
  pose proof (SearchLayer.ascending_reverse SearchCandidate.lt _ Hord)
    as Hasc.
  assert (cw ∈ reverse (drain (length (W s)) (W s))) as Hin.
  { by rewrite reverse_Permutation, Hperm. }
  destruct (reverse (drain (length (W s)) (W s))) as [|c0 rest];
    [by apply elem_of_nil in Hin|].
  exists c0, rest. split; [done|].
  apply elem_of_cons in Hin as [->|Hin]; [done|].
  apply list_elem_of_lookup in Hin as [j Hj].
  apply (lt_neg_trans _ (SearchCandidate.distance cw)); [done|].
  apply (Hasc 0 (S j) c0 cw); [lia|done|done].
Qed.
End layer.

Section arena.
Context (dimensions : nat) (data : list float) (rows : nat).
Hypothesis Hrows : rows * dimensions ≤ length data.
Hypothesis Hdim : dimensions ≠ 0.

Lemma search_layer_old_best nodes bound query entry_id ef layer res d_e :
  length nodes ≤ rows →
  layer_closed nodes layer → layer_below nodes bound layer →
  on_layer nodes layer entry_id → entry_id < bound →
  search_layer dimensions data nodes query entry_id ef layer = Some res →
  distance_to_query dimensions data query entry_id = Some d_e →
  ∃ c rest, res = c :: rest ∧
            float_lt d_e (SearchCandidate.distance c) = false.
Proof.
  intros Hlen Hclosed Hbelow Hon Hlt.
  apply (search_layer_best dimensions data nodes query ef layer
           (old nodes bound layer)).
  - nia.
  - done.
  - by intros u [? _].
  - intros v l u _ Hl Hu. split; [by eapply Hclosed|by eapply Hbelow].
  - done.
Qed.

Lemma greedy_descent_best nodes bound query layers curr top curr' d d' :
  length nodes ≤ rows →
  StronglySorted (λ a b, b < a) layers →
  (∀ layer, layer ∈ layers →
     layer ≤ top ∧ layer_closed nodes layer ∧ layer_below nodes bound layer) →
  on_layer nodes top curr → curr < bound →
  greedy_descent dimensions data nodes query curr layers = Some curr' →
  distance_to_query dimensions data query curr = Some d →
  distance_to_query dimensions data query curr' = Some d' →
  float_lt d d' = false.
Proof.
  intros Hlen Hsorted. revert curr top d.
  induction Hsorted as [|lc layers _ IH Hlt];
    intros curr top d Hlayers Hon Hcurr Hdesc Hd Hd'.
  { cbn in Hdesc. simplify_eq. apply lt_irrefl. }
  cbn [greedy_descent] in Hdesc.
  destruct (Hlayers lc) as (Hle & Hclosed & Hbelow); [by left|].
  destruct (search_layer_old dimensions data rows Hrows Hdim nodes bound
              query curr 1 lc)
    as (res & Hres & Hsr); [done..|by eapply on_layer_le|done|].
  rewrite Hres in Hdesc. cbn [mbind option_bind] in Hdesc.
  destruct (search_layer_old_best nodes bound query curr 1 lc res d)
    as (c & rest & -> & Hc); [done..|by eapply on_layer_le|done|done|done|].
  cbn [first_id] in Hdesc.
  destruct (res_ids _ _ _ _ _ _ Hsr c) as [Hon' Hlt']; [by left|].
  assert (true_distance dimensions data query c) as Htrue.
  { apply (res_distance _ _ _ _ _ _ Hsr c). by left. }
  apply (lt_neg_trans _ (SearchCandidate.distance c)); [done|].
  apply (IH (SearchCandidate.id c) lc); [|done..].
  intros layer Hin. destruct (Hlayers layer) as (? & ? & ?); [by right|].
  rewrite Forall_forall in Hlt. split_and!; [|done..].
  apply Hlt in Hin. lia.
Qed.
End arena.

Lemma search_best (self : t) query k i d res d_e :
  wf self →
  search self query k = Return self ((i, d) :: res) →
  distance_to_query (dimensions_ self) (data_ self) query
    (entry_point_ self) = Some d_e →
  float_lt d_e d = false.
Proof.
  intros Hwf Hsearch Hde.
  assert (length query = dimensions_ self) as Hq.
  { unfold search in Hsearch. by case_decide. }
  assert (num_vectors_ self ≠ 0) as Hnz.
  { intros Hz. unfold search in Hsearch.
    rewrite decide_False in Hsearch by (by intros ?).
    by rewrite decide_True in Hsearch by done. }
  destruct (search_returns self query k _ self Hwf Hsearch) as [_ Hdim].
  specialize (Hdim Hnz).
  destruct (search_spec self query k Hwf Hq Hnz Hdim)
    as (curr & cands & Hdesc & Hlayer & Hsr & Hres).
  rewrite Hsearch in Hres. injection Hres as Hres.
  pose proof Hwf as [Hdata Hnodes Hclosed _ Hentry _].
  specialize (Hentry Hnz).
  assert (length (nodes_ self) * dimensions_ self ≤ length (data_ self))
    as Hrows by (rewrite Hnodes; lia).
  destruct (greedy_descent_spec (dimensions_ self) (data_ self)
              (length (nodes_ self)) Hrows Hdim (nodes_ self)
              (length (nodes_ self)) query
              (layers_down (max_layer_ self) 0)
              (entry_point_ self) (max_layer_ self))
    as (curr' & Hdesc' & Hcurr & Hcurr_on);
    [done|apply layers_down_sorted| |done|by eapply on_layer_lt|].
  { intros layer Hl%elem_of_layers_down.
    split_and!; [lia|done|by apply wf_layer_below]. }
  rewrite Hdesc in Hdesc'. injection Hdesc' as <-.
  assert (on_layer (nodes_ self) 0 curr) as Hon0.
  { apply Hcurr_on; [lia|]. intros lc ?%elem_of_layers_down. lia. }
  destruct (SearchLayer.distance_to_query_Some (dimensions_ self)
              (data_ self) (nodes_ self) query Hrows Hdim curr)
    as [d_c Hdc]; [done|].
  assert (float_lt d_e d_c = false) as Hstep1.
  { apply (greedy_descent_best (dimensions_ self) (data_ self)
             (length (nodes_ self)) Hrows Hdim (nodes_ self)
             (length (nodes_ self)) query
             (layers_down (max_layer_ self) 0)
             (entry_point_ self) (max_layer_ self) curr);
      [done|apply layers_down_sorted| |done|by eapply on_layer_lt|done..].
    intros layer Hl%elem_of_layers_down.
    split_and!; [lia|done|by apply wf_layer_below]. }
  destruct (search_layer_old_best (dimensions_ self) (data_ self)
              (length (nodes_ self)) Hrows Hdim (nodes_ self)
              (length (nodes_ self)) query curr
              (ef_search_ self `max` (k `min` num_vectors_ self)) 0 cands d_c)
    as (c & rest & -> & Hc);
    [done|done|by apply wf_layer_below|done|done|done|done|].
  destruct (k `min` num_vectors_ self) as [|k']; [done|].
  cbn in Hres. injection Hres as _ -> _.
  by apply (lt_neg_trans _ d_c).
Qed.
End order.
End proofs.
End Beam.

(** * Further properties of the code *)

(** X1.  [l2_distance_simd(a, b, dimensions)] reads only the first
    [dimensions] elements of [a] and of [b], on each of its three paths:
    what follows them in memory does not change the result. *)
Theorem l2_distance_reads_dimensions `{Platform} (a b : list float)
    (dimensions : nat) :
  l2_distance_simd (take dimensions a) (take dimensions b) dimensions
  = l2_distance_simd a b dimensions.
Proof. apply Kernels.l2_take. Qed.

(** X2.  Where [(x - y) * (x - y)] and [(y - x) * (y - x)] are the same
    [float], as they are in IEEE arithmetic, [l2_distance_simd] is
    symmetric in its two vectors. *)
Theorem l2_distance_symmetric `{Platform} (a b : list float)
    (dimensions : nat) :
  (∀ x y : float,
     float_mul (float_sub x y) (float_sub x y)
     = float_mul (float_sub y x) (float_sub y x)) →
  l2_distance_simd a b dimensions = l2_distance_simd b a dimensions.
Proof. intros Hsq. by apply Kernels.l2_sym. Qed.

Lemma l2_distance_symmetric_witness :
  @l2_distance_simd more_examples.avx2
    more_examples.nine_a more_examples.nine_b 9
  = @l2_distance_simd more_examples.avx2
      more_examples.nine_b more_examples.nine_a 9.
Proof.
  apply (@l2_distance_symmetric more_examples.avx2).
  intros x y. cbn. lia.
Defined.

(** X3.  In exact arithmetic, that is, when [float] addition is
    associative and commutative with [0.0f] neutral, every path of
    [l2_distance_simd] returns the sum of [(a[i] - b[i])^2] over
    [i < dimensions]: the vector steps and the scalar tail together cover
    each index once. *)
Theorem l2_distance_paths_agree `{Platform} (a b : list float)
    (dimensions : nat) :
  (∀ x y z : float,
     float_add x (float_add y z) = float_add (float_add x y) z) →
  (∀ x y : float, float_add x y = float_add y x) →
  (∀ x : float, float_add float_zero x = x) →
  l2_distance_simd a b dimensions
  = total (l2_term a b <$> seq 0 dimensions).
Proof.
  intros Ha Hc Hz. rewrite (Kernels.l2_exact Ha Hc Hz).
  rewrite (Kernels.scalar_loop_total Ha Hc Hz), Hz. by rewrite Nat.sub_0_r.
Qed.

Lemma l2_distance_paths_agree_witness :
  @l2_distance_simd more_examples.avx2
    more_examples.nine_a more_examples.nine_b 9
  = @total more_examples.avx2
      (@l2_term more_examples.avx2 more_examples.nine_a more_examples.nine_b
         <$> seq 0 9).
Proof.
  apply (@l2_distance_paths_agree more_examples.avx2); intros; cbn; lia.
Defined.

(** X4.  [l2_distance_simd(a, a, dimensions)] is [0.0f] when [x - x] is
    [0.0f] for each of the first [dimensions] elements of [a] (they are
    finite) and [0.0f * 0.0f] and [0.0f + 0.0f] are [0.0f]. *)
Theorem l2_distance_self `{Platform} (a : list float) (dimensions : nat) :
  (∀ i, i < dimensions →
     float_sub (at_ptr a i) (at_ptr a i) = float_zero) →
  float_mul float_zero float_zero = float_zero →
  float_add float_zero float_zero = float_zero →
  l2_distance_simd a a dimensions = float_zero.
Proof. apply Kernels.l2_self. Qed.

Lemma l2_distance_self_witness :
  @l2_distance_simd more_examples.avx2
    more_examples.nine_a more_examples.nine_a 9 = 0%Z.
Proof.
  apply (@l2_distance_self more_examples.avx2); [|done..].
  intros i _. cbn. lia.
Defined.

(** X5.  [cosine_similarity_simd(a, b, dimensions)] reads only the first
    [dimensions] elements of [a] and of [b]. *)
Theorem cosine_similarity_reads_dimensions `{PlatformMath}
    (a b : list float) (dimensions : nat) :
  cosine_similarity_simd (take dimensions a) (take dimensions b) dimensions
  = cosine_similarity_simd a b dimensions.
Proof. apply Kernels.cosine_take. Qed.

(** X6.  [cosine_similarity_simd] is symmetric in its two vectors when
    [float] multiplication is commutative, as it is in IEEE arithmetic:
    exchanging the vectors exchanges the two norms and keeps every
    product of the dot product. *)
Theorem cosine_similarity_symmetric `{PlatformMath} (a b : list float)
    (dimensions : nat) :
  (∀ x y : float, float_mul x y = float_mul y x) →
  cosine_similarity_simd a b dimensions
  = cosine_similarity_simd b a dimensions.
Proof. intros Hm. by apply Kernels.cosine_sym. Qed.

Lemma cosine_similarity_symmetric_witness :
  @cosine_similarity_simd _ more_examples.integer_math
    more_examples.nine_a more_examples.nine_b 9
  = @cosine_similarity_simd _ more_examples.integer_math
      more_examples.nine_b more_examples.nine_a 9.
Proof.
  apply (@cosine_similarity_symmetric _ more_examples.integer_math).
  intros x y. cbn. lia.
Defined.

(** X7.  In exact arithmetic every path of [cosine_similarity_simd]
    returns the quotient of the sum of [a[i] * b[i]] by the product of the
    square roots of the sums of [a[i] * a[i]] and of [b[i] * b[i]], over
    [i < dimensions]. *)
Theorem cosine_similarity_paths_agree `{PlatformMath} (a b : list float)
    (dimensions : nat) :
  (∀ x y z : float,
     float_add x (float_add y z) = float_add (float_add x y) z) →
  (∀ x y : float, float_add x y = float_add y x) →
  (∀ x : float, float_add float_zero x = x) →
  cosine_similarity_simd a b dimensions
  = float_div (total (dot_term a b <$> seq 0 dimensions))
      (float_mul (float_sqrt (total (dot_term a a <$> seq 0 dimensions)))
                 (float_sqrt (total (dot_term b b <$> seq 0 dimensions)))).
Proof.
  intros Ha Hc Hz. unfold cosine_similarity_simd.
  rewrite (Kernels.cosine_exact Ha Hc Hz), Kernels.cosine_scalar_loop_split.
  rewrite !(Kernels.foldl_terms Ha Hc Hz), !Hz. by rewrite Nat.sub_0_r.
Qed.

Lemma cosine_similarity_paths_agree_witness :
  @cosine_similarity_simd _ more_examples.integer_math
    more_examples.nine_a more_examples.nine_b 9
  = (165 `div` (Z.sqrt 285 * Z.sqrt 285))%Z.
Proof.
  apply (@cosine_similarity_paths_agree _ more_examples.integer_math
           more_examples.nine_a more_examples.nine_b 9); intros; cbn; lia.
Defined.

(** X8.  [VectorBatchInserter::add_batch] of vectors that all have
    [dimensions] elements leaves the index exactly as adding them one by
    one with [add] does. *)
Theorem brute_force_add_batch_is_add_loop `{Platform}
    (self : VectorBatchInserter.t) (vectors : list (list float)) :
  Forall (λ vec, length vec = VectorBatchInserter.dimensions self) vectors →
  VectorBatchInserter.add_batch self vectors
  = Callers.add_each self vectors.
Proof. intros Hall. symmetry. by apply Calls.add_each_add_batch. Qed.

Lemma brute_force_add_batch_is_add_loop_witness :
  VectorBatchInserter.add_batch examples.brute_force [[2]; [5]]%Z
  = Callers.add_each examples.brute_force [[2]; [5]]%Z.
Proof.
  apply (@brute_force_add_batch_is_add_loop examples.P).
  repeat constructor.
Defined.

(** X9.  Every pair [(i, d)] that the brute-force [search] returns names
    a stored vector, and [d] is [l2_distance_simd] of the query and that
    vector alone: the rows after it in [data_] play no part. *)
Theorem brute_force_search_distances `{Platform} `{!StdContracts}
    (self : VectorBatchInserter.t) (vs : list (list float))
    (query : list float) (k : nat) (res : list (nat * float)) :
  VectorBatchInserter.stores self vs →
  VectorBatchInserter.search self query k = Return self res →
  ∀ i d, (i, d) ∈ res →
    ∃ v, vs !! i = Some v ∧
         d = l2_distance_simd query v (VectorBatchInserter.dimensions self).
Proof. apply Calls.search_vectors_bf. Qed.

Lemma brute_force_search_distances_witness :
  ∃ v, examples.three_vectors !! 2 = Some v ∧
       0%Z = @l2_distance_simd examples.P [0%Z] v 1.
Proof.
  apply (@brute_force_search_distances examples.P
           (ReferenceProofs.contracts SCALAR) examples.brute_force
           examples.three_vectors [0%Z] 2 [(2, 0%Z); (1, 0%Z)]).
  - exact brute_force_example_stores.
  - exact brute_force_example_search.
  - apply elem_of_cons. by left.
Defined.

(** X10.  The pairs that the HNSW [search] returns have distinct ids,
    each the id of a stored vector with [l2_distance_simd] of the query
    and that vector; and on an index that is not empty a search with
    [k >= 1] returns at least one pair. *)
Theorem hnsw_search_sound `{Platform} `{!StdContracts}
    (self : HNSWIndex.t) (vs : list (list float))
    (query : list float) (k : nat) (res : list (nat * float)) :
  HNSWIndex.stores self vs →
  HNSWIndex.search self query k = Return self res →
  NoDup res.*1 ∧
  (∀ i d, (i, d) ∈ res →
     ∃ v, vs !! i = Some v ∧
          d = l2_distance_simd query v (HNSWIndex.dimensions self)) ∧
  (1 ≤ k → HNSWIndex.size self ≠ 0 → res ≠ []).
Proof. apply Calls.search_results. Qed.

Lemma hnsw_search_sound_witness :
  NoDup [(2, 49%Z); (1, 81%Z); (0, 100%Z)].*1 ∧
  (∀ i d, (i, d) ∈ [(2, 49%Z); (1, 81%Z); (0, 100%Z)] →
     ∃ v, examples.four_vectors !! i = Some v ∧
          d = @l2_distance_simd examples.P [10%Z] v 1) ∧
  (1 ≤ 4 → 4 ≠ 0 → [(2, 49%Z); (1, 81%Z); (0, 100%Z)] ≠ []).
Proof.
  apply (@hnsw_search_sound examples.P (ReferenceProofs.contracts SCALAR)
           examples.hnsw_four examples.four_vectors [10%Z] 4).
  - exact hnsw_four_stores.
  - exact hnsw_four_search.
Defined.

(** X11.  On an index of dimension at least 1, [search_layer] started
    at a node that has a list on [layer] never returns an empty sequence,
    so the guards [if (!nearest.empty())] in [add] and [search] always
    take the first result; with [ef <= 1], as in the greedy descent, it
    returns exactly one candidate. *)
Theorem hnsw_search_layer_nonempty `{Platform} `{!StdContracts}
    (self : HNSWIndex.t) (query : list float)
    (entry_id ef layer curr_nearest : nat) :
  HNSWIndex.reachable self →
  HNSWIndex.dimensions_ self ≠ 0 →
  HNSWIndex.on_layer (HNSWIndex.nodes_ self) layer entry_id →
  ∃ c rest,
    HNSWIndex.search_layer (HNSWIndex.dimensions_ self)
      (HNSWIndex.data_ self) (HNSWIndex.nodes_ self) query
      entry_id ef layer = Some (c :: rest) ∧
    HNSWIndex.first_id (c :: rest) curr_nearest = SearchCandidate.id c ∧
    SearchCandidate.id c < HNSWIndex.size self ∧
    (ef ≤ 1 → rest = []).
Proof. apply Calls.search_layer_head. Qed.

Lemma hnsw_search_layer_nonempty_witness :
  ∃ c rest,
    HNSWIndex.search_layer 1 (HNSWIndex.data_ examples.hnsw_four)
      (HNSWIndex.nodes_ examples.hnsw_four) [10%Z] 1 0 0 = Some (c :: rest) ∧
    HNSWIndex.first_id (c :: rest) 1 = SearchCandidate.id c ∧
    SearchCandidate.id c < 4 ∧
    (0 ≤ 1 → rest = []).
Proof.
  apply (@hnsw_search_layer_nonempty examples.P
           (ReferenceProofs.contracts SCALAR) examples.hnsw_four
           [10%Z] 1 0 0 1).
  - exact hnsw_four_reachable.
  - simpl. lia.
  - exists [0; 2]. reflexivity.
Defined.

(** X12.  [add] does not read [ef_search]: [set_ef(ef)] before an
    insertion gives the state that [set_ef(ef)] after it gives. *)
Theorem hnsw_set_ef_then_add `{Platform} (self self1 self2 : HNSWIndex.t)
    (ef : nat) (vector : list float) :
  HNSWIndex.set_ef self ef = Return self1 () →
  HNSWIndex.add self vector = Return self2 () →
  ∃ self3, HNSWIndex.add self1 vector = Return self3 () ∧
           HNSWIndex.set_ef self2 ef = Return self3 ().
Proof. apply Calls.set_ef_add. Qed.

Lemma hnsw_set_ef_then_add_witness :
  ∃ self3,
    HNSWIndex.add more_examples.hnsw_four_ef7 [7%Z] = Return self3 () ∧
    HNSWIndex.set_ef examples.hnsw_five 7 = Return self3 ().
Proof.
  apply (@hnsw_set_ef_then_add examples.P examples.hnsw_four
           more_examples.hnsw_four_ef7 examples.hnsw_five 7 [7%Z]);
    reflexivity.
Defined.

(** X13.  [max_elements] only sizes the reservation made by the
    constructor: [add] never compares the number of vectors with it, and
    an index of dimension at least 1 built with any [max_elements] takes
    any number of vectors. *)
Theorem hnsw_grows_past_max_elements `{Platform} `{!StdContracts}
    (dimensions max_elements M ef_construction : nat)
    (vectors : list (list float)) :
  dimensions ≠ 0 →
  Forall (λ vec, length vec = dimensions) vectors →
  ∃ self',
    HNSWIndex.add_batch
      (HNSWIndex.new dimensions max_elements M ef_construction) vectors
    = Return self' () ∧
    HNSWIndex.size self' = length vectors ∧
    HNSWIndex.max_elements_ self' = max_elements.
Proof. apply Calls.add_batch_new. Qed.

Lemma hnsw_grows_past_max_elements_witness :
  ∃ self',
    HNSWIndex.add_batch more_examples.hnsw_small examples.four_vectors
    = Return self' () ∧
    HNSWIndex.size self' = 4 ∧ HNSWIndex.max_elements_ self' = 1.
Proof.
  apply (@hnsw_grows_past_max_elements examples.P
           (ReferenceProofs.contracts SCALAR) 1 1 1 200
           examples.four_vectors).
  - lia.
  - repeat constructor.
Defined.

(** X14.  The generator advances by one for each vector an HNSW index
    accepts and by nothing else: a call moves [rng_] forward by the number
    of vectors it stores, so [clear], [search], [set_ef] and a rejected
    [add] leave it where it is. *)
Theorem hnsw_rng_draws `{Platform} `{!StdContracts}
    (self self' : HNSWIndex.t) (c : HNSWIndex.call) :
  HNSWIndex.reachable self → HNSWIndex.run self c = Some self' →
  HNSWIndex.rng_ self'
  = HNSWIndex.rng_ self
    + length (HNSWIndex.stored_after (HNSWIndex.dimensions_ self) [] c).
Proof. apply Calls.run_rng. Qed.

Lemma hnsw_rng_draws_witness :
  HNSWIndex.rng_ examples.hnsw_five
  = HNSWIndex.rng_ examples.hnsw_four
    + length (@HNSWIndex.stored_after examples.P 1 []
                (@HNSWIndex.call_add examples.P [7%Z])).
Proof.
  apply (@hnsw_rng_draws examples.P (ReferenceProofs.contracts SCALAR)
           examples.hnsw_four examples.hnsw_five
           (@HNSWIndex.call_add examples.P [7%Z])).
  - exact hnsw_four_reachable.
  - reflexivity.
Defined.

(** X15.  Where the dimension is at least 1 and [<] orders the
    distances from the node to its neighbours (none of them is NaN),
    [prune_connections] on a list longer than [M] keeps exactly [M] of its
    ids, in ascending order of their distance to the node, and drops the
    rest: no dropped neighbour is nearer to the node than a kept one.  On
    a list of at most [M] ids it changes nothing. *)
Theorem prune_connections_keeps_nearest `{Platform} `{!StdContracts}
    (dimensions : nat) (data : list float) (rows : nat)
    (nodes : list HNSWNode.t) (n layer M : nat) (l : list nat) :
  rows * dimensions ≤ length data →
  dimensions ≠ 0 →
  ordered_floats (omap (HNSWIndex.distance dimensions data n) l) →
  HNSWIndex.neighbors_at nodes n layer = Some l →
  n < rows → (∀ u, u ∈ l → u < rows) →
  ∃ kept dropped,
    HNSWIndex.prune_connections dimensions data nodes n layer M
    = Some (HNSWIndex.set_neighbors nodes n layer kept) ∧
    kept ++ dropped ≡ₚ l ∧
    (length l ≤ M → kept = l) ∧
    (M < length l → length kept = M) ∧
    (∀ u w du dw, u ∈ kept → w ∈ dropped →
       HNSWIndex.distance dimensions data n u = Some du →
       HNSWIndex.distance dimensions data n w = Some dw →
       float_lt dw du = false) ∧
    (∀ i j u w du dw, M < length l → i < j →
       kept !! i = Some u → kept !! j = Some w →
       HNSWIndex.distance dimensions data n u = Some du →
       HNSWIndex.distance dimensions data n w = Some dw →
       float_lt dw du = false).
Proof.
  intros Hrows Hdim Hds Hl Hn Hlrows.
  destruct (Links.prune_connections_exact dimensions data rows Hrows Hdim
              nodes n layer M l Hl Hn Hlrows)
    as (kept & dropped & Hprune & Hperm & Hle & Hgt & Hord).
  destruct (Hord Hds) as [Hnear Hasc].
  exists kept, dropped. by split_and!.
Qed.

Lemma prune_connections_keeps_nearest_witness :
  ∃ kept dropped,
    @HNSWIndex.prune_connections examples.P 1 [0; 1; 3; 10]%Z
      more_examples.three_neighbours 0 0 2
    = Some (HNSWIndex.set_neighbors more_examples.three_neighbours 0 0 kept) ∧
    kept ++ dropped ≡ₚ [1; 3; 2] ∧
    (length [1; 3; 2] ≤ 2 → kept = [1; 3; 2]) ∧
    (2 < length [1; 3; 2] → length kept = 2) ∧
    (∀ u w du dw, u ∈ kept → w ∈ dropped →
       @HNSWIndex.distance examples.P 1 [0; 1; 3; 10]%Z 0 u = Some du →
       @HNSWIndex.distance examples.P 1 [0; 1; 3; 10]%Z 0 w = Some dw →
       @float_lt examples.P dw du = false) ∧
    (∀ i j u w du dw, 2 < length [1; 3; 2] → i < j →
       kept !! i = Some u → kept !! j = Some w →
       @HNSWIndex.distance examples.P 1 [0; 1; 3; 10]%Z 0 u = Some du →
       @HNSWIndex.distance examples.P 1 [0; 1; 3; 10]%Z 0 w = Some dw →
       @float_lt examples.P dw du = false).
Proof.
  apply (@prune_connections_keeps_nearest examples.P
           (ReferenceProofs.contracts SCALAR) 1 [0; 1; 3; 10]%Z 4
           more_examples.three_neighbours 0 0 2 [1; 3; 2]).
  - simpl. lia.
  - lia.
  - apply ReferenceProofs.ordered.
  - reflexivity.
  - lia.
  - intros u Hu. repeat (apply elem_of_cons in Hu as [->|Hu]; [lia|]).
    by apply elem_of_nil in Hu.
Defined.

(** With a NaN among the distances [std::sort] promises no order: it
    leaves the distances 1, 25, NaN, 9 as they are, and pruning to two
    neighbours keeps the one at distance 25 and drops the one at distance
    9. *)
Lemma prune_connections_nan :
  @HNSWIndex.prune_connections nan_examples.P 1 nan_examples.nan_arena
    nan_examples.four_neighbours 0 0 2
  = Some (HNSWIndex.set_neighbors nan_examples.four_neighbours 0 0 [1; 2]).
Proof. reflexivity. Qed.

(** X16.  In every reachable HNSW index the node at position [i] of
    [nodes_] has id [i]. *)
Theorem hnsw_node_ids `{Platform} `{!StdContracts} (self : HNSWIndex.t)
    (i : nat) (node : HNSWNode.t) :
  HNSWIndex.reachable self →
  HNSWIndex.nodes_ self !! i = Some node → HNSWNode.id node = i.
Proof. intros Hr. by apply Invariants.reachable_ids. Qed.

Lemma hnsw_node_ids_witness :
  HNSWNode.id (HNSWNode.mk 3 [[2; 1]; []; []]) = 3.
Proof.
  apply (@hnsw_node_ids examples.P (ReferenceProofs.contracts SCALAR)
           examples.hnsw_four 3 (HNSWNode.mk 3 [[2; 1]; []; []])).
  - exact hnsw_four_reachable.
  - reflexivity.
Defined.

(** X17.  In every reachable HNSW index no neighbour list holds an id
    twice, and no node is its own neighbour. *)
Theorem hnsw_neighbour_lists_simple `{Platform} `{!StdContracts}
    (self : HNSWIndex.t) (v layer : nat) (l : list nat) :
  HNSWIndex.reachable self →
  HNSWIndex.neighbors_at (HNSWIndex.nodes_ self) v layer = Some l →
  NoDup l ∧ v ∉ l.
Proof. intros Hr. by apply Invariants.reachable_simple. Qed.

Lemma hnsw_neighbour_lists_simple_witness : NoDup [2; 1] ∧ 3 ∉ [2; 1].
Proof.
  apply (@hnsw_neighbour_lists_simple examples.P
           (ReferenceProofs.contracts SCALAR) examples.hnsw_four 3 0 [2; 1]).
  - exact hnsw_four_reachable.
  - reflexivity.
Defined.

(** X18.  In every reachable HNSW index each node has at least one layer
    and at most [max_layer + 1]; when the index is not empty the entry
    point is a node with exactly [max_layer + 1] layers; when it is empty
    [max_layer] and the entry point are 0. *)
Theorem hnsw_layers_and_entry_point `{Platform} `{!StdContracts}
    (self : HNSWIndex.t) :
  HNSWIndex.reachable self →
  (∀ i node, HNSWIndex.nodes_ self !! i = Some node →
     1 ≤ length (HNSWNode.neighbors node) ≤ HNSWIndex.max_layer_ self + 1) ∧
  (HNSWIndex.size self ≠ 0 →
   ∃ node, HNSWIndex.nodes_ self !! HNSWIndex.entry_point_ self = Some node ∧
           length (HNSWNode.neighbors node) = HNSWIndex.max_layer_ self + 1) ∧
  (HNSWIndex.size self = 0 →
   HNSWIndex.max_layer_ self = 0 ∧ HNSWIndex.entry_point_ self = 0).
Proof.
  intros (Hzero & Hbound & Hentry)%Invariants.reachable_levels. split_and!.
  - intros i node Hi. apply (Hbound i). unfold HNSWIndex.shape.
    by rewrite list_lookup_fmap, Hi.
  - intros Hn. specialize (Hentry Hn). unfold HNSWIndex.shape in Hentry.
    rewrite list_lookup_fmap in Hentry.
    destruct (HNSWIndex.nodes_ self !! HNSWIndex.entry_point_ self)
      as [node|]; [|done].
    exists node. split; [done|]. by simplify_eq/=.
  - done.
Qed.

Lemma hnsw_layers_and_entry_point_witness :
  (∀ i node, HNSWIndex.nodes_ examples.hnsw_four !! i = Some node →
     1 ≤ length (HNSWNode.neighbors node) ≤ 2 + 1) ∧
  (4 ≠ 0 →
   ∃ node, HNSWIndex.nodes_ examples.hnsw_four !! 1 = Some node ∧
           length (HNSWNode.neighbors node) = 2 + 1) ∧
  (4 = 0 → 2 = 0 ∧ 1 = 0).
Proof.
  apply (@hnsw_layers_and_entry_point examples.P
           (ReferenceProofs.contracts SCALAR) examples.hnsw_four).
  exact hnsw_four_reachable.
Defined.

(** X19.  [add] of a vector that draws level [l] into an index with top
    layer [t] gives the new node [max(l, t) + 1] layers and keeps the
    number of layers of every other node; the top layer becomes
    [max(l, t)]; and the new node becomes the entry point exactly when it
    is the first node or [l > t]. *)
Theorem hnsw_add_levels `{Platform} `{!StdContracts}
    (self self' : HNSWIndex.t) (vector : list float) :
  HNSWIndex.reachable self →
  HNSWIndex.add self vector = Return self' () →
  let level := HNSWIndex.get_random_level self in
  HNSWIndex.shape (HNSWIndex.nodes_ self')
  = HNSWIndex.shape (HNSWIndex.nodes_ self)
    ++ [level `max` HNSWIndex.max_layer_ self + 1] ∧
  HNSWIndex.max_layer_ self' = level `max` HNSWIndex.max_layer_ self ∧
  HNSWIndex.entry_point_ self'
  = (if decide (HNSWIndex.size self = 0 ∨ HNSWIndex.max_layer_ self < level)
     then HNSWIndex.size self else HNSWIndex.entry_point_ self).
Proof.
  intros Hr Hadd level.
  destruct (Invariants.add_levels self vector self') as (_ & ? & ? & ?);
    [by apply Insert.reachable_wf|by apply Invariants.reachable_levels|done|].
  done.
Qed.

Lemma hnsw_add_levels_witness :
  HNSWIndex.shape (HNSWIndex.nodes_ examples.hnsw_five)
  = HNSWIndex.shape (HNSWIndex.nodes_ examples.hnsw_four) ++ [1 `max` 2 + 1] ∧
  HNSWIndex.max_layer_ examples.hnsw_five = 1 `max` 2 ∧
  HNSWIndex.entry_point_ examples.hnsw_five
  = (if decide (4 = 0 ∨ 2 < 1) then 4 else 1).
Proof.
  apply (@hnsw_add_levels examples.P (ReferenceProofs.contracts SCALAR)
           examples.hnsw_four examples.hnsw_five [7%Z]).
  - exact hnsw_four_reachable.
  - reflexivity.
Defined.

(** X20.  [add] never links two nodes that were there before: the list
    of an older node afterwards holds ids of its list before and at most
    once the new id; lists on layers above [min(l, t)], for [l] the level
    drawn and [t] the top layer before, stay as they are, and the new
    node's lists there are empty. *)
Theorem hnsw_add_frame `{Platform} `{!StdContracts}
    (self self' : HNSWIndex.t) (vector : list float) :
  HNSWIndex.reachable self →
  HNSWIndex.add self vector = Return self' () →
  let n := HNSWIndex.size self in
  let level := HNSWIndex.get_random_level self in
  let low := level `min` HNSWIndex.max_layer_ self in
  (∀ v layer l,
     HNSWIndex.neighbors_at (HNSWIndex.nodes_ self) v layer = Some l →
     ∃ l', HNSWIndex.neighbors_at (HNSWIndex.nodes_ self') v layer = Some l' ∧
           l' ⊆+ l ++ [n] ∧ (low < layer → l' = l)) ∧
  (∀ layer, low < layer → layer ≤ level `max` HNSWIndex.max_layer_ self →
     HNSWIndex.neighbors_at (HNSWIndex.nodes_ self') n layer = Some []).
Proof.
  intros Hr Hadd. apply (Invariants.add_frame self vector self'); [|done].
  by apply Insert.reachable_wf.
Qed.

Lemma hnsw_add_frame_witness :
  (∀ v layer l,
     HNSWIndex.neighbors_at (HNSWIndex.nodes_ examples.hnsw_four) v layer
     = Some l →
     ∃ l', HNSWIndex.neighbors_at (HNSWIndex.nodes_ examples.hnsw_five)
             v layer = Some l' ∧
           l' ⊆+ l ++ [4] ∧ (1 `min` 2 < layer → l' = l)) ∧
  (∀ layer, 1 `min` 2 < layer → layer ≤ 1 `max` 2 →
     HNSWIndex.neighbors_at (HNSWIndex.nodes_ examples.hnsw_five) 4 layer
     = Some []).
Proof.
  apply (@hnsw_add_frame examples.P (ReferenceProofs.contracts SCALAR)
           examples.hnsw_four examples.hnsw_five [7%Z]).
  - exact hnsw_four_reachable.
  - reflexivity.
Defined.

(** X21.  After [add], every node the new node lists on a layer is an
    older node that lists the new node back or has a full list on that
    layer, [M_max0] ids on layer 0 and [M] above; and a node that lists the
    new node is listed by it. *)
Theorem hnsw_add_back_links `{Platform} `{!StdContracts}
    (self self' : HNSWIndex.t) (vector : list float)
    (layer : nat) (l_new : list nat) :
  HNSWIndex.reachable self →
  HNSWIndex.add self vector = Return self' () →
  let n := HNSWIndex.size self in
  HNSWIndex.neighbors_at (HNSWIndex.nodes_ self') n layer = Some l_new →
  (∀ u, u ∈ l_new →
     u < n ∧
     ∃ lu, HNSWIndex.neighbors_at (HNSWIndex.nodes_ self') u layer = Some lu ∧
           (n ∈ lu ∨
            length lu = if decide (layer = 0) then HNSWIndex.M_max_ self
                        else HNSWIndex.M_ self)) ∧
  (∀ u lu, HNSWIndex.neighbors_at (HNSWIndex.nodes_ self') u layer = Some lu →
           n ∈ lu → u ∈ l_new).
Proof.
  intros Hr Hadd n Hl.
  apply (Invariants.add_back_links self vector self'); [|done..].
  by apply Insert.reachable_wf.
Qed.

Lemma hnsw_add_back_links_witness :
  (∀ u, u ∈ [1] →
     u < 4 ∧
     ∃ lu, HNSWIndex.neighbors_at (HNSWIndex.nodes_ examples.hnsw_five) u 1
           = Some lu ∧
           (4 ∈ lu ∨ length lu = if decide (1 = 0) then 2 else 1)) ∧
  (∀ u lu, HNSWIndex.neighbors_at (HNSWIndex.nodes_ examples.hnsw_five) u 1
           = Some lu →
           4 ∈ lu → u ∈ [1]).
Proof.
  apply (@hnsw_add_back_links examples.P (ReferenceProofs.contracts SCALAR)
           examples.hnsw_four examples.hnsw_five [7%Z] 1 [1]).
  - exact hnsw_four_reachable.
  - reflexivity.
  - reflexivity.
Defined.

(** X22.  Every candidate [search_layer] returns is connected to the
    entry id by neighbour lists of that layer: a node that no list leads
    to from the entry is never found. *)
Theorem hnsw_search_layer_connected `{Platform} `{!StdContracts}
    (self : HNSWIndex.t) (query : list float) (entry_id ef layer : nat)
    (res : list SearchCandidate.t) (c : SearchCandidate.t) :
  HNSWIndex.reachable self →
  HNSWIndex.on_layer (HNSWIndex.nodes_ self) layer entry_id →
  HNSWIndex.search_layer (HNSWIndex.dimensions_ self)
    (HNSWIndex.data_ self) (HNSWIndex.nodes_ self) query entry_id ef layer
  = Some res →
  c ∈ res →
  rtc (Wiring.edge (HNSWIndex.nodes_ self) layer) entry_id
    (SearchCandidate.id c).
Proof.
  intros Hwf%Insert.reachable_wf Hentry Hsearch Hc.
  by apply (Beam.search_layer_edges self query entry_id ef layer res).
Qed.

Lemma hnsw_search_layer_connected_witness :
  rtc (Wiring.edge (HNSWIndex.nodes_ examples.hnsw_four) 0) 1 2.
Proof.
  apply (@hnsw_search_layer_connected examples.P
           (ReferenceProofs.contracts SCALAR) examples.hnsw_four [10%Z]
           1 2 0 [@SearchCandidate.mk examples.P 2 49%Z; @SearchCandidate.mk examples.P 1 81%Z]
           (@SearchCandidate.mk examples.P 2 49%Z)).
  - exact hnsw_four_reachable.
  - exists [0; 2]. reflexivity.
  - reflexivity.
  - apply elem_of_cons. by left.
Defined.





(** X25.  Every id [HNSWIndex::search] returns is connected to the entry
    point by neighbour lists: the descent and the search on layer 0 only
    follow lists, so a node that no list leads to from the entry point is
    never returned, however large [k] and [ef_search] are. *)
Theorem hnsw_search_connected `{Platform} `{!StdContracts}
    (self : HNSWIndex.t) (query : list float) (k : nat)
    (res : list (nat * float)) (i : nat) (d : float) :
  HNSWIndex.reachable self →
  HNSWIndex.search self query k = Return self res →
  (i, d) ∈ res →
  rtc (Wiring.linked (HNSWIndex.nodes_ self))
    (HNSWIndex.entry_point_ self) i.
Proof.
  intros Hwf%Insert.reachable_wf Hsearch Hin.
  by apply (Beam.search_linked self query k res i d).
Qed.

Lemma hnsw_search_connected_witness :
  rtc (Wiring.linked (HNSWIndex.nodes_ examples.hnsw_four)) 1 0.
Proof.
  apply (@hnsw_search_connected examples.P
           (ReferenceProofs.contracts SCALAR) examples.hnsw_four [10%Z] 4
           [(2, 49%Z); (1, 81%Z); (0, 100%Z)] 0 100%Z).
  - exact hnsw_four_reachable.
  - exact hnsw_four_search.
  - do 2 (apply elem_of_cons; right). apply elem_of_cons. by left.
Defined.

(** X26.  The constructor takes [M = 0] as it is; such an index never
    links two nodes, all its neighbour lists stay empty, and [search]
    returns at most one pair, for the entry point. *)
Theorem hnsw_M_zero `{Platform} `{!StdContracts}
    (self : HNSWIndex.t) (query : list float) (k : nat)
    (res : list (nat * float)) :
  HNSWIndex.reachable self →
  HNSWIndex.M_ self = 0 →
  (∀ v layer l,
     HNSWIndex.neighbors_at (HNSWIndex.nodes_ self) v layer = Some l →
     l = []) ∧
  (HNSWIndex.search self query k = Return self res →
   length res ≤ 1 ∧
   ∀ i d, (i, d) ∈ res → i = HNSWIndex.entry_point_ self).
Proof.
  intros Hr HM. pose proof (Insert.reachable_wf self Hr) as Hwf.
  assert (∀ v layer l,
            HNSWIndex.neighbors_at (HNSWIndex.nodes_ self) v layer = Some l →
            l = []) as Hempty.
  { assert (HNSWIndex.M_max_ self = 0) as HM0
      by (by rewrite (HNSWIndex.wf_M_max _ Hwf), HM).
    intros v layer l Hl.
    pose proof (HNSWIndex.wf_degree _ Hwf v layer l Hl) as Hdeg.
    rewrite HM0, HM in Hdeg. unfold HNSWIndex.max_degree in Hdeg.
    destruct l; [done|]. case_decide; simpl in Hdeg; lia. }
  split; [done|]. intros Hsearch.
  assert (∀ i d, (i, d) ∈ res → i = HNSWIndex.entry_point_ self) as Hone.
  { intros i d Hin. apply (Beam.rtc_no_edges (HNSWIndex.nodes_ self));
      [done|]. by apply (Beam.search_linked self query k res i d). }
  split; [|done].
  destruct (Insert.reachable_stores self Hr) as [vs Hvs].
  destruct (Calls.search_results self vs query k res Hvs Hsearch)
    as (Hnd & _ & _).
  destruct res as [|[i d] [|[i' d'] res]]; simpl; [lia|lia|].
  exfalso. rewrite (Hone i d), (Hone i' d') in Hnd;
    [|by right; left|by left].
  apply NoDup_cons in Hnd as [Hnin _]. apply Hnin. by left.
Qed.

Lemma hnsw_M0_reachable : HNSWIndex.reachable more_examples.hnsw_M0.
Proof.
  apply (HNSWIndex.reachable_run (HNSWIndex.new 1 10 0 200)
           (HNSWIndex.call_add_batch examples.two_vectors)).
  - apply HNSWIndex.reachable_new.
  - reflexivity.
Qed.

Lemma hnsw_M_zero_witness :
  (∀ v layer l,
     HNSWIndex.neighbors_at (HNSWIndex.nodes_ more_examples.hnsw_M0) v layer
     = Some l →
     l = []) ∧
  (HNSWIndex.search more_examples.hnsw_M0 [1%Z] 2
   = Return more_examples.hnsw_M0 [(0, 1%Z)] →
   length [(0, 1%Z)] ≤ 1 ∧ ∀ i d, (i, d) ∈ [(0, 1%Z)] → i = 0).
Proof.
  apply (@hnsw_M_zero examples.P (ReferenceProofs.contracts SCALAR)
           more_examples.hnsw_M0 [1%Z] 2 [(0, 1%Z)]).
  - exact hnsw_M0_reachable.
  - reflexivity.
Defined.

(** [search([1], 2)] on [more_examples.hnsw_M0] returns the entry point
    alone, at distance 1, although vector 1 is the query itself. *)
Lemma hnsw_M0_search :
  HNSWIndex.search more_examples.hnsw_M0 [1%Z] 2
  = Return more_examples.hnsw_M0 [(0, 1%Z)].
Proof. reflexivity. Qed.
